(** * local-devices-gen-x: the probing scheduler and the scan session

    A shallow embedding of [index.js] and [util.js].  Asynchronous code is
    modelled by explicit state machines: a generator or an async function is
    a state that is advanced by the events of the event loop (the consumer
    asking for the next value, a promise settling, a collaborator replying),
    each event being handled to completion before the next one.  A run is a
    list of events; the states are executable, so that a run can be
    evaluated.  Collaborators outside the repository ([ipLookup], [arpTable],
    [get-ip-range], the socket) appear only through the events they cause or
    as parameters. *)

From Stdlib Require Import String Ascii List Bool Arith ZArith QArith Lia Lqa.
From Stdlib Require Import Sorting Permutation.
Import ListNotations.

(** ** JavaScript numbers

    Finite values are kept exact (rationals): rounding of doubles is not
    modelled.  [NaN] and the two infinities are explicit. *)

Module Num.

Inductive num : Type :=
| NaN
| Inf (negative : bool)
| Fin (q : Q).

Definition of_Z (z : Z) : num := Fin (inject_Z z).
Definition of_nat (k : nat) : num := of_Z (Z.of_nat k).

(** [ToBoolean]: [NaN], [+0] and [-0] are falsy. *)
Definition truthy (n : num) : bool :=
  match n with
  | NaN => false
  | Inf _ => true
  | Fin q => negb (Qnum q =? 0)%Z
  end.

(** [a || b] on numbers. *)
Definition or (a b : num) : num := if truthy a then a else b.

(** [n > 0]. *)
Definition gt0 (n : num) : bool :=
  match n with
  | NaN => false
  | Inf negative => negb negative
  | Fin q => (0 <? Qnum q)%Z
  end.

(** [n === 0]. *)
Definition is0 (n : num) : bool :=
  match n with
  | Fin q => (Qnum q =? 0)%Z
  | _ => false
  end.

(** [a - b]. *)
Definition sub (a b : num) : num :=
  match a, b with
  | NaN, _ | _, NaN => NaN
  | Inf x, Inf y => if Bool.eqb x y then NaN else Inf x
  | Inf x, Fin _ => Inf x
  | Fin _, Inf y => Inf (negb y)
  | Fin p, Fin q => Fin (p - q)
  end.

(** The value of [n] after [n--]. *)
Definition pred (n : num) : num := sub n (Fin 1).

(** [Math.sign]. *)
Definition sign (n : num) : num :=
  match n with
  | NaN => NaN
  | Inf negative => if negative then of_Z (-1) else of_Z 1
  | Fin q => of_Z (Z.sgn (Qnum q))
  end.

End Num.
Export Num.

Close Scope Q_scope.

(** ** The built-in [Map]

    A [Map] keeps its entries in insertion order.  [delete] leaves a hole in
    the entry list, so that the positions of the other entries, which live
    iterators refer to, do not move; [set] on an absent key appends. *)

Module JSMap.
Section Ops.
Context {V : Type}.

Definition t : Type := list (option (nat * V)).

Definition holds (k : nat) (e : option (nat * V)) : bool :=
  match e with
  | Some (k', _) => k' =? k
  | None => false
  end.

Definition has (m : t) (k : nat) : bool := existsb (holds k) m.

Fixpoint get (m : t) (k : nat) : option V :=
  match m with
  | [] => None
  | Some (k', v) :: m' => if k' =? k then Some v else get m' k
  | None :: m' => get m' k
  end.

Definition delete (m : t) (k : nat) : t :=
  map (fun e => if holds k e then None else e) m.

Definition replace (m : t) (k : nat) (v : V) : t :=
  map (fun e => if holds k e then Some (k, v) else e) m.

Definition set (m : t) (k : nat) (v : V) : t :=
  if has m k then replace m k v else m ++ [Some (k, v)].

(** The live entries, in iteration order. *)
Fixpoint entries (m : t) : list (nat * V) :=
  match m with
  | [] => []
  | Some kv :: m' => kv :: entries m'
  | None :: m' => entries m'
  end.

Definition values (m : t) : list V := map snd (entries m).

Definition size (m : t) : nat := length (entries m).

(** [new Map(array.entries())]. *)
Fixpoint of_array_from (i : nat) (l : list V) : t :=
  match l with
  | [] => []
  | v :: l' => Some (i, v) :: of_array_from (S i) l'
  end.

Definition of_array (l : list V) : t := of_array_from 0 l.

(** One step of a live map iterator standing at [index]: the next entry
    that is not a hole at or after [index], and the position after it. *)
Fixpoint first_live (m : t) (index : nat) : option ((nat * V) * nat) :=
  match m with
  | [] => None
  | Some kv :: _ => Some (kv, S index)
  | None :: m' => first_live m' (S index)
  end.

Definition iter_next (m : t) (index : nat) : option ((nat * V) * nat) :=
  first_live (skipn index m) index.

End Ops.
Arguments t : clear implicits.
End JSMap.

(** ** Promises

    A promise is pending until the event loop settles it.  What it settles
    to is fixed when it is created; when it settles is decided by the
    trace of events. *)

Inductive outcome (Y : Type) : Type :=
| Resolved (y : Y)
| Rejected.
Arguments Resolved {Y} y.
Arguments Rejected {Y}.

Record promise (Y : Type) : Type := Promise {
  eventual : outcome Y;
  settled : bool
}.
Arguments Promise {Y} eventual settled.
Arguments eventual {Y} p.
Arguments settled {Y} p.

Definition pending_promise {Y} (o : outcome Y) : promise Y :=
  {| eventual := o; settled := false |}.

Definition settle {Y} (p : promise Y) : promise Y :=
  {| eventual := eventual p; settled := true |}.

(** [p.then(g)] for a [g] that does not throw. *)
Definition then_ {Y Z} (o : outcome Y) (g : Y -> Z) : outcome Z :=
  match o with
  | Resolved y => Resolved (g y)
  | Rejected => Rejected
  end.

(** [Promise.race(promises.values())]: the first promise, in iteration
    order, that has already settled wins; with none settled the race is
    still open. *)
Definition race {Y} (m : JSMap.t (promise Y)) : option (outcome Y) :=
  match find (fun p => settled p) (JSMap.values m) with
  | Some p => Some (eventual p)
  | None => None
  end.

Module Gen.

(** Events of the event loop seen by a generator: the consumer asks for the
    next value, or the promise held under key [k] settles. *)
Inductive event : Type :=
| Next
| Settle (k : nat).

(** Where an async generator stands. *)
Inductive mode (Y : Type) : Type :=
| Fresh                              (* created, body not entered *)
| Awaiting                           (* blocked in [await Promise.race] *)
| Suspended (i : nat) (value : Y)    (* stopped at [yield value] *)
| Done                               (* body finished *)
| Threw.                             (* body ended by a rejection *)
Arguments Fresh {Y}.
Arguments Suspended {Y} i value.
Arguments Awaiting {Y}.
Arguments Done {Y}.
Arguments Threw {Y}.

End Gen.

Section Traces.
Context {St Ev : Type}.
Variable step : Ev -> St -> option St.

Fixpoint run (tr : list Ev) (s : St) : option St :=
  match tr with
  | [] => Some s
  | e :: tr' =>
      match step e s with
      | Some s' => run tr' s'
      | None => None
      end
  end.

Lemma run_app (tr tr' : list Ev) (s : St) :
  run (tr ++ tr') s =
  match run tr s with Some s' => run tr' s' | None => None end.
Proof.
  revert s; induction tr as [|e tr IH]; intros s; simpl; [reflexivity|].
  destruct (step e s); [apply IH | reflexivity].
Qed.

(** A property that holds initially and is kept by every step holds in
    every state a trace leads to. *)
Lemma run_invariant (P : St -> Prop) :
  (forall e s s', P s -> step e s = Some s' -> P s') ->
  forall tr s s', P s -> run tr s = Some s' -> P s'.
Proof.
  intros Hstep tr; induction tr as [|e tr IH]; intros s s' Hs Hrun; simpl in Hrun.
  - now inversion Hrun; subst.
  - destruct (step e s) as [s1|] eqn:E; [|discriminate].
    eapply IH; [eapply Hstep; eassumption | exact Hrun].
Qed.

End Traces.

(** ** [takeFromIter] and [mapConcurrently] *)

Module MapConcurrently.
Import Gen.
Section Scheduler.
Context {X Y : Type}.

(** [takeFromIter(it, n)]: the elements taken and the iterator left. *)
Fixpoint takeFromIter (it : list X) (n : num) : list X * list X :=
  if gt0 n then
    match it with
    | [] => ([], [])
    | x :: it' =>
        let (res, it'') := takeFromIter it' (Num.pred n) in (x :: res, it'')
    end
  else ([], it).

Variable f : X -> outcome Y.

(** [index(i)] : [y => [i, y]]. *)
Definition index (i : nat) (y : Y) : nat * Y := (i, y).

(** [f(x).then(index(i))]. *)
Definition task (i : nat) (x : X) : promise (nat * Y) :=
  pending_promise (then_ (f x) (index i)).

Fixpoint tasks_from (i : nat) (batch : list X) : list (promise (nat * Y)) :=
  match batch with
  | [] => []
  | x :: batch' => task i x :: tasks_from (S i) batch'
  end.

Record state : Type := State {
  it : list X;                              (* the input not yet drawn *)
  n : num;
  promises : JSMap.t (promise (nat * Y));
  at_ : mode Y;
  yielded : list Y;                         (* values yielded so far *)
  calls : list X;                           (* arguments [f] was called on *)
  settles : nat                             (* worker promises settled *)
}.

Definition mapConcurrently (xs : list X) (n : num) : state :=
  {| it := xs; n := n; promises := []; at_ := Fresh;
     yielded := []; calls := []; settles := 0 |}.

(** Entering the body: the first batch is drawn and its workers started. *)
Definition start (s : state) : state :=
  let (batch, it') := takeFromIter (it s) (n s) in
  {| it := it'; n := n s;
     promises := JSMap.of_array (tasks_from 0 batch);
     at_ := at_ s; yielded := yielded s;
     calls := calls s ++ batch; settles := settles s |}.

(** [await Promise.race(...)] and what follows it up to the [yield]. *)
Definition race_step (s : state) : state :=
  match race (promises s) with
  | None =>
      {| it := it s; n := n s; promises := promises s; at_ := Awaiting;
         yielded := yielded s; calls := calls s; settles := settles s |}
  | Some (Resolved (i, value)) =>
      {| it := it s; n := n s; promises := JSMap.delete (promises s) i;
         at_ := Suspended i value;
         yielded := yielded s ++ [value]; calls := calls s;
         settles := settles s |}
  | Some Rejected =>
      {| it := it s; n := n s; promises := promises s; at_ := Threw;
         yielded := yielded s; calls := calls s; settles := settles s |}
  end.

(** The head of the [while] loop. *)
Definition loop (s : state) : state :=
  if JSMap.size (promises s) =? 0 then
    {| it := it s; n := n s; promises := promises s; at_ := Done;
       yielded := yielded s; calls := calls s; settles := settles s |}
  else race_step s.

(** After the [yield]: [it.next()] and, unless done, the refill of slot [i]. *)
Definition refill (i : nat) (s : state) : state :=
  match it s with
  | [] => s
  | x :: it' =>
      {| it := it'; n := n s;
         promises := JSMap.set (promises s) i (task i x);
         at_ := at_ s; yielded := yielded s;
         calls := calls s ++ [x]; settles := settles s |}
  end.

(** The promise of slot [k] settles. *)
Definition mark (k : nat) (s : state) : state :=
  match JSMap.get (promises s) k with
  | Some p =>
      {| it := it s; n := n s;
         promises := JSMap.replace (promises s) k (settle p);
         at_ := at_ s; yielded := yielded s; calls := calls s;
         settles := S (settles s) |}
  | None => s
  end.

(** One event, handled to completion as the event loop does.  [Next] resumes
    the body where it stands; [Settle k] settles the pending promise of slot
    [k] and lets a race that is waiting resolve.  An event that cannot occur
    (a request while one is being served, the settlement of a promise that
    is not pending) has no successor. *)
Definition step (e : event) (s : state) : option state :=
  match e with
  | Next =>
      match at_ s with
      | Fresh => Some (loop (start s))
      | Suspended i _ => Some (loop (refill i s))
      | Awaiting => None
      | Done | Threw => Some s
      end
  | Settle k =>
      match JSMap.get (promises s) k with
      | Some p =>
          if settled p then None
          else
            match at_ s with
            | Awaiting => Some (race_step (mark k s))
            | _ => Some (mark k s)
            end
      | None => None
      end
  end.

(** Worker invocations started and not yet settled. *)
Definition outstanding (s : state) : nat := length (calls s) - settles s.

End Scheduler.
End MapConcurrently.

(** ** [raceAll] *)

Module RaceAll.
Import Gen.
Section Race.
Context {Y : Type}.

(** [async (p, i) => [i, await p]]: settles as [p] does, with the index. *)
Definition indexed (i : nat) (p : promise Y) : promise (nat * Y) :=
  {| eventual := then_ (eventual p) (pair i); settled := settled p |}.

Fixpoint indexed_from (i : nat) (ps : list (promise Y)) : list (promise (nat * Y)) :=
  match ps with
  | [] => []
  | p :: ps' => indexed i p :: indexed_from (S i) ps'
  end.

Record state : Type := State {
  aIt : list (promise Y);                   (* the promises handed in *)
  promises : JSMap.t (promise (nat * Y));
  cursor : nat;                             (* position of the [for...of] iterator *)
  at_ : mode Y;
  yielded : list Y
}.

Definition raceAll (aIt : list (promise Y)) : state :=
  {| aIt := aIt; promises := []; cursor := 0; at_ := Fresh; yielded := [] |}.

(** Entering the body: the map is built and its iterator created. *)
Definition start (s : state) : state :=
  {| aIt := aIt s;
     promises := JSMap.of_array (indexed_from 0 (aIt s));
     cursor := 0; at_ := at_ s; yielded := yielded s |}.

(** [await Promise.race(...)], [promises.delete(i)] and the [yield]. *)
Definition race_step (s : state) : state :=
  match race (promises s) with
  | None =>
      {| aIt := aIt s; promises := promises s; cursor := cursor s;
         at_ := Awaiting; yielded := yielded s |}
  | Some (Resolved (i, value)) =>
      {| aIt := aIt s; promises := JSMap.delete (promises s) i;
         cursor := cursor s; at_ := Suspended i value;
         yielded := yielded s ++ [value] |}
  | Some Rejected =>
      {| aIt := aIt s; promises := promises s; cursor := cursor s;
         at_ := Threw; yielded := yielded s |}
  end.

(** The head of [for (const _ of promises)]: the iterator of the map is
    asked for its next entry; the body runs when there is one. *)
Definition for_of (s : state) : state :=
  match JSMap.iter_next (promises s) (cursor s) with
  | None =>
      {| aIt := aIt s; promises := promises s; cursor := cursor s;
         at_ := Done; yielded := yielded s |}
  | Some (_, cursor') =>
      race_step
        {| aIt := aIt s; promises := promises s; cursor := cursor';
           at_ := at_ s; yielded := yielded s |}
  end.

Fixpoint settle_nth (k : nat) (ps : list (promise Y)) : option (list (promise Y)) :=
  match ps, k with
  | [], _ => None
  | p :: ps', 0 => if settled p then None else Some (settle p :: ps')
  | p :: ps', S k' =>
      match settle_nth k' ps' with
      | Some ps'' => Some (p :: ps'')
      | None => None
      end
  end.

(** The promise of entry [k] settles. *)
Definition mark (k : nat) (s : state) : state :=
  match JSMap.get (promises s) k with
  | Some p =>
      {| aIt := aIt s;
         promises := JSMap.replace (promises s) k (settle p);
         cursor := cursor s; at_ := at_ s; yielded := yielded s |}
  | None => s
  end.

(** One event; the two kinds of event are those of [mapConcurrently]. *)
Definition step (e : event) (s : state) : option state :=
  match e with
  | Next =>
      match at_ s with
      | Fresh => Some (for_of (start s))
      | Suspended _ _ => Some (for_of s)
      | Awaiting => None
      | Done | Threw => Some s
      end
  | Settle k =>
      match at_ s with
      | Fresh =>
          (* the promises exist before the generator is first asked *)
          match settle_nth k (aIt s) with
          | Some ps =>
              Some {| aIt := ps; promises := promises s; cursor := cursor s;
                      at_ := at_ s; yielded := yielded s |}
          | None => None
          end
      | a =>
          match JSMap.get (promises s) k with
          | Some p =>
              if settled p then None
              else
                match a with
                | Awaiting => Some (race_step (mark k s))
                | _ => Some (mark k s)
                end
          | None => None
          end
      end
  end.

End Race.
End RaceAll.

(** ** [ping] *)

Module Ping.

Inductive socket_event : Type :=
| Timeout        (* ['timeout']: [PING_TIMEOUT] ms without activity *)
| Connect        (* ['connect'] *)
| Error.         (* ['error'] *)

Definition PING_TIMEOUT : Z := 250.

(** The state of a promise as its holder sees it. *)
Inductive settlement : Type :=
| Pending
| Fulfilled (value : string)
| RejectedWith (reason : string).

(** The socket of one [ping] and the promise returned for it.  The three
    listeners are one-shot: [setTimeout] and [connect] register their
    callback with [once], as the explicit [once('error', ...)] does. *)
Record state : Type := State {
  address : string;
  result : settlement;
  destroyed : bool;
  on_timeout : bool;
  on_connect : bool;
  on_error : bool
}.

(** [resolve(v)]: only the first call settles the promise. *)
Definition resolve (v : string) (r : settlement) : settlement :=
  match r with
  | Pending => Fulfilled v
  | _ => r
  end.

(** [close = () => (socket.destroy(), resolve(address))]. *)
Definition close (s : state) : state :=
  {| address := address s;
     result := resolve (address s) (result s);
     destroyed := true;
     on_timeout := on_timeout s; on_connect := on_connect s;
     on_error := on_error s |}.

(** The executor has run: the socket exists, the three listeners are set. *)
Definition ping (address : string) : state :=
  {| address := address; result := Pending; destroyed := false;
     on_timeout := true; on_connect := true; on_error := true |}.

(** The socket emits [ev]: the listener registered for it, if it is still
    there, is removed and called.  An event nobody listens to leaves the
    promise as it is. *)
Definition emit (ev : socket_event) (s : state) : state :=
  match ev with
  | Timeout =>
      if on_timeout s then
        close {| address := address s; result := result s;
                 destroyed := destroyed s; on_timeout := false;
                 on_connect := on_connect s; on_error := on_error s |}
      else s
  | Connect =>
      if on_connect s then
        close {| address := address s; result := result s;
                 destroyed := destroyed s; on_timeout := on_timeout s;
                 on_connect := false; on_error := on_error s |}
      else s
  | Error =>
      if on_error s then
        close {| address := address s; result := result s;
                 destroyed := destroyed s; on_timeout := on_timeout s;
                 on_connect := on_connect s; on_error := false |}
      else s
  end.

Definition emit_all (evs : list socket_event) (s : state) : state :=
  fold_left (fun s ev => emit ev s) evs s.

(** A settled promise, as the scheduler sees it. *)
Definition outcome_of (r : settlement) : option (outcome string) :=
  match r with
  | Pending => None
  | Fulfilled value => Some (Resolved value)
  | RejectedWith _ => Some Rejected
  end.

(** [ping] as a worker of the scheduler: what its promise settles to (by
    [ping_resolves_to_its_address] below, after any first event). *)
Definition worker (address : string) : outcome string := Resolved address.

End Ping.

(** ** Strings, MAC addresses and IP addresses *)

Module Str.

(** [String.prototype.toLowerCase] on one ASCII character. *)
Definition lower (c : ascii) : ascii :=
  let n := nat_of_ascii c in
  if (65 <=? n) && (n <=? 90) then ascii_of_nat (n + 32) else c.

Fixpoint toLowerCase (s : string) : string :=
  match s with
  | EmptyString => EmptyString
  | String c s' => String (lower c) (toLowerCase s')
  end.

(** Membership in the character class [[0-9a-f]]. *)
Definition in_0_9a_f (c : ascii) : bool :=
  let n := nat_of_ascii c in
  ((48 <=? n) && (n <=? 57)) || ((97 <=? n) && (n <=? 102)).

(** [s.replace(/[^...]/g, '')] for a character class given by [keep]. *)
Fixpoint remove_unless (keep : ascii -> bool) (s : string) : string :=
  match s with
  | EmptyString => EmptyString
  | String c s' =>
      if keep c then String c (remove_unless keep s') else remove_unless keep s'
  end.

(** [s.split(sep)] for a one-character separator. *)
Fixpoint split (sep : ascii) (s : string) : list string :=
  match s with
  | EmptyString => [EmptyString]
  | String c s' =>
      if Ascii.eqb c sep then EmptyString :: split sep s'
      else
        match split sep s' with
        | [] => [String c EmptyString]
        | w :: ws => String c w :: ws
        end
  end.

End Str.

(** [toHex = mac => mac.toLowerCase().replace(/[^0-9a-f]/g, '')]. *)
Definition toHex (mac : string) : string :=
  Str.remove_unless Str.in_0_9a_f (Str.toLowerCase mac).

(** [as[0]]: [undefined], hence [NaN] in arithmetic, on an empty array. *)
Definition at0 (l : list num) : num :=
  match l with
  | [] => NaN
  | a :: _ => a
  end.

(** [arrayCompare(as, bs)]. *)
Fixpoint arrayCompare (as_ bs : list num) {struct as_} : num :=
  let res := Num.sign (Num.sub (at0 as_) (at0 bs)) in
  match as_ with
  | [] => res
  | _ :: as' =>
      if Num.is0 res && (1 <? length as_) then arrayCompare as' (tl bs)
      else res
  end.

(** [Array.prototype.sort(comparefn)]: the order of the result is fixed by
    the language only through [comparefn]; the sort is stable and an
    element moves behind another only when [comparefn] is positive on them
    (a [NaN] counts as [0]).  Insertion sort is taken as the algorithm. *)
Fixpoint sort_insert {A} (comparefn : A -> A -> num) (x : A) (l : list A) : list A :=
  match l with
  | [] => [x]
  | y :: l' =>
      if Num.gt0 (comparefn x y) then y :: sort_insert comparefn x l'
      else x :: l
  end.

Definition sort {A} (comparefn : A -> A -> num) (l : list A) : list A :=
  fold_right (sort_insert comparefn) [] l.

(** ** The built-in [Set] of strings, in insertion order *)

Module JSSet.

Definition t : Type := list string.

Definition has (s : t) (x : string) : bool := existsb (String.eqb x) s.

Definition add (s : t) (x : string) : t := if has s x then s else s ++ [x].

(** [new Set(array)]. *)
Definition of_array (l : list string) : t := fold_left add l [].

End JSSet.

(** ** Devices *)

Record Device : Type := {
  ip : string;
  mac : string;
  flag : option string;
  iface : option string;
  ifname : option string
}.

(** What a neighbor-table collaborator ([ipLookup], [arpTable]) answers:
    an array, a falsy value, or a rejection. *)
Inductive reply : Type :=
| Entries (devices : list Device)
| Nothing
| Failed.

(** [r || []]. *)
Definition or_empty (r : reply) : list Device :=
  match r with
  | Entries devices => devices
  | _ => []
  end.

(** One address of a network interface, as [os.networkInterfaces()] lists
    it; [cidr] is [null] ([None]) when the netmask is not valid. *)
Record NetworkInterfaceInfo : Type := {
  family : string;
  internal : bool;
  cidr : option string
}.

Section Ranges.
(** [get-ip-range], on a string or on [null]/[undefined] ([None]): the
    addresses of the range, or [None] when it throws. *)
Variable getIPRange : option string -> option (list string).

(** [Object.values(os.networkInterfaces())]. *)
Variable networkInterfaces : list (list NetworkInterfaceInfo).

(** [ipRange(addr)]: the exception is swallowed. *)
Definition ipRange (addr : option string) : list string :=
  match getIPRange addr with
  | Some ips => ips
  | None => []
  end.

(** [address.family === 'IPv4' && !address.internal]. *)
Definition external_IPv4 (address : NetworkInterfaceInfo) : bool :=
  String.eqb (family address) "IPv4" && negb (internal address).

(** [getAllNetworks()]: what the generator yields, in order. *)
Definition getAllNetworks : list (option string) :=
  flat_map (fun addresses => map cidr (filter external_IPv4 addresses))
           networkInterfaces.

(** [makeIPSet(cidr, ...cidrs)]. *)
Definition makeIPSet (cidr : option string) (cidrs : list (option string)) : JSSet.t :=
  JSSet.of_array (ipRange cidr ++ concat (map ipRange cidrs)).

(** [makeIPSetWithDefault(cidr, ...cidrs)]; spreading no network at all
    leaves [cidr] undefined. *)
Definition makeIPSetWithDefault (cidr : option string) (cidrs : list (option string)) : JSSet.t :=
  match cidr with
  | Some _ => makeIPSet cidr cidrs
  | None =>
      match getAllNetworks with
      | [] => makeIPSet None []
      | network :: networks => makeIPSet network networks
      end
  end.

End Ranges.

(** ** [index.js] *)

Section Index.

(** The built-in [Number] conversion, on [undefined] ([None]) and on strings. *)
Variable Number : option string -> num.

(** [process.env.LOCAL_DEVICES_MAX_CONCURRENT]. *)
Variable LOCAL_DEVICES_MAX_CONCURRENT : option string.

Definition MAX_CONCURRENT : num :=
  Num.or (Number LOCAL_DEVICES_MAX_CONCURRENT) (of_Z 32).

(** [parseIPv4 = (ip) => ip.split('.').map(Number)]. *)
Definition parseIPv4 (ip : string) : list num :=
  map (fun s => Number (Some s)) (Str.split "."%char ip).

End Index.

(** ** [scan] *)

Module Scan.

(** Events seen by a scan session: the consumer asks for the next device, the
    probe in slot [k] of the scheduler settles, [ipLookup] answers. *)
Inductive event : Type :=
| Next
| Settle (k : nat)
| Lookup (r : reply).

Inductive phase : Type :=
| Fresh                                          (* created, body not entered *)
| AwaitHost                                      (* waiting for the scheduler *)
| AwaitLookup (host : string)                    (* in [await ipLookup(host)] *)
| Yielded (device : Device) (rest : list Device) (* stopped at [yield device] *)
| Done
| Threw.

Section Session.
(** The module constant of [index.js]. *)
Variable MAX_CONCURRENT : num.

Record state : Type := State {
  ipSet : JSSet.t;
  hosts : @MapConcurrently.state string string;  (* the scheduler over [ping] *)
  at_ : phase;
  emitted : list Device;                         (* devices yielded so far *)
  lookups : list (string * reply)                (* [ipLookup] calls answered *)
}.

Definition scan (ipSet : JSSet.t) : state :=
  {| ipSet := ipSet;
     hosts := MapConcurrently.mapConcurrently ipSet MAX_CONCURRENT;
     at_ := Fresh; emitted := []; lookups := [] |}.

(** The scheduler has been advanced to [h]: a host it yields is looked up. *)
Definition with_hosts (h : @MapConcurrently.state string string) (s : state) : option state :=
  match MapConcurrently.at_ h with
  | Gen.Suspended _ host =>
      Some {| ipSet := ipSet s; hosts := h; at_ := AwaitLookup host;
              emitted := emitted s; lookups := lookups s |}
  | Gen.Awaiting =>
      Some {| ipSet := ipSet s; hosts := h; at_ := AwaitHost;
              emitted := emitted s; lookups := lookups s |}
  | Gen.Done =>
      Some {| ipSet := ipSet s; hosts := h; at_ := Done;
              emitted := emitted s; lookups := lookups s |}
  | Gen.Threw =>
      Some {| ipSet := ipSet s; hosts := h; at_ := Threw;
              emitted := emitted s; lookups := lookups s |}
  | Gen.Fresh => None
  end.

(** The head of the [for await]: the scheduler is asked for its next host. *)
Definition next_host (s : state) : option state :=
  match MapConcurrently.step Ping.worker Gen.Next (hosts s) with
  | Some h => with_hosts h s
  | None => None
  end.

(** The inner [for] over the entries of one lookup, up to the next [yield]
    or, when the entries run out, back to the head of the [for await]. *)
Fixpoint entries_loop (devices : list Device) (s : state) : option state :=
  match devices with
  | [] => next_host s
  | device :: rest =>
      if JSSet.has (ipSet s) (ip device) then
        Some {| ipSet := ipSet s; hosts := hosts s;
                at_ := Yielded device rest;
                emitted := emitted s ++ [device]; lookups := lookups s |}
      else entries_loop rest s
  end.

(** One event.  A probe that settles while the session waits for the
    scheduler hands its host over; at any other time it is only recorded in
    the window. *)
Definition step (e : event) (s : state) : option state :=
  match e with
  | Next =>
      match at_ s with
      | Fresh => next_host s
      | Yielded _ rest => entries_loop rest s
      | Done | Threw => Some s
      | AwaitHost | AwaitLookup _ => None
      end
  | Settle k =>
      match MapConcurrently.step Ping.worker (Gen.Settle k) (hosts s) with
      | Some h =>
          match at_ s with
          | AwaitHost => with_hosts h s
          | _ =>
              Some {| ipSet := ipSet s; hosts := h; at_ := at_ s;
                      emitted := emitted s; lookups := lookups s |}
          end
      | None => None
      end
  | Lookup r =>
      match at_ s with
      | AwaitLookup host =>
          let s' := {| ipSet := ipSet s; hosts := hosts s; at_ := at_ s;
                       emitted := emitted s;
                       lookups := lookups s ++ [(host, r)] |} in
          match r with
          | Failed =>
              Some {| ipSet := ipSet s'; hosts := hosts s'; at_ := Threw;
                      emitted := emitted s'; lookups := lookups s' |}
          | _ => entries_loop (or_empty r) s'
          end
      | _ => None
      end
  end.

(** The addresses [ping] was called on, in order. *)
Definition probes (s : state) : list string := MapConcurrently.calls (hosts s).

End Session.
End Scan.

(** ** [findLocalDevice] *)

Module FindLocalDevice.

(** Events seen by one call: [arpTable] answers, the [for await] asks the
    scan session for its next device, a probe settles, [ipLookup] answers. *)
Inductive event : Type :=
| Table (r : reply)
| Next
| Settle (k : nat)
| Lookup (r : reply).

Inductive phase : Type :=
| AwaitTable                          (* in [await arpTable()] *)
| Scanning                            (* in the [for await] over [scan(ipSet)] *)
| Returned (device : option Device)   (* [None] is [undefined] *)
| Threw.

(** [toHex(device.mac) === macHex || device.ip === macOrIP]. *)
Definition matches (macOrIP : string) (device : Device) : bool :=
  String.eqb (toHex (mac device)) (toHex macOrIP) || String.eqb (ip device) macOrIP.

(** [({ ip }) => ipSet.has(ip)]. *)
Definition in_set (ipSet : JSSet.t) (device : Device) : bool :=
  JSSet.has ipSet (ip device).

Section Search.
Variable MAX_CONCURRENT : num.

Record state : Type := State {
  macOrIP : string;
  ipSet : JSSet.t;
  at_ : phase;
  session : option Scan.state     (* the scan session, once it is created *)
}.

Definition findLocalDevice (macOrIP : string) (ipSet : JSSet.t) : state :=
  {| macOrIP := macOrIP; ipSet := ipSet; at_ := AwaitTable; session := None |}.

(** The body of the [for await], run on what the session has become. *)
Definition observe (sc : Scan.state) (s : state) : state :=
  match Scan.at_ sc with
  | Scan.Yielded device _ =>
      if matches (macOrIP s) device then
        {| macOrIP := macOrIP s; ipSet := ipSet s;
           at_ := Returned (Some device); session := Some sc |}
      else
        {| macOrIP := macOrIP s; ipSet := ipSet s;
           at_ := Scanning; session := Some sc |}
  | Scan.Done =>
      {| macOrIP := macOrIP s; ipSet := ipSet s;
         at_ := Returned None; session := Some sc |}
  | Scan.Threw =>
      {| macOrIP := macOrIP s; ipSet := ipSet s;
         at_ := Threw; session := Some sc |}
  | _ =>
      {| macOrIP := macOrIP s; ipSet := ipSet s;
         at_ := Scanning; session := Some sc |}
  end.

(** An event of the scan session, followed by the body of the [for await]. *)
Definition forward (e : Scan.event) (s : state) : option state :=
  match session s with
  | Some sc =>
      match Scan.step e sc with
      | Some sc' => Some (observe sc' s)
      | None => None
      end
  | None => None
  end.

Definition step (e : event) (s : state) : option state :=
  match at_ s with
  | AwaitTable =>
      match e with
      | Table (Entries table) =>
          match find (matches (macOrIP s)) (filter (in_set (ipSet s)) table) with
          | Some device =>
              Some {| macOrIP := macOrIP s; ipSet := ipSet s;
                      at_ := Returned (Some device); session := None |}
          | None =>
              Some {| macOrIP := macOrIP s; ipSet := ipSet s;
                      at_ := Scanning;
                      session := Some (Scan.scan MAX_CONCURRENT (ipSet s)) |}
          end
      | Table _ =>
          Some {| macOrIP := macOrIP s; ipSet := ipSet s;
                  at_ := Threw; session := None |}
      | _ => None
      end
  | Scanning =>
      match e with
      | Next => forward Scan.Next s
      | Settle k => forward (Scan.Settle k) s
      | Lookup r => forward (Scan.Lookup r) s
      | Table _ => None
      end
  | Returned _ | Threw =>
      (* the call is over: probes still in flight settle unobserved *)
      match e with
      | Settle _ => Some s
      | _ => None
      end
  end.

(** The addresses [ping] was called on during the call. *)
Definition probes (s : state) : list string :=
  match session s with
  | Some sc => Scan.probes sc
  | None => []
  end.

End Search.
End FindLocalDevice.

(** ** [getLocalDeviceList] *)

Module GetLocalDeviceList.

Inductive event : Type :=
| Next
| Settle (k : nat)
| Table (r : reply).

Inductive phase : Type :=
| Draining                            (* in the [for await] over the scheduler *)
| AwaitTable                          (* in [await arpTable()] *)
| Returned (devices : list Device)
| Threw.

Section Listing.
Variable Number : option string -> num.
Variable MAX_CONCURRENT : num.

Record state : Type := State {
  ipSet : JSSet.t;
  hosts : @MapConcurrently.state string string;
  at_ : phase
}.

Definition getLocalDeviceList (ipSet : JSSet.t) : state :=
  {| ipSet := ipSet;
     hosts := MapConcurrently.mapConcurrently ipSet MAX_CONCURRENT;
     at_ := Draining |}.

(** [(a, b) => arrayCompare(parseIPv4(a.ip), parseIPv4(b.ip))]. *)
Definition by_ip (a b : Device) : num :=
  arrayCompare (parseIPv4 Number (ip a)) (parseIPv4 Number (ip b)).

(** [table.filter(({ ip }) => ipSet.has(ip)).sort(...)]. *)
Definition listing (ipSet : JSSet.t) (table : list Device) : list Device :=
  sort by_ip (filter (FindLocalDevice.in_set ipSet) table).

(** The empty body of the [for await], run on what the scheduler has become. *)
Definition observe (h : @MapConcurrently.state string string) (s : state) : state :=
  match MapConcurrently.at_ h with
  | Gen.Done => {| ipSet := ipSet s; hosts := h; at_ := AwaitTable |}
  | Gen.Threw => {| ipSet := ipSet s; hosts := h; at_ := Threw |}
  | _ => {| ipSet := ipSet s; hosts := h; at_ := Draining |}
  end.

Definition step (e : event) (s : state) : option state :=
  match at_ s with
  | Draining =>
      match e with
      | Next =>
          match MapConcurrently.step Ping.worker Gen.Next (hosts s) with
          | Some h => Some (observe h s)
          | None => None
          end
      | Settle k =>
          match MapConcurrently.step Ping.worker (Gen.Settle k) (hosts s) with
          | Some h => Some (observe h s)
          | None => None
          end
      | Table _ => None
      end
  | AwaitTable =>
      match e with
      | Table (Entries table) =>
          Some {| ipSet := ipSet s; hosts := hosts s;
                  at_ := Returned (listing (ipSet s) table) |}
      | Table _ =>
          Some {| ipSet := ipSet s; hosts := hosts s; at_ := Threw |}
      | _ => None
      end
  | Returned _ | Threw => None
  end.

End Listing.
End GetLocalDeviceList.

(** ** [findLocalDevices] *)

Definition findLocalDevices
  (getIPRange : option string -> option (list string))
  (networkInterfaces : list (list NetworkInterfaceInfo))
  (MAX_CONCURRENT : num)
  (address : option string) (addresses : list (option string)) : Scan.state :=
  Scan.scan MAX_CONCURRENT
    (makeIPSetWithDefault getIPRange networkInterfaces address addresses).

(** ** The earlier [util.js] *)

Module Util0.

(** Membership in the character class [[:-]]. *)
Definition colon_or_dash (c : ascii) : bool :=
  Ascii.eqb c ":"%char || Ascii.eqb c "-"%char.

(** [toHex = mac => mac.toLowerCase().replace(/[:-]/g, '')]. *)
Definition toHex (mac : string) : string :=
  Str.remove_unless (fun c => negb (colon_or_dash c)) (Str.toLowerCase mac).

(** [arrayCompare(as, bs)], without [Math.sign]. *)
Fixpoint arrayCompare (as_ bs : list num) {struct as_} : num :=
  let res := Num.sub (at0 as_) (at0 bs) in
  match as_ with
  | [] => res
  | _ :: as' =>
      if Num.is0 res && (1 <? length as_) then arrayCompare as' (tl bs)
      else res
  end.

End Util0.

(** ** Notions of the specification *)

(** The order of the specification: octets compared as numbers, the first
    difference deciding. *)
Fixpoint octets_le (a b : list Z) : Prop :=
  match a, b with
  | [], _ => True
  | _ :: _, [] => False
  | x :: a', y :: b' => (x < y)%Z \/ (x = y /\ octets_le a' b')
  end.

(** The normalisation of the specification: every character that is not a
    hexadecimal digit is removed, and what is left is lower-cased. *)
Definition is_hex_digit (c : ascii) : bool :=
  let n := nat_of_ascii c in
  ((48 <=? n) && (n <=? 57)) || ((65 <=? n) && (n <=? 70)) ||
  ((97 <=? n) && (n <=? 102)).

Definition normalized (mac : string) : string :=
  Str.toLowerCase (Str.remove_unless is_hex_digit mac).

(** ** An instance of [Number]

    The built-in conversion on [undefined], on the empty string and on
    decimal integer literals with an optional minus sign, where it is the
    value written.  It is used to run the code on concrete settings; on
    every other string it answers [NaN], which the built-in does only for
    part of them, and no general statement below depends on it. *)

Module NumberModel.

Definition digit (c : ascii) : option Z :=
  let n := nat_of_ascii c in
  if (48 <=? n) && (n <=? 57) then Some (Z.of_nat (n - 48)) else None.

Fixpoint digits (acc : Z) (s : string) : option Z :=
  match s with
  | EmptyString => Some acc
  | String c s' =>
      match digit c with
      | Some d => digits (10 * acc + d) s'
      | None => None
      end
  end.

Definition decimal (s : string) : option Z :=
  match s with
  | EmptyString => None
  | _ => digits 0 s
  end.

Definition Number (v : option string) : num :=
  match v with
  | None => NaN
  | Some EmptyString => of_Z 0
  | Some (String "-"%char s) =>
      match decimal s with
      | Some z => of_Z (- z)
      | None => NaN
      end
  | Some s =>
      match decimal s with
      | Some z => of_Z z
      | None => NaN
      end
  end.

End NumberModel.

(** * Properties *)

(** ** Facts about [Map] *)

Module JSMapFacts.
Import JSMap.
Section Facts.
Context {V : Type}.
Implicit Types (m : JSMap.t V) (k : nat) (v : V).

(** Keys are unique in a well-formed map. *)
Definition wf m : Prop := NoDup (map fst (entries m)).

Lemma entries_app m m' : entries (m ++ m') = entries m ++ entries m'.
Proof.
  induction m as [|[kv|] m IH]; simpl; [reflexivity| |exact IH].
  now rewrite IH.
Qed.

Lemma entries_delete m k :
  entries (delete m k) = filter (fun kv => negb (fst kv =? k)) (entries m).
Proof.
  induction m as [|[[k' v]|] m IH]; simpl; [reflexivity| |exact IH].
  destruct (k' =? k); simpl; now rewrite IH.
Qed.

Lemma entries_replace m k v :
  entries (replace m k v) =
  map (fun kv => if fst kv =? k then (k, v) else kv) (entries m).
Proof.
  induction m as [|[[k' v']|] m IH]; simpl; [reflexivity| |exact IH].
  destruct (k' =? k); simpl; now rewrite IH.
Qed.

Lemma has_entries m k :
  has m k = existsb (fun kv => fst kv =? k) (entries m).
Proof.
  induction m as [|[[k' v']|] m IH]; simpl; [reflexivity| |exact IH].
  now rewrite <- IH.
Qed.

Lemma has_false_not_in m k :
  has m k = false -> ~ In k (map fst (entries m)).
Proof.
  rewrite has_entries. intros H Hin.
  apply in_map_iff in Hin as [[k' v] [Hk Hin]]; simpl in Hk; subst k'.
  assert (existsb (fun kv => fst kv =? k) (entries m) = true) as E.
  { apply existsb_exists. exists (k, v); split; [exact Hin|]. apply Nat.eqb_refl. }
  congruence.
Qed.

Lemma not_in_has_false m k :
  ~ In k (map fst (entries m)) -> has m k = false.
Proof.
  rewrite has_entries. intros H.
  destruct (existsb _ _) eqn:E; [|reflexivity].
  apply existsb_exists in E as [[k' v] [Hin Hk]]; simpl in Hk.
  apply Nat.eqb_eq in Hk; subst k'. exfalso; apply H.
  apply in_map_iff. now exists (k, v).
Qed.

Lemma get_in m k v : get m k = Some v -> In (k, v) (entries m).
Proof.
  induction m as [|[[k' v']|] m IH]; simpl; [discriminate| |exact IH].
  destruct (k' =? k) eqn:E.
  - apply Nat.eqb_eq in E; subst k'. intros H; inversion H; now left.
  - intros H; right; now apply IH.
Qed.

Lemma get_has m k v : get m k = Some v -> has m k = true.
Proof.
  intros H. apply get_in in H. rewrite has_entries.
  apply existsb_exists. exists (k, v); split; [exact H|apply Nat.eqb_refl].
Qed.

Lemma replace_absent m k v : has m k = false -> replace m k v = m.
Proof.
  unfold replace, has.
  induction m as [|e m IH]; simpl; [reflexivity|].
  intros H. apply orb_false_iff in H as [He Hm].
  rewrite He. f_equal. now apply IH.
Qed.

Lemma keys_replace m k v :
  map fst (entries (replace m k v)) = map fst (entries m).
Proof.
  rewrite entries_replace, map_map. apply map_ext_in.
  intros [k' v'] _; simpl. destruct (k' =? k) eqn:E; [|reflexivity].
  apply Nat.eqb_eq in E; now subst.
Qed.

Lemma size_replace m k v : size (replace m k v) = size m.
Proof.
  unfold size. now rewrite entries_replace, length_map.
Qed.

Lemma size_delete_le m k : size (delete m k) <= size m.
Proof.
  unfold size. rewrite entries_delete. apply filter_length_le.
Qed.

(** Deleting a key that is present frees exactly one place. *)
Lemma size_delete m k :
  wf m -> has m k = true -> S (size (delete m k)) = size m.
Proof.
  unfold wf, size. rewrite has_entries, entries_delete.
  induction (entries m) as [|[k' v'] l IH]; simpl; [discriminate|].
  intros Hnd H. inversion Hnd as [|? ? Hnotin Hnd']; subst.
  destruct (k' =? k) eqn:E; simpl.
  - apply Nat.eqb_eq in E; subst k'. f_equal.
    clear IH H Hnd Hnd'. induction l as [|[k2 v2] l IH]; simpl; [reflexivity|].
    destruct (k2 =? k) eqn:E2; simpl.
    + apply Nat.eqb_eq in E2; subst. exfalso; apply Hnotin; now left.
    + f_equal. apply IH. intros Hin; apply Hnotin; now right.
  - f_equal. now apply IH.
Qed.

Lemma has_delete m k : has (delete m k) k = false.
Proof.
  rewrite has_entries, entries_delete.
  induction (entries m) as [|[k' v'] l IH]; simpl; [reflexivity|].
  destruct (k' =? k) eqn:E; simpl; [exact IH|]. now rewrite E.
Qed.

Lemma wf_delete m k : wf m -> wf (delete m k).
Proof.
  unfold wf. rewrite entries_delete.
  induction (entries m) as [|[k' v'] l IH]; simpl; [easy|].
  intros Hnd; inversion Hnd as [|? ? Hnotin Hnd']; subst.
  destruct (k' =? k); simpl; [now apply IH|].
  constructor; [|now apply IH].
  intros Hin; apply Hnotin.
  apply in_map_iff in Hin as [kv [Hk Hin]]. apply filter_In in Hin as [Hin _].
  apply in_map_iff. now exists kv.
Qed.

Lemma wf_replace m k v : wf m -> wf (replace m k v).
Proof. unfold wf. now rewrite keys_replace. Qed.

Lemma entries_set_absent m k v :
  has m k = false -> entries (set m k v) = entries m ++ [(k, v)].
Proof.
  intros H. unfold set. rewrite H. now rewrite entries_app.
Qed.

Lemma wf_set m k v : wf m -> wf (set m k v).
Proof.
  intros Hwf. unfold set. destruct (has m k) eqn:E.
  - now apply wf_replace.
  - unfold wf. rewrite entries_app, map_app; simpl.
    apply NoDup_app; [exact Hwf | repeat constructor; easy |].
    intros a Ha [Hk|[]]; subst a. now apply has_false_not_in in E.
Qed.

Lemma size_set_le m k v : size (set m k v) <= S (size m).
Proof.
  unfold set. destruct (has m k).
  - rewrite size_replace; lia.
  - unfold size. rewrite entries_app, length_app; simpl; lia.
Qed.

Lemma entries_of_array_from i (l : list V) :
  entries (of_array_from i l) = combine (seq i (length l)) l.
Proof.
  revert i; induction l as [|v l IH]; intros i; simpl; [reflexivity|].
  now rewrite IH.
Qed.

Lemma size_of_array (l : list V) : size (of_array l) = length l.
Proof.
  unfold size, of_array. rewrite entries_of_array_from, length_combine, length_seq.
  apply Nat.min_id.
Qed.

Lemma wf_of_array (l : list V) : wf (of_array l).
Proof.
  unfold wf, of_array. rewrite entries_of_array_from.
  assert (forall i, map fst (combine (seq i (length l)) l) = seq i (length l)) as E.
  { induction l as [|v l IH]; intros i; simpl; [reflexivity|]. now rewrite IH. }
  rewrite E. apply seq_NoDup.
Qed.

End Facts.
End JSMapFacts.

(** ** The window of [mapConcurrently] *)

Module MapConcurrentlyFacts.
Import Gen JSMap JSMapFacts MapConcurrently.

Section TakeFromIter.
Context {X : Type}.

Lemma takeFromIter_split (xs : list X) (n : num) :
  fst (takeFromIter xs n) ++ snd (takeFromIter xs n) = xs.
Proof.
  revert n; induction xs as [|x xs IH]; intros n; simpl.
  - now destruct (gt0 n).
  - destruct (gt0 n); [|reflexivity].
    specialize (IH (Num.pred n)).
    destruct (takeFromIter xs (Num.pred n)) as [res it']; simpl in *.
    now rewrite IH.
Qed.

(** The loop [while (n-- > 0 && ...)] runs at most [k] times when [n <= k]. *)
Lemma takeFromIter_Fin_le (xs : list X) (q : Q) (k : nat) :
  (q <= inject_Z (Z.of_nat k))%Q ->
  length (fst (takeFromIter xs (Fin q))) <= k.
Proof.
  revert q k; induction xs as [|x xs IH]; intros q k Hq; simpl.
  - destruct (0 <? Qnum q)%Z; simpl; lia.
  - destruct (0 <? Qnum q)%Z eqn:E; simpl; [|lia].
    apply Z.ltb_lt in E.
    assert (0 < q)%Q as Hpos by (unfold Qlt; simpl; lia).
    destruct k as [|k].
    { exfalso. change (inject_Z (Z.of_nat 0)) with 0%Q in Hq. lra. }
    assert (q - 1 <= inject_Z (Z.of_nat k))%Q as Hq'.
    { rewrite Nat2Z.inj_succ in Hq. unfold Z.succ in Hq.
      rewrite inject_Z_plus in Hq. change (inject_Z 1) with 1%Q in Hq. lra. }
    specialize (IH (q - 1)%Q k Hq').
    change (Num.pred (Fin q)) with (Fin (q - 1)).
    destruct (takeFromIter xs (Fin (q - 1))) as [res it']; simpl in *.
    now apply le_n_S.
Qed.

Lemma takeFromIter_le_input (xs : list X) (n : num) :
  length (fst (takeFromIter xs n)) <= length xs.
Proof.
  rewrite <- (takeFromIter_split xs n) at 2. rewrite length_app. lia.
Qed.

(** With a positive limit the first batch is empty only for an empty input. *)
Lemma takeFromIter_gt0 (xs : list X) (n : num) :
  gt0 n = true -> fst (takeFromIter xs n) = [] -> xs = [].
Proof.
  destruct xs as [|x xs]; [reflexivity|]. simpl. intros ->.
  now destruct (takeFromIter xs (Num.pred n)).
Qed.

(** A limit that is not positive draws nothing. *)
Lemma takeFromIter_not_gt0 (xs : list X) (n : num) :
  gt0 n = false -> takeFromIter xs n = ([], xs).
Proof. destruct xs; simpl; now intros ->. Qed.

End TakeFromIter.

Section Window.
Context {X Y : Type}.
Variable f : X -> outcome Y.

Implicit Types (s : @state X Y) (m : JSMap.t (promise (nat * Y))).

Definition unsettled (kv : nat * promise (nat * Y)) : bool :=
  negb (settled (snd kv)).

(** Promises of the window that have not settled. *)
Definition pending m : nat :=
  length (filter unsettled (entries m)).

(** A place of the window is kept free while the generator is stopped at
    its [yield]. *)
Definition slot (a : mode Y) : nat :=
  match a with Suspended _ _ => 1 | _ => 0 end.

(** Each promise carries the key it is stored under. *)
Definition tagged m : Prop :=
  forall k p i y,
    In (k, p) (entries m) -> eventual p = Resolved (i, y) -> i = k.

Record inv0 (B : nat) s : Prop := {
  inv_wf : wf (promises s);
  inv_tagged : tagged (promises s);
  inv_calls : length (calls s) = settles s + pending (promises s);
  inv_limit : forall xs : list X, length (fst (takeFromIter xs (n s))) <= B
}.

Record inv (B : nat) s : Prop := {
  inv_base :> inv0 B s;
  inv_room : size (promises s) + slot (at_ s) <= B;
  inv_vacant : forall i v, at_ s = Suspended i v -> has (promises s) i = false;
  inv_fresh : at_ s = Fresh -> promises s = [] /\ calls s = [] /\ settles s = 0
}.

Lemma pending_le_size m : pending m <= size m.
Proof. apply filter_length_le. Qed.

Lemma wf_in_unique m k p p' :
  wf m -> In (k, p) (entries m) -> In (k, p') (entries m) -> p = p'.
Proof.
  unfold wf. induction (entries m) as [|[k' v'] l IH]; simpl; [easy|].
  intros Hnd; inversion Hnd as [|? ? Hnotin Hnd']; subst.
  intros [E|Hin] [E'|Hin'].
  - congruence.
  - inversion E; subst. exfalso; apply Hnotin.
    apply in_map_iff. now exists (k, p').
  - inversion E'; subst. exfalso; apply Hnotin.
    apply in_map_iff. now exists (k, p).
  - now apply IH.
Qed.

Lemma race_some m o :
  race m = Some o ->
  exists k p, In (k, p) (entries m) /\ settled p = true /\ eventual p = o.
Proof.
  unfold race, values.
  destruct (find _ _) as [p|] eqn:E; [|discriminate].
  intros H; inversion H; subst. apply find_some in E as [Hin Hs].
  apply in_map_iff in Hin as [[k p'] [Hp Hin]]; simpl in Hp; subst p'.
  now exists k, p.
Qed.

Lemma race_none m :
  race m = None -> pending m = size m.
Proof.
  unfold race, values, pending, size.
  destruct (find _ _) as [p|] eqn:E; [discriminate|]. intros _.
  assert (forall kv, In kv (entries m) -> unsettled kv = true) as H.
  { intros kv Hin. unfold unsettled.
    rewrite (find_none _ _ E (snd kv)); [reflexivity|]. now apply in_map. }
  clear E. revert H. induction (entries m) as [|kv l IH]; intros H; simpl; [reflexivity|].
  rewrite (H kv) by now left. simpl. f_equal. apply IH.
  intros kv' Hin; apply H; now right.
Qed.

Lemma pending_delete_settled m k p :
  wf m -> In (k, p) (entries m) -> settled p = true ->
  pending (delete m k) = pending m.
Proof.
  intros Hwf Hin Hs. unfold pending. rewrite entries_delete.
  assert (forall kv, In kv (entries m) -> fst kv = k -> unsettled kv = false) as H.
  { intros [k' p'] Hin' Hk; simpl in Hk; subst k'.
    rewrite (wf_in_unique m k p' p Hwf Hin' Hin). unfold unsettled; simpl. now rewrite Hs. }
  clear Hin Hwf. induction (entries m) as [|[k' p'] l IH]; simpl; [reflexivity|].
  destruct (k' =? k) eqn:E; simpl.
  - apply Nat.eqb_eq in E; subst k'.
    rewrite (H (k, p')) by (now left || reflexivity).
    apply IH. intros kv Hin'; apply H; now right.
  - destruct (unsettled (k', p')); simpl; [f_equal|];
      apply IH; intros kv Hin'; apply H; now right.
Qed.

Lemma pending_settle m k p :
  wf m -> get m k = Some p -> settled p = false ->
  S (pending (replace m k (settle p))) = pending m.
Proof.
  intros Hwf Hget Hs. apply get_in in Hget. revert Hwf Hget.
  unfold pending, wf. rewrite entries_replace.
  induction (entries m) as [|[k' p'] l IH]; simpl; [easy|].
  intros Hnd; inversion Hnd as [|? ? Hnotin Hnd']; subst.
  intros [E|Hin].
  - inversion E; subst. rewrite Nat.eqb_refl.
    change (unsettled (k, settle p)) with false.
    change (unsettled (k, p)) with (negb (settled p)). rewrite Hs; simpl.
    f_equal. f_equal. f_equal.
    rewrite <- (map_id l) at 2. apply map_ext_in.
    intros [k2 p2] Hin2; simpl. destruct (k2 =? k) eqn:E2; [|reflexivity].
    apply Nat.eqb_eq in E2; subst. exfalso; apply Hnotin.
    apply in_map_iff. now exists (k, p2).
  - destruct (k' =? k) eqn:E.
    + apply Nat.eqb_eq in E; subst. exfalso; apply Hnotin.
      apply in_map_iff. now exists (k, p).
    + destruct (unsettled (k', p')); simpl; [f_equal|]; now apply IH.
Qed.

Lemma tagged_delete m k : tagged m -> tagged (delete m k).
Proof.
  intros H k' p i y Hin. apply (H k' p i y).
  rewrite entries_delete in Hin. now apply filter_In in Hin.
Qed.

Lemma tagged_settle m k p :
  get m k = Some p -> tagged m -> tagged (replace m k (settle p)).
Proof.
  intros Hget H k' p' i y Hin He. rewrite entries_replace in Hin.
  apply in_map_iff in Hin as [[k2 p2] [E Hin]]; simpl in E.
  destruct (k2 =? k) eqn:E2.
  - inversion E; subst k' p'. simpl in He. apply get_in in Hget.
    exact (H k p i y Hget He).
  - inversion E; subst k2 p2. exact (H k' p' i y Hin He).
Qed.

Lemma tagged_task m i x : has m i = false -> tagged m -> tagged (set m i (task f i x)).
Proof.
  intros Habs H k p j y Hin He. rewrite entries_set_absent in Hin by exact Habs.
  apply in_app_iff in Hin as [Hin|[E|[]]].
  - now apply (H k p j y).
  - inversion E; subst. unfold task, pending_promise, then_, index in He; simpl in He.
    destruct (f x); now inversion He.
Qed.

Lemma in_has m k p : In (k, p) (entries m) -> has m k = true.
Proof.
  intros Hin. rewrite has_entries. apply existsb_exists.
  exists (k, p); split; [exact Hin | apply Nat.eqb_refl].
Qed.

Lemma first_batch (batch : list X) i k p :
  In (k, p) (entries (of_array_from i (tasks_from f i batch))) ->
  exists x, In x batch /\ p = task f k x.
Proof.
  revert i; induction batch as [|x batch IH]; intros i; simpl; [easy|].
  intros [E|Hin].
  - inversion E; subst. exists x; now split; [left|].
  - destruct (IH _ Hin) as (x' & Hx & Hp). exists x'; now split; [right|].
Qed.

Lemma length_tasks_from (batch : list X) i :
  length (tasks_from f i batch) = length batch.
Proof.
  revert i; induction batch as [|x batch IH]; intros i; simpl; [reflexivity|].
  now rewrite IH.
Qed.

Lemma pending_first_batch (batch : list X) :
  pending (of_array (tasks_from f 0 batch)) = length batch.
Proof.
  rewrite <- (length_tasks_from batch 0), <- size_of_array.
  unfold pending, size, of_array.
  assert (forall kv, In kv (entries (of_array_from 0 (tasks_from f 0 batch))) ->
                     unsettled kv = true) as H.
  { intros [k p] Hin. apply first_batch in Hin as (x & _ & ->). reflexivity. }
  revert H. induction (entries _) as [|kv l IH]; intros H; simpl; [reflexivity|].
  rewrite (H kv) by now left. simpl. f_equal. apply IH.
  intros kv' Hin; apply H; now right.
Qed.

Lemma tagged_first_batch (batch : list X) :
  tagged (of_array (tasks_from f 0 batch)).
Proof.
  intros k p i y Hin He. apply first_batch in Hin as (x & _ & ->).
  unfold task, pending_promise, then_, index in He; simpl in He.
  destruct (f x); now inversion He.
Qed.

(** *** The invariant is kept by every part of the body *)

Lemma race_step_inv B s :
  inv0 B s -> size (promises s) <= B -> inv B (race_step s).
Proof.
  intros [Hwf Htag Hcalls Hlim] Hsize. unfold race_step.
  destruct (race (promises s)) as [[[i value]|]|] eqn:E.
  - apply race_some in E as (k & p & Hin & Hs & He).
    assert (i = k) by (eapply Htag; eauto). subst i.
    pose proof (in_has _ _ _ Hin) as Hhas.
    constructor; [constructor|..]; simpl.
    + now apply wf_delete.
    + now apply tagged_delete.
    + now rewrite (pending_delete_settled _ _ _ Hwf Hin Hs).
    + exact Hlim.
    + pose proof (size_delete _ _ Hwf Hhas). lia.
    + intros i v H; inversion H; subst. apply has_delete.
    + discriminate.
  - constructor; [constructor|..]; simpl; auto; try lia; discriminate.
  - constructor; [constructor|..]; simpl; auto; try lia; discriminate.
Qed.

Lemma loop_inv B s :
  inv0 B s -> size (promises s) <= B -> inv B (loop s).
Proof.
  intros H Hsize. unfold loop.
  destruct (size (promises s) =? 0); [|now apply race_step_inv].
  destruct H. constructor; [constructor|..]; simpl; auto; try lia; discriminate.
Qed.

Lemma start_inv B s :
  inv B s -> at_ s = Fresh ->
  inv0 B (start f s) /\ size (promises (start f s)) <= B.
Proof.
  intros [[Hwf Htag Hcalls Hlim] Hroom Hvac Hfresh] Hat.
  destruct (Hfresh Hat) as (Hp & Hc & Hs). unfold start.
  pose proof (Hlim (it s)) as Hb.
  destruct (takeFromIter (it s) (n s)) as [batch it']; simpl in *.
  split; [constructor|]; simpl.
  - apply wf_of_array.
  - apply tagged_first_batch.
  - rewrite Hc, Hs, pending_first_batch. reflexivity.
  - exact Hlim.
  - now rewrite size_of_array, length_tasks_from.
Qed.

Lemma refill_inv B s i v :
  inv B s -> at_ s = Suspended i v ->
  inv0 B (refill f i s) /\ size (promises (refill f i s)) <= B.
Proof.
  intros [[Hwf Htag Hcalls Hlim] Hroom Hvac Hfresh] Hat.
  pose proof (Hvac _ _ Hat) as Habs. rewrite Hat in Hroom; simpl in Hroom.
  unfold refill. destruct (it s) as [|x it'].
  - split; [constructor; assumption | lia].
  - split; [constructor|]; simpl.
    + now apply wf_set.
    + now apply tagged_task.
    + unfold pending. rewrite entries_set_absent by exact Habs.
      rewrite filter_app, !length_app; simpl.
      unfold pending in Hcalls. lia.
    + exact Hlim.
    + pose proof (size_set_le (promises s) i (task f i x)). lia.
Qed.

Lemma mark_inv B s k p :
  inv B s -> JSMap.get (promises s) k = Some p -> settled p = false ->
  inv B (mark k s).
Proof.
  intros [[Hwf Htag Hcalls Hlim] Hroom Hvac Hfresh] Hget Hs.
  unfold mark. rewrite Hget.
  constructor; [constructor|..]; simpl.
  - now apply wf_replace.
  - now apply tagged_settle.
  - pose proof (pending_settle _ _ _ Hwf Hget Hs). lia.
  - exact Hlim.
  - now rewrite size_replace.
  - intros i v Hat. apply not_in_has_false. rewrite keys_replace.
    apply has_false_not_in. now apply (Hvac i v).
  - intros Hat. destruct (Hfresh Hat) as (Hp & _). rewrite Hp in Hget. discriminate.
Qed.

Lemma step_keeps_window B e s s' : inv B s -> step f e s = Some s' -> inv B s'.
Proof.
  intros Hinv. unfold step. destruct e as [|k].
  - destruct (at_ s) as [| |i v| |] eqn:Hat; intros H; inversion H; subst; auto.
    + destruct (start_inv _ _ Hinv Hat). now apply loop_inv.
    + destruct (refill_inv _ _ _ _ Hinv Hat). now apply loop_inv.
  - destruct (JSMap.get (promises s) k) as [p|] eqn:Hget; [|discriminate].
    destruct (settled p) eqn:Hs; [discriminate|].
    pose proof (mark_inv _ _ _ _ Hinv Hget Hs) as Hm.
    destruct (at_ s); intros H; inversion H; subst; auto.
    apply race_step_inv; [apply Hm|].
    pose proof (inv_room _ _ Hm). lia.
Qed.

Lemma mapConcurrently_inv B (xs : list X) (limit : num) :
  (forall xs' : list X, length (fst (takeFromIter xs' limit)) <= B) ->
  inv B (mapConcurrently xs limit).
Proof.
  intros H. constructor; [constructor|..]; simpl; auto; try lia;
    try discriminate; try easy. constructor.
Qed.

Lemma outstanding_le_size B s : inv B s -> outstanding s <= size (promises s).
Proof.
  intros H. unfold outstanding. rewrite (inv_calls _ _ H).
  pose proof (pending_le_size (promises s)). lia.
Qed.

(** The window never holds more than [B] promises when the first batch
    cannot: this covers limits that are not whole numbers, for which [B] is
    the limit rounded up. *)
Lemma window_bound B (xs : list X) (limit : num) tr s :
  (forall xs' : list X, length (fst (takeFromIter xs' limit)) <= B) ->
  run (step f) tr (mapConcurrently xs limit) = Some s ->
  outstanding s <= B /\ size (promises s) <= B.
Proof.
  intros Hlim Hrun.
  assert (inv B s) as Hinv.
  { eapply run_invariant; [|apply mapConcurrently_inv; exact Hlim|exact Hrun].
    intros e s1 s2; apply step_keeps_window. }
  pose proof (outstanding_le_size _ _ Hinv). pose proof (inv_room _ _ Hinv). lia.
Qed.

End Window.

(** *** What has been drawn from the input *)

Section Drawn.
Context {X Y : Type}.
Variable f : X -> outcome Y.
Implicit Types (s : @state X Y).

Lemma size_set_pos (m : JSMap.t (promise (nat * Y))) k v : 0 < size (set m k v).
Proof.
  unfold set. destruct (has m k) eqn:E.
  - rewrite size_replace. unfold size. rewrite has_entries in E.
    destruct (entries m); [discriminate | simpl; lia].
  - unfold size. rewrite entries_app, length_app; simpl; lia.
Qed.

Lemma race_step_fields s :
  it (race_step s) = it s /\ calls (race_step s) = calls s /\
  n (race_step s) = n s /\ at_ (race_step s) <> Fresh /\ at_ (race_step s) <> Done.
Proof.
  unfold race_step. destruct (race (promises s)) as [[[i v]|]|]; simpl;
    repeat split; discriminate.
Qed.

Lemma loop_fields s :
  it (loop s) = it s /\ calls (loop s) = calls s /\ n (loop s) = n s /\
  at_ (loop s) <> Fresh /\
  (at_ (loop s) = Done -> size (promises s) = 0).
Proof.
  unfold loop. destruct (size (promises s) =? 0) eqn:E.
  - simpl. repeat split; try discriminate. intros _. now apply Nat.eqb_eq.
  - destruct (race_step_fields s) as (H1 & H2 & H3 & H4 & H5).
    repeat split; auto. intros H; contradiction.
Qed.

Lemma mark_fields k s :
  it (mark k s) = it s /\ calls (mark k s) = calls s /\
  n (mark k s) = n s /\ at_ (mark k s) = at_ s.
Proof.
  unfold mark. destruct (JSMap.get (promises s) k); simpl; repeat split.
Qed.

(** The input is split between what the workers were called on and what
    the iterator still holds; when the generator is done under a positive
    limit, nothing is left in the iterator. *)
Record drawn (xs : list X) (limit : num) s : Prop := {
  drawn_n : n s = limit;
  drawn_fresh :
    at_ s = Fresh -> it s = xs /\ calls s = [] /\ promises s = [];
  drawn_split : at_ s <> Fresh -> calls s ++ it s = xs;
  drawn_done : at_ s = Done -> gt0 limit = true -> it s = []
}.

Lemma mapConcurrently_drawn (xs : list X) (limit : num) :
  drawn xs limit (mapConcurrently xs limit).
Proof. constructor; simpl; auto; try discriminate; try congruence. Qed.

Lemma step_drawn xs limit e s s' :
  drawn xs limit s -> step f e s = Some s' -> drawn xs limit s'.
Proof.
  intros [Hn Hfresh Hsplit Hdone]. unfold step. destruct e as [|k].
  - destruct (at_ s) as [| |i v| |] eqn:Hat; intros H; inversion H; subst; clear H.
    + destruct (Hfresh eq_refl) as (Hit & Hc & Hp).
      destruct (loop_fields (start f s)) as (L1 & L2 & L3 & L4 & L5).
      pose proof (takeFromIter_split (it s) (n s)) as Hsp.
      assert (it (start f s) = snd (takeFromIter (it s) (n s)) /\
              calls (start f s) = fst (takeFromIter (it s) (n s)) /\
              n (start f s) = n s /\
              size (promises (start f s)) = length (fst (takeFromIter (it s) (n s))))
        as (S1 & S2 & S3 & S4).
      { unfold start. destruct (takeFromIter (it s) (n s)) as [batch it']; simpl.
        rewrite Hc, size_of_array, length_tasks_from. auto. }
      constructor.
      * congruence.
      * intros E; contradiction.
      * intros _. rewrite L1, L2, S1, S2, Hsp. exact Hit.
      * intros E Hpos. rewrite L1, S1.
        apply L5 in E. rewrite S4 in E. apply length_zero_iff_nil in E.
        assert (it s = []) as Hnil.
        { eapply takeFromIter_gt0; [|exact E]. congruence. }
        rewrite <- Hsp in Hnil. apply app_eq_nil in Hnil. tauto.
    + destruct (loop_fields (refill f i s)) as (L1 & L2 & L3 & L4 & L5).
      assert (calls s ++ it s = xs) as Hsp by (apply Hsplit; discriminate).
      constructor.
      * rewrite L3. unfold refill. now destruct (it s).
      * intros E; contradiction.
      * intros _. rewrite L1, L2. unfold refill.
        destruct (it s) as [|x it'] eqn:Eit; simpl.
        -- now rewrite Eit.
        -- rewrite <- app_assoc. exact Hsp.
      * intros E _. rewrite L1. apply L5 in E. revert E. unfold refill.
        destruct (it s) as [|x it'] eqn:Eit; simpl; [now rewrite Eit|].
        pose proof (size_set_pos (promises s) i (task f i x)).
        intros E; exfalso; lia.
    + constructor; auto; rewrite Hat; intros; try discriminate; auto;
        apply Hsplit; discriminate.
    + constructor; auto; rewrite Hat; intros; try discriminate; auto;
        apply Hsplit; discriminate.
  - destruct (JSMap.get (promises s) k) as [p|] eqn:Hget; [|discriminate].
    destruct (settled p); [discriminate|].
    assert (at_ s <> Fresh) as Hnf.
    { intros E. destruct (Hfresh E) as (_ & _ & Hp). rewrite Hp in Hget. discriminate. }
    destruct (mark_fields k s) as (M1 & M2 & M3 & M4).
    destruct (race_step_fields (mark k s)) as (R1 & R2 & R3 & R4 & R5).
    intros H.
    assert (s' = race_step (mark k s) \/ s' = mark k s) as [-> | ->]
      by (destruct (at_ s); inversion H; auto).
    + constructor.
      * congruence.
      * intros E; contradiction.
      * intros _. rewrite R1, R2, M1, M2. now apply Hsplit.
      * intros E; contradiction.
    + constructor.
      * congruence.
      * intros E. exfalso. congruence.
      * intros _. rewrite M1, M2. now apply Hsplit.
      * rewrite M1, M4. exact Hdone.
Qed.

(** When the generator has finished under a positive limit, the worker has
    been called on each input exactly once, in input order. *)
Lemma drawn_done_calls (xs : list X) (limit : num) s :
  drawn xs limit s -> gt0 limit = true -> at_ s = Done -> calls s = xs.
Proof.
  intros [Hn Hfresh Hsplit Hdone] Hpos Hat.
  assert (at_ s <> Fresh) as Hnf by congruence.
  specialize (Hsplit Hnf). rewrite (Hdone Hat Hpos), app_nil_r in Hsplit.
  exact Hsplit.
Qed.

Lemma drained_calls (xs : list X) (limit : num) tr s :
  gt0 limit = true ->
  run (step f) tr (mapConcurrently xs limit) = Some s ->
  at_ s = Done -> calls s = xs.
Proof.
  intros Hpos Hrun Hat. apply (drawn_done_calls xs limit); auto.
  eapply run_invariant; [|apply mapConcurrently_drawn|exact Hrun].
  intros e s1 s2; apply step_drawn.
Qed.

(** A limit that is not positive: the generator finishes at once and the
    worker is never called. *)
Lemma not_gt0_no_calls (xs : list X) (limit : num) :
  gt0 limit = false ->
  exists s, step f Next (mapConcurrently xs limit) = Some s /\
            at_ s = Done /\ calls s = [].
Proof.
  intros Hn. eexists; split; [reflexivity|].
  unfold loop, start; simpl. rewrite (takeFromIter_not_gt0 xs limit Hn); simpl.
  now split.
Qed.

(** A finished generator stays finished. *)
Lemma step_done_stays e s s' :
  step f e s = Some s' -> at_ s = Done -> at_ s' = Done.
Proof.
  unfold step. destruct e as [|k]; intros H Hat.
  - rewrite Hat in H. now inversion H; subst.
  - destruct (JSMap.get (promises s) k) as [p|]; [|discriminate].
    destruct (settled p); [discriminate|].
    rewrite Hat in H. inversion H; subst.
    destruct (mark_fields k s) as (_ & _ & _ & M4). congruence.
Qed.

End Drawn.
End MapConcurrentlyFacts.

(** ** The scan session *)

Module ScanFacts.
Import Scan.

Definition in_set := FindLocalDevice.in_set.

(** The entries of the current lookup not yet looked at. *)
Definition buffer (s : state) : list Device :=
  match at_ s with
  | Yielded _ rest => rest
  | _ => []
  end.

(** Everything [ipLookup] has answered so far, flattened. *)
Definition answers (s : state) : list Device :=
  concat (map (fun hr => or_empty (snd hr)) (lookups s)).

Definition advanced (h h' : @MapConcurrently.state string string) : Prop :=
  h' = h \/ exists e, MapConcurrently.step Ping.worker e h = Some h'.

Lemma with_hosts_spec h s s' :
  with_hosts h s = Some s' ->
  hosts s' = h /\ ipSet s' = ipSet s /\ emitted s' = emitted s /\
  lookups s' = lookups s /\ buffer s' = [] /\
  (at_ s' = Done <-> MapConcurrently.at_ h = Gen.Done).
Proof.
  unfold with_hosts, buffer.
  destruct (MapConcurrently.at_ h); intros H; inversion H; subst; simpl;
    repeat split; try discriminate; auto.
Qed.

Lemma next_host_spec s s' :
  next_host s = Some s' ->
  advanced (hosts s) (hosts s') /\ ipSet s' = ipSet s /\
  emitted s' = emitted s /\ lookups s' = lookups s /\ buffer s' = [] /\
  (at_ s' = Done -> MapConcurrently.at_ (hosts s') = Gen.Done).
Proof.
  unfold next_host.
  destruct (MapConcurrently.step Ping.worker Gen.Next (hosts s)) as [h|] eqn:E;
    [|discriminate].
  intros H. apply with_hosts_spec in H as (H1 & H2 & H3 & H4 & H5 & H6).
  subst h. repeat split; auto.
  - right. now exists Gen.Next.
  - apply H6.
Qed.

Lemma entries_loop_spec devices s s' :
  entries_loop devices s = Some s' ->
  advanced (hosts s) (hosts s') /\ ipSet s' = ipSet s /\
  lookups s' = lookups s /\
  emitted s' ++ filter (in_set (ipSet s)) (buffer s') =
    emitted s ++ filter (in_set (ipSet s)) devices /\
  (at_ s' = Done -> MapConcurrently.at_ (hosts s') = Gen.Done).
Proof.
  induction devices as [|device rest IH]; simpl.
  - intros H. apply next_host_spec in H as (H1 & H2 & H3 & H4 & H5 & H6).
    rewrite H5, H3. simpl. repeat split; auto.
  - change (JSSet.has (ipSet s) (ip device)) with (in_set (ipSet s) device).
    destruct (in_set (ipSet s) device) eqn:E.
    + intros H; inversion H; subst; simpl. unfold buffer; simpl.
      repeat split; try discriminate.
      * now left.
      * now rewrite <- app_assoc.
    + exact IH.
Qed.

Record inv (S : JSSet.t) (s : state) : Prop := {
  inv_set : ipSet s = S;
  inv_emitted :
    emitted s ++ filter (in_set S) (buffer s) = filter (in_set S) (answers s);
  inv_done : at_ s = Done -> MapConcurrently.at_ (hosts s) = Gen.Done
}.

Lemma scan_inv limit (S : JSSet.t) : inv S (scan limit S).
Proof. constructor; simpl; auto. discriminate. Qed.

Lemma answers_snoc s host r :
  concat (map (fun hr => or_empty (snd hr)) (lookups s ++ [(host, r)])) =
  answers s ++ or_empty r.
Proof.
  unfold answers. rewrite map_app, concat_app. simpl. now rewrite app_nil_r.
Qed.

Lemma step_keeps_session S e s s' : inv S s -> step e s = Some s' -> inv S s'.
Proof.
  intros [Hset Hem Hdone]. unfold step. destruct e as [|k|r].
  - destruct (at_ s) eqn:Hat; try discriminate.
    + intros H. apply next_host_spec in H as (H1 & H2 & H3 & H4 & H5 & H6).
      constructor; [congruence| |exact H6].
      unfold answers. rewrite H5, H3, H4. unfold buffer in Hem. now rewrite Hat in Hem.
    + intros H. apply entries_loop_spec in H as (H1 & H2 & H3 & H4 & H5).
      constructor; [congruence| |exact H5].
      unfold answers. rewrite H3. rewrite Hset in H4. rewrite H4.
      unfold buffer in Hem. now rewrite Hat in Hem.
    + intros H; inversion H; subst. constructor; auto.
    + intros H; inversion H; subst. constructor; auto. congruence.
  - destruct (MapConcurrently.step Ping.worker (Gen.Settle k) (hosts s)) as [h|] eqn:E;
      [|discriminate].
    assert (buffer s = [] -> forall s1, with_hosts h s = Some s1 -> inv S s1) as Hw.
    { intros Hb s1 H. apply with_hosts_spec in H as (H1 & H2 & H3 & H4 & H5 & H6).
      constructor; [congruence| |].
      - unfold answers. rewrite H5, H3, H4. now rewrite Hb in Hem.
      - intros D. rewrite H1. now apply H6. }
    intros H.
    assert ((at_ s = AwaitHost /\ with_hosts h s = Some s') \/
            s' = {| ipSet := ipSet s; hosts := h; at_ := at_ s;
                    emitted := emitted s; lookups := lookups s |})
      as [[Hat Hwh] | ->]
      by (destruct (at_ s); inversion H; auto).
    + apply Hw; auto. unfold buffer. now rewrite Hat.
    + constructor; simpl; auto.
      intros D. eapply MapConcurrentlyFacts.step_done_stays; [exact E | now apply Hdone].
  - destruct (at_ s) eqn:Hat; try discriminate.
    assert (emitted s = filter (in_set S) (answers s)) as Hem'.
    { unfold buffer in Hem. rewrite Hat in Hem. simpl in Hem.
      now rewrite app_nil_r in Hem. }
    destruct r as [devices| |].
    + intros H. apply entries_loop_spec in H as (H1 & H2 & H3 & H4 & H5).
      simpl in *. constructor; [congruence| |exact H5].
      unfold answers at 1. rewrite H3, answers_snoc, filter_app.
      rewrite Hset in H4. rewrite H4. simpl. now rewrite Hem'.
    + intros H. apply entries_loop_spec in H as (H1 & H2 & H3 & H4 & H5).
      simpl in *. constructor; [congruence| |exact H5].
      unfold answers at 1. rewrite H3, answers_snoc, filter_app.
      rewrite Hset in H4. rewrite H4. simpl. now rewrite Hem'.
    + intros H; inversion H; subst; simpl.
      constructor; simpl; auto; [|discriminate].
      unfold buffer, answers. simpl. fold (answers s).
      rewrite answers_snoc, filter_app. simpl. now rewrite Hem'.
Qed.

(** The scheduler inside a scan only moves by its own steps. *)
Lemma step_hosts e s s' :
  step e s = Some s' -> advanced (hosts s) (hosts s').
Proof.
  unfold step. destruct e as [|k|r].
  - destruct (at_ s); try discriminate.
    + intros H. now apply next_host_spec in H.
    + intros H. now apply entries_loop_spec in H.
    + intros H; inversion H; now left.
    + intros H; inversion H; now left.
  - destruct (MapConcurrently.step Ping.worker (Gen.Settle k) (hosts s)) as [h|] eqn:E;
      [|discriminate].
    destruct (at_ s);
      try (intros H; inversion H; subst; simpl; right; now exists (Gen.Settle k)).
    intros H. apply with_hosts_spec in H as (H1 & _). rewrite H1.
    right; now exists (Gen.Settle k).
  - destruct (at_ s); try discriminate.
    destruct r; intros H;
      try (apply entries_loop_spec in H as (H1 & _); exact H1).
    inversion H; now left.
Qed.

(** Hence whatever the scheduler keeps, it keeps inside a scan. *)
Lemma hosts_invariant (P : @MapConcurrently.state string string -> Prop) :
  (forall e h h', P h -> MapConcurrently.step Ping.worker e h = Some h' -> P h') ->
  forall tr s s', P (hosts s) -> run step tr s = Some s' -> P (hosts s').
Proof.
  intros HP tr s s' H0 Hrun.
  apply (run_invariant step (fun s => P (hosts s))) with (tr := tr) (s := s); auto.
  intros e s1 s2 H1 Hstep. apply step_hosts in Hstep as [->|[e' He']]; eauto.
Qed.

End ScanFacts.

(** ** Every scan session can be drained *)

Module ScanProgress.
Import JSMap JSMapFacts.

(** A window in which every probe is still in flight and will resolve. *)
Definition in_flight (kp : nat * promise (nat * string)) : Prop :=
  settled (snd kp) = false /\ exists y, eventual (snd kp) = Resolved (fst kp, y).

Definition calm (m : JSMap.t (promise (nat * string))) : Prop :=
  wf m /\ Forall in_flight (entries m).

Lemma get_first {V} (m : JSMap.t V) k v rest :
  entries m = (k, v) :: rest -> get m k = Some v.
Proof.
  induction m as [|[[k' v']|] m IH]; simpl; [discriminate| |exact IH].
  intros H; inversion H; subst. now rewrite Nat.eqb_refl.
Qed.

Lemma keep_others {V} (rest : list (nat * V)) k :
  ~ In k (map fst rest) ->
  filter (fun kv => negb (fst kv =? k)) rest = rest.
Proof.
  induction rest as [|[k' v'] rest IH]; simpl; [reflexivity|].
  intros H. destruct (k' =? k) eqn:E.
  - apply Nat.eqb_eq in E. subst. exfalso; apply H; now left.
  - simpl. f_equal. apply IH. intros Hin; apply H; now right.
Qed.

Lemma replace_others {V} (rest : list (nat * V)) k v :
  ~ In k (map fst rest) ->
  map (fun kv => if fst kv =? k then (k, v) else kv) rest = rest.
Proof.
  induction rest as [|[k' v'] rest IH]; simpl; [reflexivity|].
  intros H. destruct (k' =? k) eqn:E.
  - apply Nat.eqb_eq in E. subst. exfalso; apply H; now left.
  - f_equal. apply IH. intros Hin; apply H; now right.
Qed.

Lemma race_calm (m : JSMap.t (promise (nat * string))) :
  Forall in_flight (entries m) -> race m = None.
Proof.
  unfold race, values. intros H.
  induction (entries m) as [|[k p] l IH]; simpl; [reflexivity|].
  inversion H as [|? ? [Hs _] Hl]; subst. simpl in Hs. rewrite Hs.
  now apply IH.
Qed.

Lemma tasks_in_flight (batch : list string) :
  Forall in_flight (entries (of_array (MapConcurrently.tasks_from Ping.worker 0 batch))).
Proof.
  apply Forall_forall. intros [k p] Hin.
  apply MapConcurrentlyFacts.first_batch in Hin as (x & _ & ->).
  split; [reflexivity|]. now exists x.
Qed.

(** The scan waits for the scheduler, which waits for its window. *)
Record waiting (s : Scan.state) : Prop := {
  waiting_scan : Scan.at_ s = Scan.AwaitHost;
  waiting_hosts : MapConcurrently.at_ (Scan.hosts s) = Gen.Awaiting;
  waiting_calm : calm (MapConcurrently.promises (Scan.hosts s));
  waiting_window : 0 < size (MapConcurrently.promises (Scan.hosts s))
}.

(** One probe settles and its lookup is answered: the scan is done, or
    waits again with one address less to go. *)
Lemma one_round (s : Scan.state) k p rest :
  waiting s ->
  entries (MapConcurrently.promises (Scan.hosts s)) = (k, p) :: rest ->
  exists s',
    run Scan.step [Scan.Settle k; Scan.Lookup Nothing] s = Some s' /\
    (Scan.at_ s' = Scan.Done \/
     (waiting s' /\
      length (MapConcurrently.it (Scan.hosts s')) +
        size (MapConcurrently.promises (Scan.hosts s')) <
      length (MapConcurrently.it (Scan.hosts s)) +
        size (MapConcurrently.promises (Scan.hosts s)))).
Proof.
  intros [Hscan Hhosts [Hwf Hall] _] He.
  set (h := Scan.hosts s) in *.
  pose proof (get_first _ _ _ _ He) as Hget.
  assert (in_flight (k, p) /\ Forall in_flight rest) as [[Hs [y Hy]] Hrest].
  { rewrite He in Hall. now inversion Hall. }
  simpl in Hs, Hy.
  assert (~ In k (map fst rest)) as Hk.
  { unfold wf in Hwf. rewrite He in Hwf. simpl in Hwf. now inversion Hwf. }
  assert (NoDup (map fst rest)) as Hnd.
  { unfold wf in Hwf. rewrite He in Hwf. simpl in Hwf. now inversion Hwf. }
  (* the window after the settlement has been marked *)
  set (m1 := replace (MapConcurrently.promises h) k (settle p)).
  assert (entries m1 = (k, settle p) :: rest) as E1.
  { unfold m1. rewrite entries_replace, He. simpl. rewrite Nat.eqb_refl.
    f_equal. now apply replace_others. }
  assert (race m1 = Some (Resolved (k, y))) as Hrace.
  { unfold race, values. rewrite E1. simpl. now rewrite Hy. }
  (* the window after the winner has been deleted *)
  set (m2 := delete m1 k).
  assert (entries m2 = rest) as E2.
  { unfold m2. rewrite entries_delete, E1. simpl. rewrite Nat.eqb_refl. simpl.
    now apply keep_others. }
  assert (wf m2) as Hwf2 by (unfold wf; now rewrite E2).
  assert (has m2 k = false) as Habs by apply has_delete.
  (* the settlement *)
  assert (MapConcurrently.step Ping.worker (Gen.Settle k) h =
          Some (MapConcurrently.race_step (MapConcurrently.mark k h))) as Hstep1.
  { unfold MapConcurrently.step. rewrite Hget, Hs, Hhosts. reflexivity. }
  assert (MapConcurrently.promises (MapConcurrently.mark k h) = m1) as Hm1.
  { unfold MapConcurrently.mark. now rewrite Hget. }
  destruct (MapConcurrentlyFacts.mark_fields k h) as (M1 & M2 & M3 & M4).
  set (h1 := MapConcurrently.race_step (MapConcurrently.mark k h)) in *.
  assert (MapConcurrently.at_ h1 = Gen.Suspended k y /\
          MapConcurrently.promises h1 = m2 /\
          MapConcurrently.it h1 = MapConcurrently.it h) as (A1 & P1 & I1).
  { unfold h1, MapConcurrently.race_step. rewrite Hm1, Hrace. simpl.
    repeat split. exact M1. }
  (* the request that follows the empty lookup *)
  set (h2 := MapConcurrently.loop (MapConcurrently.refill Ping.worker k h1)).
  assert (MapConcurrently.step Ping.worker Gen.Next h1 = Some h2) as Hstep2.
  { unfold MapConcurrently.step. now rewrite A1. }
  set (s1 := {| Scan.ipSet := Scan.ipSet s; Scan.hosts := h1;
                Scan.at_ := Scan.AwaitLookup y;
                Scan.emitted := Scan.emitted s;
                Scan.lookups := Scan.lookups s |}).
  set (s2 := {| Scan.ipSet := Scan.ipSet s; Scan.hosts := h1;
                Scan.at_ := Scan.AwaitLookup y;
                Scan.emitted := Scan.emitted s;
                Scan.lookups := Scan.lookups s ++ [(y, Nothing)] |}).
  assert (Scan.step (Scan.Settle k) s = Some s1) as Hs1.
  { unfold Scan.step. change (Scan.hosts s) with h. rewrite Hstep1, Hscan.
    unfold Scan.with_hosts. now rewrite A1. }
  assert (Scan.step (Scan.Lookup Nothing) s1 = Scan.with_hosts h2 s2) as Hs2.
  { unfold Scan.step, s1. cbn [Scan.at_ or_empty Scan.entries_loop].
    unfold Scan.next_host. cbn [Scan.hosts Scan.ipSet Scan.emitted Scan.lookups].
    rewrite Hstep2. reflexivity. }
  assert (exists s',
            run Scan.step [Scan.Settle k; Scan.Lookup Nothing] s = Some s' /\
            Scan.with_hosts h2 s2 = Some s') as Hrun.
  { cbn [run]. rewrite Hs1, Hs2.
    destruct (Scan.with_hosts h2 s2) as [s'|] eqn:Ew.
    - exists s'. now split.
    - exfalso. unfold Scan.with_hosts in Ew.
      destruct (MapConcurrentlyFacts.loop_fields
                  (MapConcurrently.refill Ping.worker k h1)) as (_ & _ & _ & L4 & _).
      fold h2 in L4. destruct (MapConcurrently.at_ h2); congruence. }
  destruct Hrun as (s' & Hrun & Hw). exists s'. split; [exact Hrun|].
  pose proof Hw as W5.
  apply ScanFacts.with_hosts_spec in Hw as (W1 & _ & _ & _ & _ & W6).
  (* what the window is after the refill *)
  set (h1' := MapConcurrently.refill Ping.worker k h1) in *.
  assert (calm (MapConcurrently.promises h1') /\
          length (MapConcurrently.it h1') + size (MapConcurrently.promises h1')
            < length (MapConcurrently.it h) + size (MapConcurrently.promises h))
    as [[Hwf' Hall'] Hless].
  { unfold h1', MapConcurrently.refill. rewrite <- I1.
    destruct (MapConcurrently.it h1) as [|x it'] eqn:Eit1.
    - rewrite P1, Eit1. split; [split; [exact Hwf2 | now rewrite E2]|].
      unfold size. rewrite E2, He. simpl. lia.
    - cbn [MapConcurrently.promises MapConcurrently.it]. rewrite P1.
      split; [split|].
      + now apply wf_set.
      + rewrite entries_set_absent by exact Habs. rewrite E2.
        apply Forall_app. split; [exact Hrest|]. repeat constructor.
        now exists x.
      + unfold size. rewrite entries_set_absent by exact Habs.
        rewrite E2, He, length_app. simpl. lia. }
  assert (Scan.at_ s' = Scan.Done \/
          (Scan.at_ s' = Scan.AwaitHost /\
           MapConcurrently.at_ h2 = Gen.Awaiting /\
           MapConcurrently.promises h2 = MapConcurrently.promises h1' /\
           MapConcurrently.it h2 = MapConcurrently.it h1' /\
           0 < size (MapConcurrently.promises h1'))) as Hcases.
  { destruct (MapConcurrentlyFacts.loop_fields h1') as (L1 & _ & _ & _ & _).
    fold h2 in L1.
    assert (MapConcurrently.at_ h2 = Gen.Done \/
            (MapConcurrently.at_ h2 = Gen.Awaiting /\
             MapConcurrently.promises h2 = MapConcurrently.promises h1' /\
             0 < size (MapConcurrently.promises h1'))) as [Hd | (Ha & Hp & Hz)].
    { unfold h2, MapConcurrently.loop.
      destruct (size (MapConcurrently.promises h1') =? 0) eqn:Ez.
      - left. reflexivity.
      - right. unfold MapConcurrently.race_step. rewrite (race_calm _ Hall').
        simpl. repeat split. apply Nat.eqb_neq in Ez. lia. }
    - left. now apply W6.
    - right. repeat split; auto.
      revert W5. clear - Ha.
      unfold Scan.with_hosts. rewrite Ha. intros H. now inversion H. }
  destruct Hcases as [Hd | (Hat' & Ha & Hp & Hi & Hz)]; [now left | right].
  split.
  - constructor; rewrite ?W1; auto.
    + rewrite Hp. now split.
    + now rewrite Hp.
  - rewrite W1, Hp, Hi. exact Hless.
Qed.

Lemma waiting_drains (m : nat) : forall s,
  waiting s ->
  length (MapConcurrently.it (Scan.hosts s)) +
    size (MapConcurrently.promises (Scan.hosts s)) <= m ->
  exists tr s', run Scan.step tr s = Some s' /\ Scan.at_ s' = Scan.Done.
Proof.
  induction m as [|m IH]; intros s Hw Hm.
  { pose proof (waiting_window s Hw). lia. }
  pose proof (waiting_window s Hw) as Hpos. unfold size in Hpos.
  destruct (entries (MapConcurrently.promises (Scan.hosts s)))
    as [|[k p] rest] eqn:He; [simpl in Hpos; lia|].
  destruct (one_round s k p rest Hw He) as (s1 & Hrun & [Hdone | [Hw1 Hless]]).
  - now exists [Scan.Settle k; Scan.Lookup Nothing], s1.
  - destruct (IH s1 Hw1) as (tr & s' & Hrun' & Hdone'); [lia|].
    exists ([Scan.Settle k; Scan.Lookup Nothing] ++ tr), s'.
    split; [|exact Hdone']. rewrite run_app, Hrun. exact Hrun'.
Qed.

(** Whatever the set and the limit, some course of events (each probe
    settling, each lookup answered) takes a scan session to its end. *)
Lemma scan_can_be_drained (limit : num) (ipSet : JSSet.t) :
  exists tr s,
    run Scan.step tr (Scan.scan limit ipSet) = Some s /\ Scan.at_ s = Scan.Done.
Proof.
  set (h0 := MapConcurrently.start Ping.worker
               (MapConcurrently.mapConcurrently ipSet limit)).
  set (h := MapConcurrently.loop h0).
  assert (Scan.step Scan.Next (Scan.scan limit ipSet) =
          Scan.with_hosts h (Scan.scan limit ipSet)) as Hstep by reflexivity.
  assert (calm (MapConcurrently.promises h0)) as [Hwf Hall].
  { unfold h0, MapConcurrently.start. simpl.
    destruct (MapConcurrently.takeFromIter ipSet limit) as [batch it']. simpl.
    split; [apply wf_of_array | apply tasks_in_flight]. }
  destruct (size (MapConcurrently.promises h0) =? 0) eqn:Ez.
  - exists [Scan.Next]. eexists. split.
    + cbn [run]. rewrite Hstep. unfold Scan.with_hosts, h, MapConcurrently.loop.
      rewrite Ez. reflexivity.
    + reflexivity.
  - assert (h = {| MapConcurrently.it := MapConcurrently.it h0;
                   MapConcurrently.n := MapConcurrently.n h0;
                   MapConcurrently.promises := MapConcurrently.promises h0;
                   MapConcurrently.at_ := Gen.Awaiting;
                   MapConcurrently.yielded := MapConcurrently.yielded h0;
                   MapConcurrently.calls := MapConcurrently.calls h0;
                   MapConcurrently.settles := MapConcurrently.settles h0 |}) as Eh.
    { unfold h, MapConcurrently.loop. rewrite Ez.
      unfold MapConcurrently.race_step. now rewrite (race_calm _ Hall). }
    set (s1 := {| Scan.ipSet := ipSet; Scan.hosts := h; Scan.at_ := Scan.AwaitHost;
                  Scan.emitted := []; Scan.lookups := [] |}).
    assert (Scan.step Scan.Next (Scan.scan limit ipSet) = Some s1) as Hs1.
    { rewrite Hstep. unfold Scan.with_hosts.
      replace (MapConcurrently.at_ h) with (@Gen.Awaiting string)
        by (rewrite Eh; reflexivity).
      reflexivity. }
    assert (waiting s1) as Hw.
    { constructor; cbn [Scan.at_ Scan.hosts s1]; rewrite ?Eh; simpl; auto.
      - now split.
      - apply Nat.eqb_neq in Ez. lia. }
    destruct (waiting_drains _ s1 Hw (Nat.le_refl _)) as (tr & s' & Hrun & Hdone).
    exists (Scan.Next :: tr), s'. split; [|exact Hdone].
    cbn [run]. now rewrite Hs1.
Qed.

End ScanProgress.


(** ** The scheduler: at most [K] workers at a time *)

Section SchedulerClaims.
Context {X Y : Type}.
Variable f : X -> outcome Y.

Lemma of_nat_limit (K : nat) (xs : list X) :
  length (fst (MapConcurrently.takeFromIter xs (of_nat K))) <= K.
Proof. apply MapConcurrentlyFacts.takeFromIter_Fin_le. apply Qle_refl. Qed.

(** C1: for every finite input, every whole limit [K >= 1] and every
    worker, in every state that the events of the event loop can lead
    [mapConcurrently] to, the number of worker invocations started and not
    yet settled is at most [K], and so is the size of the window. *)
Theorem mapConcurrently_at_most_K
  (xs : list X) (K : nat) (tr : list Gen.event) (s : MapConcurrently.state) :
  1 <= K ->
  run (MapConcurrently.step f) tr
      (MapConcurrently.mapConcurrently xs (of_nat K)) = Some s ->
  MapConcurrently.outstanding s <= K /\
  JSMap.size (MapConcurrently.promises s) <= K.
Proof.
  intros _ Hrun.
  apply (MapConcurrentlyFacts.window_bound f K xs (of_nat K) tr s); [|exact Hrun].
  intros xs'. apply of_nat_limit.
Qed.

End SchedulerClaims.

Open Scope string_scope.

(** The serial case [K = 1] on three inputs, up to the third call. *)
Lemma mapConcurrently_at_most_K_witness :
  exists s,
    run (MapConcurrently.step (fun x : string => Resolved x))
        [Gen.Next; Gen.Settle 0; Gen.Next; Gen.Settle 0; Gen.Next]
        (MapConcurrently.mapConcurrently ["a"; "b"; "c"] (of_nat 1)) = Some s /\
    MapConcurrently.calls s = ["a"; "b"; "c"] /\
    MapConcurrently.outstanding s <= 1 /\
    JSMap.size (MapConcurrently.promises s) <= 1.
Proof.
  eexists. split; [vm_compute; reflexivity|]. split; [reflexivity|].
  apply (mapConcurrently_at_most_K (fun x : string => Resolved x)
           ["a"; "b"; "c"] 1
           [Gen.Next; Gen.Settle 0; Gen.Next; Gen.Settle 0; Gen.Next]);
    [lia | vm_compute; reflexivity].
Defined.

(** ** [raceAll] against [mapConcurrently] *)

(** C2 (the code departs from it): two inputs, limit 2, the second worker
    settling first.  [mapConcurrently] yields both results in completion
    order; [raceAll], handed the two promises and driven by the same
    events, yields the first result and ends: the entry it deleted was the
    one its [for...of] iterator had still to visit. *)
Theorem raceAll_ends_early :
  let f := fun x : string => Resolved x in
  let tr := [Gen.Next; Gen.Settle 1; Gen.Next; Gen.Settle 0; Gen.Next] in
  option_map (fun s => (MapConcurrently.yielded s, MapConcurrently.at_ s))
    (run (MapConcurrently.step f) tr
         (MapConcurrently.mapConcurrently ["a"; "b"] (of_nat 2)))
    = Some (["b"; "a"], Gen.Done) /\
  option_map (fun s => (RaceAll.yielded s, RaceAll.at_ s))
    (run RaceAll.step tr
         (RaceAll.raceAll (map (fun x => pending_promise (f x)) ["a"; "b"])))
    = Some (["b"], Gen.Done).
Proof. split; vm_compute; reflexivity. Qed.

Close Scope string_scope.

(** ** [ping] *)

Module PingFacts.
Import Ping.

Lemma emit_address ev s : address (emit ev s) = address s.
Proof.
  destruct ev; simpl;
    [destruct (on_timeout s) | destruct (on_connect s) | destruct (on_error s)];
    reflexivity.
Qed.

(** Once fulfilled, the promise does not change. *)
Lemma emit_fulfilled ev s v :
  result s = Fulfilled v -> result (emit ev s) = Fulfilled v.
Proof.
  intros H. destruct ev; simpl;
    [destruct (on_timeout s) | destruct (on_connect s) | destruct (on_error s)];
    simpl; rewrite H; reflexivity.
Qed.

Lemma emit_all_fulfilled evs s v :
  result s = Fulfilled v -> result (emit_all evs s) = Fulfilled v.
Proof.
  revert s; induction evs as [|ev evs IH]; intros s H; simpl; [exact H|].
  apply IH. now apply emit_fulfilled.
Qed.

(** The first event of any kind calls [close]. *)
Lemma first_event ev a :
  result (emit ev (ping a)) = Fulfilled a /\ destroyed (emit ev (ping a)) = true.
Proof. destruct ev; split; reflexivity. Qed.

End PingFacts.

(** C3: whichever of connect, error and time-out comes first, and whatever
    follows, the promise returned by [ping(address)] is fulfilled with
    [address] and the socket is destroyed; the promise is never rejected;
    so, as a worker of the scheduler, [ping] always resolves to its
    argument. *)
Theorem ping_resolves_to_its_address (address : string) :
  (forall ev evs,
     Ping.result (Ping.emit_all (ev :: evs) (Ping.ping address)) =
       Ping.Fulfilled address /\
     Ping.destroyed (Ping.emit ev (Ping.ping address)) = true) /\
  (forall evs reason,
     Ping.result (Ping.emit_all evs (Ping.ping address)) <>
       Ping.RejectedWith reason) /\
  (forall ev evs,
     Ping.outcome_of (Ping.result (Ping.emit_all (ev :: evs) (Ping.ping address)))
     = Some (Ping.worker address)).
Proof.
  assert (forall ev evs,
            Ping.result (Ping.emit_all (ev :: evs) (Ping.ping address)) =
            Ping.Fulfilled address) as H.
  { intros ev evs. simpl. apply PingFacts.emit_all_fulfilled.
    apply PingFacts.first_event. }
  split; [|split].
  - intros ev evs. split; [apply H | apply PingFacts.first_event].
  - intros [|ev evs] reason; [discriminate|]. rewrite H. discriminate.
  - intros ev evs. now rewrite H.
Qed.

(** ** [Set] *)

Module JSSetFacts.
Import JSSet.

Lemma has_In (s : JSSet.t) (x : string) : has s x = true <-> In x s.
Proof.
  unfold has. rewrite existsb_exists. split.
  - intros (y & Hin & E). apply String.eqb_eq in E. now subst.
  - intros Hin. exists x. split; [exact Hin | apply String.eqb_refl].
Qed.

Lemma add_NoDup (s : JSSet.t) (x : string) : NoDup s -> NoDup (add s x).
Proof.
  intros H. unfold add. destruct (has s x) eqn:E; [exact H|].
  apply NoDup_app; [exact H | repeat constructor; easy |].
  intros a Ha [<-|[]]. apply has_In in Ha. congruence.
Qed.

Lemma add_In (s : JSSet.t) (x y : string) : In y (add s x) <-> In y s \/ y = x.
Proof.
  unfold add. destruct (has s x) eqn:E.
  - apply has_In in E. split; [now left | intros [H| ->]; assumption].
  - rewrite in_app_iff. simpl. intuition (subst; auto).
Qed.

Lemma fold_add_NoDup (l : list string) (s : JSSet.t) :
  NoDup s -> NoDup (fold_left add l s).
Proof.
  revert s; induction l as [|x l IH]; intros s H; simpl; [exact H|].
  apply IH. now apply add_NoDup.
Qed.

Lemma fold_add_In (l : list string) (s : JSSet.t) (y : string) :
  In y (fold_left add l s) <-> In y s \/ In y l.
Proof.
  revert s; induction l as [|x l IH]; intros s; simpl; [tauto|].
  rewrite IH, add_In. intuition (subst; auto).
Qed.

(** A set holds each element of the array it is made from, once. *)
Lemma of_array_NoDup (l : list string) : NoDup (of_array l).
Proof. apply fold_add_NoDup. constructor. Qed.

Lemma of_array_In (l : list string) (y : string) : In y (of_array l) <-> In y l.
Proof. unfold of_array. rewrite fold_add_In. simpl. tauto. Qed.

End JSSetFacts.

(** ** Claims on the scan session *)

Section ScanClaims.
Variable Number : option string -> num.
Variable LOCAL_DEVICES_MAX_CONCURRENT : option string.

Let limit : num := MAX_CONCURRENT Number LOCAL_DEVICES_MAX_CONCURRENT.

(** C4, as amended: when the effective limit is positive (the default 32
    is), a scan session can be drained to its end, and one that has been has
    called [ping] on the addresses of the set in their order, hence on each
    address exactly once. *)
Theorem scan_probes_each_address_once (addresses : list string) :
  gt0 (MAX_CONCURRENT Number LOCAL_DEVICES_MAX_CONCURRENT) = true ->
  (exists tr s,
     run Scan.step tr
         (Scan.scan (MAX_CONCURRENT Number LOCAL_DEVICES_MAX_CONCURRENT)
                    (JSSet.of_array addresses)) = Some s /\
     Scan.at_ s = Scan.Done) /\
  (forall tr s,
     run Scan.step tr
         (Scan.scan (MAX_CONCURRENT Number LOCAL_DEVICES_MAX_CONCURRENT)
                    (JSSet.of_array addresses)) = Some s ->
     Scan.at_ s = Scan.Done ->
     Scan.probes s = JSSet.of_array addresses /\
     NoDup (Scan.probes s) /\
     (forall a, In a (Scan.probes s) <-> In a addresses)).
Proof.
  intros Hpos. split; [apply ScanProgress.scan_can_be_drained|].
  intros tr s Hrun Hdone. fold limit in Hpos, Hrun.
  set (S := JSSet.of_array addresses) in *.
  assert (ScanFacts.inv S s) as Hinv.
  { eapply run_invariant; [|apply (ScanFacts.scan_inv limit)|exact Hrun].
    intros e s1 s2; apply ScanFacts.step_keeps_session. }
  assert (MapConcurrentlyFacts.drawn S limit (Scan.hosts s)) as Hdrawn.
  { apply (ScanFacts.hosts_invariant
             (MapConcurrentlyFacts.drawn S limit)) with (tr := tr)
             (s := Scan.scan limit S); [| |exact Hrun].
    - intros e h h'. apply MapConcurrentlyFacts.step_drawn.
    - apply MapConcurrentlyFacts.mapConcurrently_drawn. }
  assert (Scan.probes s = S) as E.
  { unfold Scan.probes.
    apply (MapConcurrentlyFacts.drawn_done_calls S limit); auto.
    now apply (ScanFacts.inv_done S s Hinv). }
  rewrite E. split; [reflexivity|]. split.
  - apply JSSetFacts.of_array_NoDup.
  - intros a. apply JSSetFacts.of_array_In.
Qed.

(** C5: every device a scan session has emitted has its [ip] in the set,
    whatever [ipLookup] answers. *)
Theorem scan_emits_members_only
  (ipSet : JSSet.t) (tr : list Scan.event) (s : Scan.state) :
  run Scan.step tr
      (Scan.scan (MAX_CONCURRENT Number LOCAL_DEVICES_MAX_CONCURRENT) ipSet)
    = Some s ->
  Forall (fun device => JSSet.has ipSet (ip device) = true) (Scan.emitted s).
Proof.
  intros Hrun. fold limit in Hrun.
  assert (ScanFacts.inv ipSet s) as Hinv.
  { eapply run_invariant; [|apply (ScanFacts.scan_inv limit)|exact Hrun].
    intros e s1 s2; apply ScanFacts.step_keeps_session. }
  apply Forall_forall. intros device Hin.
  assert (In device (filter (ScanFacts.in_set ipSet) (ScanFacts.answers s))) as H.
  { rewrite <- (ScanFacts.inv_emitted ipSet s Hinv). apply in_or_app. now left. }
  apply filter_In in H. apply H.
Qed.

(** C6, as amended: a scan session does not remove duplicates.  What it
    has emitted is, in order, the entries answered by [ipLookup] whose [ip]
    is in the set, up to the one emitted last; so no two emitted devices
    share an [ip] provided no two such entries do. *)
Theorem scan_emits_the_answers_in_the_set
  (ipSet : JSSet.t) (tr : list Scan.event) (s : Scan.state) :
  run Scan.step tr
      (Scan.scan (MAX_CONCURRENT Number LOCAL_DEVICES_MAX_CONCURRENT) ipSet)
    = Some s ->
  Scan.emitted s ++ filter (ScanFacts.in_set ipSet) (ScanFacts.buffer s) =
    filter (ScanFacts.in_set ipSet) (ScanFacts.answers s) /\
  (NoDup (map ip (filter (ScanFacts.in_set ipSet) (ScanFacts.answers s))) ->
   NoDup (map ip (Scan.emitted s))).
Proof.
  intros Hrun. fold limit in Hrun.
  assert (ScanFacts.inv ipSet s) as Hinv.
  { eapply run_invariant; [|apply (ScanFacts.scan_inv limit)|exact Hrun].
    intros e s1 s2; apply ScanFacts.step_keeps_session. }
  pose proof (ScanFacts.inv_emitted ipSet s Hinv) as E.
  split; [exact E|].
  rewrite <- E, map_app. apply NoDup_app_remove_r.
Qed.

End ScanClaims.

(** *** Concrete sessions *)

Module ScanExamples.
Open Scope string_scope.

Definition device (ip mac : string) : Device :=
  {| ip := ip; mac := mac; flag := None; iface := None; ifname := None |}.

(** Two addresses, the second answering first; unset limit, hence 32. *)
Definition two_hosts : list Scan.event :=
  [ Scan.Next; Scan.Settle 1;
    Scan.Lookup (Entries [device "10.0.0.2" "aa:bb:cc:00:00:02";
                          device "10.0.9.9" "aa:bb:cc:00:09:09"]);
    Scan.Next; Scan.Settle 0; Scan.Lookup Nothing ].

(** One address for which the neighbor table answers two entries. *)
Definition stale_entries : list Scan.event :=
  [ Scan.Next; Scan.Settle 0;
    Scan.Lookup (Entries [device "10.0.0.1" "aa:bb:cc:00:00:01";
                          device "10.0.0.1" "aa:bb:cc:00:00:0f"]);
    Scan.Next ].

Close Scope string_scope.
End ScanExamples.

Open Scope string_scope.

Lemma scan_probes_each_address_once_witness :
  exists s,
    run Scan.step ScanExamples.two_hosts
        (Scan.scan (MAX_CONCURRENT NumberModel.Number None)
                   (JSSet.of_array ["10.0.0.1"; "10.0.0.2"; "10.0.0.1"])) = Some s /\
    Scan.at_ s = Scan.Done /\
    Scan.probes s = ["10.0.0.1"; "10.0.0.2"] /\
    NoDup (Scan.probes s).
Proof.
  eexists. split; [vm_compute; reflexivity|]. split; [reflexivity|].
  split; [reflexivity|].
  apply (proj2 (scan_probes_each_address_once NumberModel.Number None
                  ["10.0.0.1"; "10.0.0.2"; "10.0.0.1"] eq_refl)
               ScanExamples.two_hosts);
    [vm_compute; reflexivity | reflexivity].
Defined.

(** C4, as stated, fails: with [LOCAL_DEVICES_MAX_CONCURRENT=-1] the limit is
    [-1], the first batch is empty and the session ends at the first request
    without a single call of [ping]. *)
Lemma scan_negative_limit_probes_nothing :
  ~ (forall tr s,
       run Scan.step tr
           (Scan.scan (MAX_CONCURRENT NumberModel.Number (Some "-1"))
                      (JSSet.of_array ["10.0.0.1"])) = Some s ->
       Scan.at_ s = Scan.Done ->
       Scan.probes s = JSSet.of_array ["10.0.0.1"]).
Proof.
  intros H. specialize (H [Scan.Next] _ eq_refl eq_refl). discriminate H.
Qed.

Lemma scan_emits_members_only_witness :
  exists s,
    run Scan.step ScanExamples.two_hosts
        (Scan.scan (MAX_CONCURRENT NumberModel.Number None)
                   ["10.0.0.1"; "10.0.0.2"]) = Some s /\
    map ip (Scan.emitted s) = ["10.0.0.2"] /\
    Forall (fun device => JSSet.has ["10.0.0.1"; "10.0.0.2"] (ip device) = true)
           (Scan.emitted s).
Proof.
  eexists. split; [vm_compute; reflexivity|]. split; [reflexivity|].
  apply (scan_emits_members_only NumberModel.Number None
           ["10.0.0.1"; "10.0.0.2"] ScanExamples.two_hosts).
  vm_compute; reflexivity.
Defined.

(** C6, as stated, fails: two entries answered for one address are both
    emitted. *)
Lemma scan_emits_duplicates :
  ~ (forall tr s,
       run Scan.step tr
           (Scan.scan (MAX_CONCURRENT NumberModel.Number None) ["10.0.0.1"])
         = Some s ->
       NoDup (map ip (Scan.emitted s))).
Proof.
  intros H. specialize (H ScanExamples.stale_entries _ eq_refl).
  vm_compute in H. inversion H as [|x l Hnotin _]. apply Hnotin. now left.
Qed.

Lemma scan_emits_the_answers_in_the_set_witness :
  exists s,
    run Scan.step ScanExamples.two_hosts
        (Scan.scan (MAX_CONCURRENT NumberModel.Number None)
                   ["10.0.0.1"; "10.0.0.2"]) = Some s /\
    map ip (ScanFacts.answers s) = ["10.0.0.2"; "10.0.9.9"] /\
    NoDup (map ip (Scan.emitted s)).
Proof.
  eexists. split; [vm_compute; reflexivity|]. split; [reflexivity|].
  apply (scan_emits_the_answers_in_the_set NumberModel.Number None
           ["10.0.0.1"; "10.0.0.2"] ScanExamples.two_hosts);
    [vm_compute; reflexivity|].
  vm_compute. repeat constructor; simpl; intuition discriminate.
Defined.

Close Scope string_scope.

(** ** Sorting by IP address *)

Module SortFacts.
Section Insertion.
Context {A : Type}.
Variable comparefn : A -> A -> num.
Variable R : A -> A -> Prop.
Variable ok : A -> Prop.

(** On the elements that matter, [comparefn] decides [R]. *)
Hypothesis positive_swaps :
  forall x y, ok x -> ok y -> gt0 (comparefn x y) = true -> R y x.
Hypothesis otherwise_keeps :
  forall x y, ok x -> ok y -> gt0 (comparefn x y) = false -> R x y.

Lemma sort_insert_HdRel (a x : A) (l : list A) :
  R a x -> HdRel R a l -> HdRel R a (sort_insert comparefn x l).
Proof.
  intros Hax H. destruct l as [|y l]; simpl; [now constructor|].
  destruct (gt0 (comparefn x y)); constructor; [|exact Hax].
  now inversion H.
Qed.

Lemma sort_insert_Sorted (x : A) (l : list A) :
  ok x -> Forall ok l -> Sorted R l -> Sorted R (sort_insert comparefn x l).
Proof.
  intros Hx Hl Hs. induction l as [|y l IH]; simpl.
  - repeat constructor.
  - inversion Hl as [|? ? Hy Hl']; subst. inversion Hs as [|? ? Hs' Hhd]; subst.
    destruct (gt0 (comparefn x y)) eqn:E.
    + constructor; [now apply IH|].
      apply sort_insert_HdRel; [|exact Hhd]. now apply positive_swaps.
    + constructor; [exact Hs|]. constructor. now apply otherwise_keeps.
Qed.

Lemma sort_insert_Permutation (x : A) (l : list A) :
  Permutation (sort_insert comparefn x l) (x :: l).
Proof.
  induction l as [|y l IH]; simpl; [reflexivity|].
  destruct (gt0 (comparefn x y)); [|reflexivity].
  rewrite IH. apply perm_swap.
Qed.

Lemma sort_Permutation (l : list A) : Permutation (sort comparefn l) l.
Proof.
  induction l as [|x l IH]; simpl; [reflexivity|].
  rewrite sort_insert_Permutation. now constructor.
Qed.

Lemma sort_Sorted (l : list A) : Forall ok l -> Sorted R (sort comparefn l).
Proof.
  induction l as [|x l IH]; intros H; simpl; [constructor|].
  inversion H as [|? ? Hx Hl]; subst.
  apply sort_insert_Sorted; [exact Hx| |now apply IH].
  apply Forall_forall. intros y Hy.
  rewrite Forall_forall in Hl. apply Hl.
  eapply Permutation_in; [apply sort_Permutation | exact Hy].
Qed.

End Insertion.
End SortFacts.


Lemma octets_le_trans (a b c : list Z) :
  octets_le a b -> octets_le b c -> octets_le a c.
Proof.
  revert b c; induction a as [|x a IH]; intros [|y b] [|z c]; simpl; try tauto.
  intros [H1|[-> H1]] [H2|[-> H2]]; try (left; lia).
  right. split; [reflexivity|]. now apply (IH b c).
Qed.

Module ArrayCompareFacts.

Lemma of_Z_inj (x y : Z) : of_Z x = of_Z y -> x = y.
Proof. unfold of_Z, inject_Z. intros H. now inversion H. Qed.

Lemma map_of_Z_inj (a b : list Z) : map of_Z a = map of_Z b -> a = b.
Proof.
  revert b; induction a as [|x a IH]; intros [|y b]; simpl; try easy.
  intros H. injection H as Hx Hl. apply IH in Hl. now subst.
Qed.

(** [Math.sign(x - y)] on whole numbers. *)
Lemma sign_sub (x y : Z) :
  Num.sign (Num.sub (of_Z x) (of_Z y)) = of_Z (Z.sgn (x - y)).
Proof.
  unfold of_Z, Num.sub, Num.sign, inject_Z, Qminus, Qplus, Qopp; simpl.
  unfold of_Z, inject_Z. do 3 f_equal. lia.
Qed.

(** On two arrays of whole numbers of one length, [arrayCompare] is positive
    exactly when the first comes strictly after the second. *)
Lemma arrayCompare_octets (a b : list Z) :
  length a = length b ->
  (gt0 (arrayCompare (map of_Z a) (map of_Z b)) = true -> octets_le b a) /\
  (gt0 (arrayCompare (map of_Z a) (map of_Z b)) = false -> octets_le a b).
Proof.
  revert b; induction a as [|x a IH]; intros [|y b] Hlen; try discriminate Hlen.
  - simpl. split; [discriminate | trivial].
  - simpl in Hlen. injection Hlen as Hlen.
    specialize (IH b Hlen).
    cbn [map arrayCompare at0 tl]. rewrite sign_sub.
    assert (Num.is0 (of_Z (Z.sgn (x - y))) = (x =? y)%Z) as Hz.
    { unfold Num.is0, of_Z, inject_Z; simpl.
      destruct (Z.eqb_spec x y); [subst; now rewrite Z.sub_diag|].
      apply Z.eqb_neq. intros H. apply Z.sgn_null_iff in H. lia. }
    assert (gt0 (of_Z (Z.sgn (x - y))) = (y <? x)%Z) as Hg.
    { unfold gt0, of_Z, inject_Z; simpl.
      destruct (Z.ltb_spec y x).
      - apply Z.ltb_lt. apply Z.sgn_pos_iff. lia.
      - apply Z.ltb_ge. destruct (Z.eq_dec x y); [subst; now rewrite Z.sub_diag|].
        assert (Z.sgn (x - y) = -1)%Z as E by (apply Z.sgn_neg_iff; lia). lia. }
    assert ((1 <? length (of_Z x :: map of_Z a)) = negb (length a =? 0)) as Hl
      by (destruct a; reflexivity).
    rewrite Hz, Hl. destruct (Z.eqb_spec x y) as [->|Hne]; cbn [andb].
    + destruct a as [|x' a]; cbn [length Nat.eqb negb].
      * destruct b; [|discriminate Hlen].
        rewrite Hg, Z.ltb_irrefl.
        split; [discriminate|]. intros _. right. now split.
      * destruct IH as [IH1 IH2].
        split; intros H; right; (split; [reflexivity|]); auto.
    + rewrite Hg. destruct (Z.ltb_spec y x) as [Hlt|Hge]; split; intros H;
        try discriminate.
      * left. exact Hlt.
      * left. lia.
Qed.

End ArrayCompareFacts.

(** ** [getLocalDeviceList] *)

Module ListFacts.
Import GetLocalDeviceList.
Section Sorted.
Variable Number : option string -> num.

(** An address that [parseIPv4] reads as four whole numbers. *)
Definition dotted_quad (a : string) : Prop :=
  exists o, length o = 4 /\ parseIPv4 Number a = map of_Z o.

(** The numeric order on the addresses of two devices. *)
Definition ip_le (a b : Device) : Prop :=
  exists oa ob,
    (length oa = 4 /\ parseIPv4 Number (ip a) = map of_Z oa) /\
    (length ob = 4 /\ parseIPv4 Number (ip b) = map of_Z ob) /\
    octets_le oa ob.

Lemma ip_le_trans (a b c : Device) : ip_le a b -> ip_le b c -> ip_le a c.
Proof.
  intros (oa & ob & Ha & (Hlb & Hb) & Hab) (ob' & oc & (Hlb' & Hb') & Hc & Hbc).
  rewrite Hb in Hb'. apply ArrayCompareFacts.map_of_Z_inj in Hb'. subst ob'.
  exists oa, oc. repeat split; try tauto.
  now apply (octets_le_trans oa ob oc).
Qed.

Lemma by_ip_spec (a b : Device) :
  dotted_quad (ip a) -> dotted_quad (ip b) ->
  (gt0 (by_ip Number a b) = true -> ip_le b a) /\
  (gt0 (by_ip Number a b) = false -> ip_le a b).
Proof.
  intros (oa & Hla & Ha) (ob & Hlb & Hb). unfold by_ip. rewrite Ha, Hb.
  destruct (ArrayCompareFacts.arrayCompare_octets oa ob) as [H1 H2];
    [congruence|].
  split; intros H; [exists ob, oa | exists oa, ob]; repeat split; auto.
Qed.

Lemma listing_sorted (ipSet : JSSet.t) (table : list Device) :
  Forall dotted_quad ipSet ->
  StronglySorted ip_le (listing Number ipSet table) /\
  Permutation (listing Number ipSet table)
              (filter (FindLocalDevice.in_set ipSet) table).
Proof.
  intros Hset. split; [|apply SortFacts.sort_Permutation].
  apply Sorted_StronglySorted; [intros a b c; apply ip_le_trans|].
  apply (SortFacts.sort_Sorted (by_ip Number) ip_le
           (fun d => dotted_quad (ip d))).
  - intros x y Hx Hy. apply (by_ip_spec x y Hx Hy).
  - intros x y Hx Hy. apply (by_ip_spec x y Hx Hy).
  - apply Forall_forall. intros d Hd. apply filter_In in Hd as [_ Hd].
    rewrite Forall_forall in Hset. apply Hset.
    now apply JSSetFacts.has_In.
Qed.

Record inv (S : JSSet.t) (s : state) : Prop := {
  inv_set : ipSet s = S;
  inv_returned :
    forall devices, at_ s = Returned devices ->
                    exists table, devices = listing Number S table
}.

Lemma observe_inv S h s : inv S s -> inv S (observe h s).
Proof.
  intros [Hset _]. unfold observe.
  destruct (MapConcurrently.at_ h); constructor; simpl; auto; discriminate.
Qed.

Lemma step_keeps_listing S e s s' : inv S s -> step Number e s = Some s' -> inv S s'.
Proof.
  intros Hinv. pose proof (inv_set S s Hinv) as Hset. unfold step.
  destruct (at_ s); try discriminate.
  - destruct e as [|k|r]; try discriminate.
    + destruct (MapConcurrently.step _ _ _); [|discriminate].
      intros H; inversion H; subst. now apply observe_inv.
    + destruct (MapConcurrently.step _ _ _); [|discriminate].
      intros H; inversion H; subst. now apply observe_inv.
  - destruct e as [|k|r]; try discriminate.
    destruct r; intros H; inversion H; subst; constructor; simpl; auto;
      try discriminate.
    intros devices' E. inversion E; subst. now exists devices.
Qed.

Lemma getLocalDeviceList_inv limit S : inv S (getLocalDeviceList limit S).
Proof. constructor; simpl; auto. discriminate. Qed.

(** Whatever array is returned is sorted, and holds the entries of some
    table read that lie in the set. *)
Lemma returned_sorted limit (ipSet : JSSet.t) tr s devices :
  Forall dotted_quad ipSet ->
  run (step Number) tr (getLocalDeviceList limit ipSet) = Some s ->
  at_ s = Returned devices ->
  StronglySorted ip_le devices /\
  exists table,
    Permutation devices (filter (FindLocalDevice.in_set ipSet) table).
Proof.
  intros Hset Hrun Hat.
  assert (inv ipSet s) as Hinv.
  { eapply run_invariant; [|apply (getLocalDeviceList_inv limit)|exact Hrun].
    intros e s1 s2; apply step_keeps_listing. }
  destruct (inv_returned ipSet s Hinv devices Hat) as (table & ->).
  destruct (listing_sorted ipSet table Hset) as [H1 H2].
  split; [exact H1 | now exists table].
Qed.

(** Once the scheduler is drained, any table read is answered by a return. *)
Lemma table_returns s table :
  at_ s = AwaitTable ->
  exists s', step Number (Table (Entries table)) s = Some s' /\
             at_ s' = Returned (listing Number (ipSet s) table).
Proof. intros Hat. unfold step. rewrite Hat. eexists; split; reflexivity. Qed.

End Sorted.
End ListFacts.

Module ListExamples.
Open Scope string_scope.

Definition addresses : list string := ["10.0.0.10"; "10.0.0.2"; "10.0.0.9"].

Definition table : list Device :=
  [ ScanExamples.device "10.0.0.10" "aa:bb:cc:00:00:0a";
    ScanExamples.device "10.0.7.7" "aa:bb:cc:00:07:07";
    ScanExamples.device "10.0.0.2" "aa:bb:cc:00:00:02";
    ScanExamples.device "10.0.0.9" "aa:bb:cc:00:00:09" ].

(** The three probes settle in turn, then the table is read. *)
Definition drain_then_read : list GetLocalDeviceList.event :=
  [ GetLocalDeviceList.Next; GetLocalDeviceList.Settle 0;
    GetLocalDeviceList.Next; GetLocalDeviceList.Settle 1;
    GetLocalDeviceList.Next; GetLocalDeviceList.Settle 2;
    GetLocalDeviceList.Next; GetLocalDeviceList.Table (Entries table) ].

Definition sorted_addresses : list string := ["10.0.0.2"; "10.0.0.9"; "10.0.0.10"].

Close Scope string_scope.
End ListExamples.

(** C7: whatever the table holds, the array that [getLocalDeviceList]
    computes from it for a set of dotted-quad addresses, and hence any array
    it returns, is sorted ascending by the numeric order on octets and is a
    rearrangement of the table entries that lie in the set; on the entries
    10.0.0.10, 10.0.0.2 and 10.0.0.9 it is 10.0.0.2, 10.0.0.9, 10.0.0.10. *)
Theorem getLocalDeviceList_sorted_by_ip :
  (forall (Number : option string -> num) (ipSet : JSSet.t)
          (table : list Device),
     Forall (ListFacts.dotted_quad Number) ipSet ->
     StronglySorted (ListFacts.ip_le Number)
                    (GetLocalDeviceList.listing Number ipSet table) /\
     Permutation (GetLocalDeviceList.listing Number ipSet table)
                 (filter (FindLocalDevice.in_set ipSet) table)) /\
  (forall (Number : option string -> num)
          (LOCAL_DEVICES_MAX_CONCURRENT : option string)
          (ipSet : JSSet.t) (tr : list GetLocalDeviceList.event)
          (s : GetLocalDeviceList.state) (devices : list Device),
     Forall (ListFacts.dotted_quad Number) ipSet ->
     run (GetLocalDeviceList.step Number) tr
         (GetLocalDeviceList.getLocalDeviceList
            (MAX_CONCURRENT Number LOCAL_DEVICES_MAX_CONCURRENT) ipSet) = Some s ->
     GetLocalDeviceList.at_ s = GetLocalDeviceList.Returned devices ->
     StronglySorted (ListFacts.ip_le Number) devices /\
     exists table,
       Permutation devices (filter (FindLocalDevice.in_set ipSet) table)) /\
  (exists s devices,
     run (GetLocalDeviceList.step NumberModel.Number)
         ListExamples.drain_then_read
         (GetLocalDeviceList.getLocalDeviceList
            (MAX_CONCURRENT NumberModel.Number None)
            (JSSet.of_array ListExamples.addresses)) = Some s /\
     GetLocalDeviceList.at_ s = GetLocalDeviceList.Returned devices /\
     map ip devices = ListExamples.sorted_addresses).
Proof.
  split; [|split].
  - intros Number ipSet table. apply ListFacts.listing_sorted.
  - intros Number env ipSet tr s devices. apply ListFacts.returned_sorted.
  - eexists. eexists. split; [vm_compute; reflexivity|].
    split; reflexivity.
Qed.

Lemma getLocalDeviceList_sorted_by_ip_witness :
  exists s devices,
    run (GetLocalDeviceList.step NumberModel.Number)
        ListExamples.drain_then_read
        (GetLocalDeviceList.getLocalDeviceList
           (MAX_CONCURRENT NumberModel.Number None)
           (JSSet.of_array ListExamples.addresses)) = Some s /\
    GetLocalDeviceList.at_ s = GetLocalDeviceList.Returned devices /\
    map ip devices = ListExamples.sorted_addresses /\
    StronglySorted (ListFacts.ip_le NumberModel.Number) devices.
Proof.
  eexists. eexists. split; [vm_compute; reflexivity|].
  split; [reflexivity|]. split; [reflexivity|].
  eapply (proj1 (proj2 getLocalDeviceList_sorted_by_ip) NumberModel.Number None
            (JSSet.of_array ListExamples.addresses)
            ListExamples.drain_then_read).
  - repeat constructor.
    + now exists [10; 0; 0; 10]%Z.
    + now exists [10; 0; 0; 2]%Z.
    + now exists [10; 0; 0; 9]%Z.
  - vm_compute; reflexivity.
  - reflexivity.
Defined.

(** ** MAC addresses *)


Module MacFacts.

(** Lower-casing first and keeping [[0-9a-f]] keeps the hexadecimal digits. *)
Lemma lower_then_keep (c : ascii) :
  Str.in_0_9a_f (Str.lower c) = is_hex_digit c.
Proof.
  destruct c as [[] [] [] [] [] [] [] []]; vm_compute; reflexivity.
Qed.

Lemma toHex_normalized (mac : string) : toHex mac = normalized mac.
Proof.
  unfold toHex, normalized.
  induction mac as [|c mac IH]; simpl; [reflexivity|].
  rewrite lower_then_keep. destruct (is_hex_digit c); simpl; now rewrite IH.
Qed.

Lemma matches_spec (macOrIP : string) (device : Device) :
  FindLocalDevice.matches macOrIP device = true <->
  normalized (mac device) = normalized macOrIP \/ ip device = macOrIP.
Proof.
  unfold FindLocalDevice.matches.
  rewrite orb_true_iff, !String.eqb_eq, !toHex_normalized. reflexivity.
Qed.

End MacFacts.

Open Scope string_scope.

(** C8: in [findLocalDevice] the MAC of a device matches the query exactly
    when the two are equal after normalisation (a device also matches when
    its [ip] is the query); [AA:BB:CC:DD:EE:FF] matches the table entry
    [aabbccddeeff], which the search over the cached table returns. *)
Theorem mac_comparison_is_normalized :
  (forall query mac_ : string,
     String.eqb (toHex mac_) (toHex query) = true <->
     normalized mac_ = normalized query) /\
  (forall (macOrIP : string) (device : Device),
     FindLocalDevice.matches macOrIP device = true <->
     normalized (mac device) = normalized macOrIP \/ ip device = macOrIP) /\
  toHex "AA:BB:CC:DD:EE:FF" = toHex "aabbccddeeff" /\
  (forall limit,
     option_map FindLocalDevice.at_
       (FindLocalDevice.step limit
          (FindLocalDevice.Table
             (Entries [ScanExamples.device "10.0.0.7" "aabbccddeeff"]))
          (FindLocalDevice.findLocalDevice "AA:BB:CC:DD:EE:FF" ["10.0.0.7"]))
     = Some (FindLocalDevice.Returned
               (Some (ScanExamples.device "10.0.0.7" "aabbccddeeff")))).
Proof.
  split; [|split; [|split]].
  - intros query mac_. now rewrite String.eqb_eq, !MacFacts.toHex_normalized.
  - apply MacFacts.matches_spec.
  - reflexivity.
  - intros limit. reflexivity.
Qed.

Close Scope string_scope.

(** ** [findLocalDevice]: the cache comes first *)

Module FindFacts.
Import FindLocalDevice.

(** After the return nothing changes any more. *)
Lemma returned_final limit tr s s' r :
  at_ s = Returned r -> run (step limit) tr s = Some s' -> s' = s.
Proof.
  intros Hat. revert s'. induction tr as [|e tr IH]; intros s' H; simpl in H.
  - now inversion H.
  - unfold step in H. rewrite Hat in H.
    destruct e; try discriminate. now apply IH.
Qed.

End FindFacts.

(** C9: if the table read by [arpTable], restricted to the set, holds a
    device that matches the query, [findLocalDevice] returns the first such
    device as soon as the table arrives; no scan session is created, [ping]
    is called on no address, and nothing that happens later changes that. *)
Theorem findLocalDevice_cache_hit
  (Number : option string -> num) (LOCAL_DEVICES_MAX_CONCURRENT : option string)
  (macOrIP : string) (ipSet : JSSet.t) (table : list Device) (device : Device) :
  In device (filter (FindLocalDevice.in_set ipSet) table) ->
  FindLocalDevice.matches macOrIP device = true ->
  exists hit s,
    find (FindLocalDevice.matches macOrIP)
         (filter (FindLocalDevice.in_set ipSet) table) = Some hit /\
    In hit table /\ JSSet.has ipSet (ip hit) = true /\
    FindLocalDevice.matches macOrIP hit = true /\
    FindLocalDevice.step (MAX_CONCURRENT Number LOCAL_DEVICES_MAX_CONCURRENT)
      (FindLocalDevice.Table (Entries table))
      (FindLocalDevice.findLocalDevice macOrIP ipSet) = Some s /\
    FindLocalDevice.at_ s = FindLocalDevice.Returned (Some hit) /\
    FindLocalDevice.session s = None /\
    FindLocalDevice.probes s = [] /\
    (forall tr s',
       run (FindLocalDevice.step
              (MAX_CONCURRENT Number LOCAL_DEVICES_MAX_CONCURRENT)) tr s = Some s' ->
       FindLocalDevice.probes s' = [] /\
       FindLocalDevice.at_ s' = FindLocalDevice.Returned (Some hit)).
Proof.
  intros Hin Hmatch.
  destruct (find (FindLocalDevice.matches macOrIP)
              (filter (FindLocalDevice.in_set ipSet) table)) as [hit|] eqn:E.
  - pose proof (find_some _ _ E) as [Hhit Hm].
    apply filter_In in Hhit as [Hhit Hset].
    eexists hit, _. split; [reflexivity|].
    split; [exact Hhit|]. split; [exact Hset|]. split; [exact Hm|].
    split; [unfold FindLocalDevice.step; simpl; rewrite E; reflexivity|].
    split; [reflexivity|]. split; [reflexivity|]. split; [reflexivity|].
    intros tr s' Hrun.
    apply (FindFacts.returned_final _ tr _ s' (Some hit)) in Hrun; [|reflexivity].
    subst s'. split; reflexivity.
  - exfalso. pose proof (find_none _ _ E device Hin). congruence.
Qed.

Open Scope string_scope.

Lemma findLocalDevice_cache_hit_witness :
  exists hit s,
    FindLocalDevice.step (MAX_CONCURRENT NumberModel.Number None)
      (FindLocalDevice.Table (Entries ListExamples.table))
      (FindLocalDevice.findLocalDevice "AA-BB-CC-00-00-09"
         (JSSet.of_array ListExamples.addresses)) = Some s /\
    FindLocalDevice.at_ s = FindLocalDevice.Returned (Some hit) /\
    ip hit = "10.0.0.9" /\
    FindLocalDevice.probes s = [].
Proof.
  destruct (findLocalDevice_cache_hit NumberModel.Number None
              "AA-BB-CC-00-00-09" (JSSet.of_array ListExamples.addresses)
              ListExamples.table
              (ScanExamples.device "10.0.0.9" "aa:bb:cc:00:00:09"))
    as (hit & s & Hfind & _ & _ & _ & Hstep & Hat & _ & Hprobes & _).
  - vm_compute. tauto.
  - reflexivity.
  - exists hit, s. vm_compute in Hfind. inversion Hfind; subst hit.
    repeat split; assumption || reflexivity.
Defined.

Close Scope string_scope.

(** ** The limit used by the scheduler *)

Module LimitFacts.

Lemma or_falsy (a b : num) : truthy a = false -> Num.or a b = b.
Proof. unfold Num.or. now intros ->. Qed.

Lemma or_truthy (a b : num) : truthy a = true -> Num.or a b = a.
Proof. unfold Num.or. now intros ->. Qed.

Lemma truthy_Fin (q : Q) : truthy (Fin q) = false <-> (q == 0)%Q.
Proof.
  unfold truthy, Qeq; simpl. rewrite negb_false_iff, Z.eqb_eq. lia.
Qed.

(** The scheduler never changes its limit. *)
Lemma step_n {X Y} (f : X -> outcome Y) e
  (h h' : @MapConcurrently.state X Y) :
  MapConcurrently.step f e h = Some h' ->
  MapConcurrently.n h' = MapConcurrently.n h.
Proof.
  unfold MapConcurrently.step.
  destruct (MapConcurrentlyFacts.loop_fields (MapConcurrently.start f h))
    as (_ & _ & L1 & _).
  destruct e as [|k].
  - destruct (MapConcurrently.at_ h) as [| |i v| |]; intros H; inversion H; subst; auto.
    + rewrite L1. unfold MapConcurrently.start.
      now destruct (MapConcurrently.takeFromIter _ _).
    + destruct (MapConcurrentlyFacts.loop_fields (MapConcurrently.refill f i h))
        as (_ & _ & L2 & _).
      rewrite L2. unfold MapConcurrently.refill.
      now destruct (MapConcurrently.it h).
  - destruct (JSMap.get _ k) as [p|]; [|discriminate].
    destruct (settled p); [discriminate|].
    destruct (MapConcurrentlyFacts.mark_fields k h) as (_ & _ & M & _).
    destruct (MapConcurrentlyFacts.race_step_fields (MapConcurrently.mark k h))
      as (_ & _ & R & _).
    destruct (MapConcurrently.at_ h); intros H; inversion H; subst; congruence.
Qed.

Lemma scan_limit limit (ipSet : JSSet.t) tr s :
  run Scan.step tr (Scan.scan limit ipSet) = Some s ->
  MapConcurrently.n (Scan.hosts s) = limit.
Proof.
  intros Hrun.
  apply (ScanFacts.hosts_invariant (fun h => MapConcurrently.n h = limit))
    with (tr := tr) (s := Scan.scan limit ipSet); [|reflexivity|exact Hrun].
  intros e h h' Hn Hstep. rewrite <- Hn. now apply (step_n Ping.worker e).
Qed.

Lemma list_limit Number limit (ipSet : JSSet.t) tr s :
  run (GetLocalDeviceList.step Number) tr
      (GetLocalDeviceList.getLocalDeviceList limit ipSet) = Some s ->
  MapConcurrently.n (GetLocalDeviceList.hosts s) = limit.
Proof.
  apply (run_invariant (GetLocalDeviceList.step Number)
           (fun s => MapConcurrently.n (GetLocalDeviceList.hosts s) = limit));
    [|reflexivity].
  intros e s1 s2 Hn. unfold GetLocalDeviceList.step.
  assert (forall h, MapConcurrently.n h = limit ->
            MapConcurrently.n
              (GetLocalDeviceList.hosts (GetLocalDeviceList.observe h s1)) = limit)
    as Hobs.
  { intros h Hh. unfold GetLocalDeviceList.observe.
    now destruct (MapConcurrently.at_ h). }
  destruct (GetLocalDeviceList.at_ s1); try discriminate.
  - destruct e as [|k|r]; try discriminate.
    + destruct (MapConcurrently.step _ _ _) as [h|] eqn:E; [|discriminate].
      intros H; injection H as <-. apply Hobs.
      rewrite <- Hn. now apply (step_n Ping.worker Gen.Next).
    + destruct (MapConcurrently.step _ _ _) as [h|] eqn:E; [|discriminate].
      intros H; injection H as <-. apply Hobs.
      rewrite <- Hn. now apply (step_n Ping.worker (Gen.Settle k)).
  - destruct e as [|k|r]; try discriminate.
    destruct r; intros H; injection H as <-; exact Hn.
Qed.

End LimitFacts.

Open Scope string_scope.

(** C10: [MAX_CONCURRENT] is [Number(v) || 32] for the environment value
    [v].  It is 32 whenever [Number(v)] is [NaN] or zero, as for an unset
    variable, the empty string and ['0']; any other number, negative,
    fractional or infinite, is the limit as it is; and that value is the
    limit of the scheduler inside [scan] and [getLocalDeviceList]. *)
Theorem MAX_CONCURRENT_is_Number_or_32
  (Number : option string -> num) (v : option string) :
  MAX_CONCURRENT Number v = Num.or (Number v) (Fin 32) /\
  (Number v = NaN -> MAX_CONCURRENT Number v = Fin 32) /\
  (forall q, Number v = Fin q -> (q == 0)%Q -> MAX_CONCURRENT Number v = Fin 32) /\
  (forall q, Number v = Fin q -> ~ (q == 0)%Q -> MAX_CONCURRENT Number v = Fin q) /\
  (forall negative,
     Number v = Inf negative -> MAX_CONCURRENT Number v = Inf negative) /\
  (Number None = NaN -> MAX_CONCURRENT Number None = Fin 32) /\
  (Number (Some "") = Fin 0 -> MAX_CONCURRENT Number (Some "") = Fin 32) /\
  (Number (Some "0") = Fin 0 -> MAX_CONCURRENT Number (Some "0") = Fin 32) /\
  (forall ipSet tr s,
     run Scan.step tr (Scan.scan (MAX_CONCURRENT Number v) ipSet) = Some s ->
     MapConcurrently.n (Scan.hosts s) = MAX_CONCURRENT Number v) /\
  (forall ipSet tr s,
     run (GetLocalDeviceList.step Number) tr
         (GetLocalDeviceList.getLocalDeviceList (MAX_CONCURRENT Number v) ipSet)
       = Some s ->
     MapConcurrently.n (GetLocalDeviceList.hosts s) = MAX_CONCURRENT Number v).
Proof.
  unfold MAX_CONCURRENT.
  repeat match goal with |- _ /\ _ => split end.
  - reflexivity.
  - intros ->. reflexivity.
  - intros q -> Hq. apply LimitFacts.or_falsy. now apply LimitFacts.truthy_Fin.
  - intros q -> Hq. apply LimitFacts.or_truthy.
    destruct (truthy (Fin q)) eqn:E; [reflexivity|].
    apply LimitFacts.truthy_Fin in E. contradiction.
  - intros negative ->. reflexivity.
  - intros ->. reflexivity.
  - intros ->. reflexivity.
  - intros ->. reflexivity.
  - intros ipSet tr s. apply LimitFacts.scan_limit.
  - intros ipSet tr s. apply LimitFacts.list_limit.
Qed.

Lemma MAX_CONCURRENT_is_Number_or_32_witness :
  MAX_CONCURRENT NumberModel.Number None = Fin 32 /\
  MAX_CONCURRENT NumberModel.Number (Some "") = Fin 32 /\
  MAX_CONCURRENT NumberModel.Number (Some "0") = Fin 32 /\
  MAX_CONCURRENT NumberModel.Number (Some "abc") = Fin 32 /\
  MAX_CONCURRENT NumberModel.Number (Some "-1") = Fin (-1) /\
  MAX_CONCURRENT NumberModel.Number (Some "8") = Fin 8 /\
  MAX_CONCURRENT (fun _ => Fin (3 # 2)) (Some "1.5") = Fin (3 # 2) /\
  exists s,
    run Scan.step ScanExamples.two_hosts
        (Scan.scan (MAX_CONCURRENT NumberModel.Number (Some "8"))
                   ["10.0.0.1"; "10.0.0.2"]) = Some s /\
    MapConcurrently.n (Scan.hosts s) = Fin 8.
Proof.
  pose proof (MAX_CONCURRENT_is_Number_or_32 NumberModel.Number) as H.
  split; [apply (H None); reflexivity|].
  split; [apply (H (Some "")); reflexivity|].
  split; [apply (H (Some "0")); reflexivity|].
  split; [apply (H (Some "abc")); reflexivity|].
  split.
  { destruct (H (Some "-1")) as (_ & _ & _ & Hq & _).
    apply (Hq (inject_Z (-1))); [reflexivity | discriminate]. }
  split.
  { destruct (H (Some "8")) as (_ & _ & _ & Hq & _).
    apply (Hq (inject_Z 8)); [reflexivity | discriminate]. }
  split.
  { destruct (MAX_CONCURRENT_is_Number_or_32 (fun _ => Fin (3 # 2)) (Some "1.5"))
      as (_ & _ & _ & Hq & _).
    apply (Hq (3 # 2)%Q); [reflexivity | discriminate]. }
  eexists. split; [vm_compute; reflexivity|].
  destruct (H (Some "8")) as (_ & _ & _ & _ & _ & _ & _ & _ & Hscan & _).
  change (Fin 8) with (MAX_CONCURRENT NumberModel.Number (Some "8")).
  apply (Hscan ["10.0.0.1"; "10.0.0.2"] ScanExamples.two_hosts).
  vm_compute; reflexivity.
Defined.

Close Scope string_scope.

(** * Further properties of the code *)

(** ** [takeFromIter] *)

Module TakeFacts.
Import MapConcurrently.
Section Take.
Context {X : Type}.

(** For a finite limit [n] with [K - 1 < n <= K], the loop runs exactly [K]
    times unless the iterator runs out. *)
Lemma takeFromIter_Fin (xs : list X) (q : Q) (K : nat) :
  (inject_Z (Z.of_nat K) - 1 < q)%Q -> (q <= inject_Z (Z.of_nat K))%Q ->
  takeFromIter xs (Fin q) = (firstn K xs, skipn K xs).
Proof.
  revert q K; induction xs as [|x xs IH]; intros q K Hlo Hhi.
  - simpl. destruct (0 <? Qnum q)%Z; now rewrite firstn_nil, skipn_nil.
  - cbn [takeFromIter gt0]. destruct (0 <? Qnum q)%Z eqn:E.
    + apply Z.ltb_lt in E.
      assert (0 < q)%Q as Hpos by (unfold Qlt; simpl; lia).
      destruct K as [|K].
      { exfalso. change (inject_Z (Z.of_nat 0)) with 0%Q in Hhi. lra. }
      assert (inject_Z (Z.of_nat (S K)) == inject_Z (Z.of_nat K) + 1)%Q as HS.
      { rewrite Nat2Z.inj_succ. unfold Z.succ. rewrite inject_Z_plus. reflexivity. }
      change (Num.pred (Fin q)) with (Fin (q - 1)).
      rewrite (IH (q - 1)%Q K) by lra. reflexivity.
    + apply Z.ltb_ge in E.
      assert (q <= 0)%Q as Hneg by (unfold Qle; simpl; lia).
      destruct K as [|K]; [reflexivity|].
      exfalso.
      assert (inject_Z (Z.of_nat (S K)) == inject_Z (Z.of_nat K) + 1)%Q as HS.
      { rewrite Nat2Z.inj_succ. unfold Z.succ. rewrite inject_Z_plus. reflexivity. }
      assert (0 <= inject_Z (Z.of_nat K))%Q.
      { change 0%Q with (inject_Z 0). rewrite <- Zle_Qle. lia. }
      lra.
Qed.

Lemma takeFromIter_Inf (xs : list X) : takeFromIter xs (Inf false) = (xs, []).
Proof.
  induction xs as [|x xs IH]; [reflexivity|].
  cbn [takeFromIter gt0 negb]. change (Num.pred (Inf false)) with (Inf false).
  now rewrite IH.
Qed.

End Take.
End TakeFacts.

(** X1: [takeFromIter(it, n)] for a finite [n] with [K - 1 < n <= K] returns
    the first [K] elements of the iterator, all of them when there are fewer,
    and leaves the iterator on the rest: a limit that is not whole is
    rounded up. *)
Theorem takeFromIter_takes_the_limit_rounded_up
  {X : Type} (xs : list X) (q : Q) (K : nat) :
  (inject_Z (Z.of_nat K) - 1 < q)%Q -> (q <= inject_Z (Z.of_nat K))%Q ->
  MapConcurrently.takeFromIter xs (Fin q) = (firstn K xs, skipn K xs) /\
  length (fst (MapConcurrently.takeFromIter xs (Fin q))) = Nat.min K (length xs).
Proof.
  intros Hlo Hhi. rewrite (TakeFacts.takeFromIter_Fin xs q K Hlo Hhi).
  split; [reflexivity|]. simpl. apply length_firstn.
Qed.

Lemma takeFromIter_takes_the_limit_rounded_up_witness :
  MapConcurrently.takeFromIter [1; 2; 3] (Fin (3 # 2)) = ([1; 2], [3]) /\
  MapConcurrently.takeFromIter [1; 2; 3] (Fin 5) = ([1; 2; 3], []).
Proof.
  split.
  - apply (takeFromIter_takes_the_limit_rounded_up [1; 2; 3] (3 # 2)%Q 2);
      unfold Qlt, Qle; simpl; lia.
  - apply (takeFromIter_takes_the_limit_rounded_up [1; 2; 3] 5%Q 5);
      unfold Qlt, Qle; simpl; lia.
Defined.

(** X2: a limit that is not positive ([NaN], zero, a negative number,
    [-Infinity]) takes nothing and does not advance the iterator;
    [Infinity] takes everything. *)
Theorem takeFromIter_at_the_ends {X : Type} (xs : list X) :
  (forall n, gt0 n = false -> MapConcurrently.takeFromIter xs n = ([], xs)) /\
  MapConcurrently.takeFromIter xs NaN = ([], xs) /\
  MapConcurrently.takeFromIter xs (Inf true) = ([], xs) /\
  (forall q, (q <= 0)%Q -> MapConcurrently.takeFromIter xs (Fin q) = ([], xs)) /\
  MapConcurrently.takeFromIter xs (Inf false) = (xs, []).
Proof.
  split; [|split; [|split; [|split]]].
  - intros n. apply MapConcurrentlyFacts.takeFromIter_not_gt0.
  - now apply MapConcurrentlyFacts.takeFromIter_not_gt0.
  - now apply MapConcurrentlyFacts.takeFromIter_not_gt0.
  - intros q Hq. apply MapConcurrentlyFacts.takeFromIter_not_gt0.
    unfold Qle in Hq; simpl in *. apply Z.ltb_ge. lia.
  - apply TakeFacts.takeFromIter_Inf.
Qed.

Lemma takeFromIter_at_the_ends_witness :
  MapConcurrently.takeFromIter [1; 2; 3] (Fin (-1)) = ([], [1; 2; 3]) /\
  MapConcurrently.takeFromIter [1; 2; 3] (Fin 0) = ([], [1; 2; 3]).
Proof.
  destruct (takeFromIter_at_the_ends [1; 2; 3]) as (H & _ & _ & Hq & _).
  split; [apply Hq; unfold Qle; simpl; lia | apply H; reflexivity].
Defined.

(** ** What [mapConcurrently] yields *)

Module SchedulerResults.
Import Gen JSMap JSMapFacts MapConcurrently MapConcurrentlyFacts.
Section Results.
Context {X Y : Type}.
Variable f : X -> outcome Y.
Implicit Types (s : @state X Y) (m : JSMap.t (promise (nat * Y))).

(** What a promise of the window will hand to the generator, without its
    slot number. *)
Definition untag (p : promise (nat * Y)) : outcome Y := then_ (eventual p) snd.

Definition in_window m : list (outcome Y) := map untag (values m).

Lemma untag_task i x : untag (task f i x) = f x.
Proof. unfold untag, task, pending_promise, then_, index; simpl. now destruct (f x). Qed.

Lemma values_first_batch (batch : list X) i :
  map untag (map snd (entries (of_array_from i (tasks_from f i batch)))) = map f batch.
Proof.
  revert i; induction batch as [|x batch IH]; intros i; simpl; [reflexivity|].
  now rewrite untag_task, IH.
Qed.

Lemma keys_first_batch (batch : list X) i :
  Forall (fun kv => fst kv < i + length batch)
         (entries (of_array_from i (tasks_from f i batch))).
Proof.
  revert i; induction batch as [|x batch IH]; intros i; simpl; constructor.
  - simpl. lia.
  - specialize (IH (S i)). eapply Forall_impl; [|exact IH].
    intros kv H. simpl in H. lia.
Qed.

Lemma delete_one m k p :
  wf m -> In (k, p) (entries m) ->
  Permutation (entries m) ((k, p) :: entries (delete m k)).
Proof.
  unfold wf. rewrite entries_delete.
  induction (entries m) as [|[k' p'] l IH]; simpl; [easy|].
  intros Hnd; inversion Hnd as [|? ? Hnotin Hnd']; subst.
  intros [E|Hin].
  - inversion E; subst. rewrite Nat.eqb_refl. simpl.
    rewrite ScanProgress.keep_others by exact Hnotin. reflexivity.
  - destruct (k' =? k) eqn:E.
    + apply Nat.eqb_eq in E; subst. exfalso; apply Hnotin.
      apply in_map_iff. now exists (k, p).
    + simpl. rewrite (IH Hnd' Hin) at 1. apply perm_swap.
Qed.

Lemma in_window_delete m k p :
  wf m -> In (k, p) (entries m) ->
  Permutation (in_window m) (untag p :: in_window (delete m k)).
Proof.
  intros Hwf Hin. unfold in_window, values.
  rewrite (delete_one m k p Hwf Hin). reflexivity.
Qed.

Lemma in_window_settle m k p :
  wf m -> get m k = Some p -> in_window (replace m k (settle p)) = in_window m.
Proof.
  intros Hwf Hget. apply get_in in Hget. unfold in_window, values.
  rewrite entries_replace, !map_map. apply map_ext_in.
  intros [k' p'] Hin; simpl. destruct (k' =? k) eqn:E; [|reflexivity].
  apply Nat.eqb_eq in E; subst k'. simpl.
  now rewrite (wf_in_unique m k p' p Hwf Hin Hget).
Qed.

Lemma in_window_set m i x :
  has m i = false -> in_window (set m i (task f i x)) = in_window m ++ [f x].
Proof.
  intros Habs. unfold in_window, values.
  rewrite entries_set_absent by exact Habs.
  rewrite !map_app. simpl. now rewrite untag_task.
Qed.

(** What is kept along every run, for a first batch of [w] workers. *)
Record sound (w : nat) s : Prop := {
  sound_wf : wf (promises s);
  sound_tagged : tagged (promises s);
  sound_vacant :
    forall i v, at_ s = Suspended i v -> has (promises s) i = false /\ i < w;
  sound_fresh : at_ s = Fresh -> calls s = [] /\ yielded s = [] /\ settles s = 0;
  sound_done : at_ s = Done -> entries (promises s) = [];
  sound_keys : Forall (fun kv => fst kv < w) (entries (promises s));
  sound_results :
    Permutation (map f (calls s))
                (map Resolved (yielded s) ++ in_window (promises s));
  sound_settles : length (calls s) = settles s + pending (promises s)
}.

Lemma race_step_sound w s :
  sound w s -> at_ s <> Done -> at_ s <> Fresh ->
  0 < size (promises s) -> sound w (race_step s).
Proof.
  intros [Hwf Htag Hvac Hfresh Hdone Hkeys Hres Hset] Hnd Hnf Hpos. unfold race_step.
  destruct (race (promises s)) as [[[i value]|]|] eqn:E.
  - apply race_some in E as (k & p & Hin & Hs & He).
    assert (i = k) by (eapply Htag; eauto). subst i.
    constructor; simpl.
    + now apply wf_delete.
    + now apply tagged_delete.
    + intros i v H; inversion H; subst. split; [apply has_delete|].
      rewrite Forall_forall in Hkeys. apply (Hkeys (i, p) Hin).
    + discriminate.
    + discriminate.
    + rewrite entries_delete. apply Forall_forall. intros kv Hkv.
      apply filter_In in Hkv as [Hkv _]. rewrite Forall_forall in Hkeys. now apply Hkeys.
    + rewrite Hres, (in_window_delete _ k p Hwf Hin), map_app. simpl.
      assert (untag p = Resolved value) as ->.
      { unfold untag. rewrite He. reflexivity. }
      rewrite <- app_assoc. simpl. apply Permutation_app_head.
      reflexivity.
    + now rewrite (pending_delete_settled _ _ _ Hwf Hin Hs).
  - constructor; simpl; auto; try discriminate.
  - constructor; simpl; auto; try discriminate.
Qed.

Lemma loop_sound w s :
  sound w s -> at_ s <> Done -> at_ s <> Fresh -> sound w (loop s).
Proof.
  intros H Hnd Hnf. unfold loop.
  destruct (size (promises s) =? 0) eqn:Ez.
  - destruct H. constructor; simpl; auto; try discriminate.
    intros _. apply Nat.eqb_eq in Ez. unfold size in Ez.
    now apply length_zero_iff_nil.
  - apply race_step_sound; auto. apply Nat.eqb_neq in Ez. lia.
Qed.

Lemma step_sound (xs : list X) (limit : num) e s s' :
  drawn xs limit s ->
  sound (length (fst (takeFromIter xs limit))) s ->
  step f e s = Some s' ->
  sound (length (fst (takeFromIter xs limit))) s'.
Proof.
  intros Hdrawn Hs. unfold step. destruct e as [|k].
  - destruct (at_ s) as [| |i v| |] eqn:Hat; intros H; inversion H; subst; auto.
    + (* entering the body *)
      destruct (drawn_fresh xs limit s Hdrawn Hat) as (Hit & Hc & Hp).
      destruct (sound_fresh _ s Hs Hat) as (_ & Hy & Hz).
      assert (sound (length (fst (takeFromIter xs limit)))
                {| it := it (start f s); n := n (start f s);
                   promises := promises (start f s); at_ := Awaiting;
                   yielded := yielded (start f s); calls := calls (start f s);
                   settles := settles (start f s) |}) as H0.
      { unfold start. rewrite Hit, (drawn_n xs limit s Hdrawn), Hc, Hy.
        destruct (takeFromIter xs limit) as [batch it']; simpl.
        constructor; simpl; try discriminate.
        - apply wf_of_array.
        - apply tagged_first_batch.
        - apply (keys_first_batch batch 0).
        - unfold in_window, values, of_array. now rewrite values_first_batch.
        - rewrite Hz. now rewrite pending_first_batch. }
      apply loop_sound in H0; try discriminate. exact H0.
    + (* after a [yield] *)
      destruct (sound_vacant _ s Hs i v Hat) as [Habs Hi].
      assert (sound (length (fst (takeFromIter xs limit)))
                {| it := it (refill f i s); n := n (refill f i s);
                   promises := promises (refill f i s); at_ := Awaiting;
                   yielded := yielded (refill f i s); calls := calls (refill f i s);
                   settles := settles (refill f i s) |}) as H0.
      { destruct Hs as [Hwf Htag Hvac Hfresh Hdone Hkeys Hres Hset].
        unfold refill. destruct (it s) as [|x it']; simpl.
        - constructor; simpl; auto; discriminate.
        - constructor; simpl; try discriminate.
          + now apply wf_set.
          + now apply tagged_task.
          + rewrite entries_set_absent by exact Habs.
            apply Forall_app. split; [exact Hkeys|]. now repeat constructor.
          + rewrite in_window_set by exact Habs.
            rewrite map_app, Hres. simpl. now rewrite app_assoc.
          + unfold pending. rewrite entries_set_absent by exact Habs.
            rewrite filter_app, !length_app; simpl.
            unfold pending in Hset. lia. }
      apply loop_sound in H0; try discriminate. exact H0.
  - destruct (JSMap.get (promises s) k) as [p|] eqn:Hget; [|discriminate].
    destruct (settled p) eqn:Hsp; [discriminate|].
    assert (at_ s <> Fresh) as Hnf.
    { intros E. destruct (drawn_fresh xs limit s Hdrawn E) as (_ & _ & Hp).
      rewrite Hp in Hget. discriminate. }
    assert (at_ s <> Done) as Hnd.
    { intros E. apply (sound_done _ s Hs) in E. apply get_in in Hget.
      rewrite E in Hget. contradiction. }
    assert (sound (length (fst (takeFromIter xs limit))) (mark k s)) as Hm.
    { destruct Hs as [Hwf Htag Hvac Hfresh Hdone Hkeys Hres Hset].
      unfold mark. rewrite Hget. constructor; simpl; auto.
      - now apply wf_replace.
      - now apply tagged_settle.
      - intros i v Hat. destruct (Hvac i v Hat) as [Habs Hi]. split; [|exact Hi].
        apply not_in_has_false. rewrite keys_replace. now apply has_false_not_in.
      - intros E; contradiction.
      - intros E; contradiction.
      - rewrite entries_replace. apply Forall_forall. intros kv Hkv.
        apply in_map_iff in Hkv as [[k' p'] [E Hin]]. simpl in E.
        rewrite Forall_forall in Hkeys. specialize (Hkeys _ Hin). simpl in Hkeys.
        destruct (k' =? k) eqn:Ek; subst kv; simpl; [|exact Hkeys].
        apply Nat.eqb_eq in Ek. now subst.
      - now rewrite in_window_settle.
      - pose proof (pending_settle _ _ _ Hwf Hget Hsp). lia. }
    destruct (mark_fields k s) as (_ & _ & _ & M4).
    intros H.
    assert ((at_ s = Awaiting /\ s' = race_step (mark k s)) \/ s' = mark k s)
      as [[Hat ->] | ->] by (destruct (at_ s); inversion H; auto).
    + apply race_step_sound; auto; try congruence.
      unfold mark. rewrite Hget. simpl. rewrite size_replace.
      apply get_in in Hget. unfold size.
      destruct (entries (promises s)); [contradiction | simpl; lia].
    + exact Hm.
Qed.

Lemma mapConcurrently_sound w (xs : list X) (limit : num) :
  sound w (mapConcurrently xs limit).
Proof.
  constructor; simpl; auto; try discriminate; try constructor.
  now intros [].
Qed.

Lemma run_sound (xs : list X) (limit : num) tr s :
  run (step f) tr (mapConcurrently xs limit) = Some s ->
  drawn xs limit s /\ sound (length (fst (takeFromIter xs limit))) s.
Proof.
  apply (run_invariant (step f)
           (fun s => drawn xs limit s /\
                     sound (length (fst (takeFromIter xs limit))) s)).
  - intros e s1 s2 [Hd Hs] Hstep. split.
    + eapply step_drawn; eauto.
    + eapply step_sound; eauto.
  - split; [apply mapConcurrently_drawn | apply mapConcurrently_sound].
Qed.

(** Once the body has finished or thrown, nothing moves any more. *)
Lemma over_stays tr s s' :
  at_ s = Done \/ at_ s = Threw ->
  run (step f) tr s = Some s' ->
  at_ s' = at_ s /\ yielded s' = yielded s /\ calls s' = calls s /\ it s' = it s.
Proof.
  revert s; induction tr as [|e tr IH]; intros s Hat Hrun; simpl in Hrun.
  - inversion Hrun; subst. auto.
  - destruct (step f e s) as [s1|] eqn:E; [|discriminate].
    assert (at_ s1 = at_ s /\ yielded s1 = yielded s /\
            calls s1 = calls s /\ it s1 = it s) as (A & B & C & D).
    { unfold step in E. destruct e as [|k].
      - destruct Hat as [Hat|Hat]; rewrite Hat in E; inversion E; subst; auto.
      - destruct (JSMap.get (promises s) k) as [p|] eqn:Hget; [|discriminate].
        destruct (settled p); [discriminate|].
        assert (s1 = mark k s) as ->
          by (destruct Hat as [Hat|Hat]; rewrite Hat in E; now inversion E).
        unfold mark. rewrite Hget. simpl. auto. }
    destruct (IH s1) as (A' & B' & C' & D'); [rewrite A; exact Hat | exact Hrun |].
    repeat split; congruence.
Qed.

End Results.
End SchedulerResults.

Section SchedulerExtras.
Context {X Y : Type}.
Variable f : X -> outcome Y.

(** X3: along every run of [mapConcurrently], whatever the limit, the
    workers have been called on an initial part of the input, in input order:
    the arguments of the calls followed by what the iterator still holds are
    the input. *)
Theorem mapConcurrently_calls_in_input_order
  (xs : list X) (limit : num) (tr : list Gen.event) (s : MapConcurrently.state) :
  run (MapConcurrently.step f) tr (MapConcurrently.mapConcurrently xs limit)
    = Some s ->
  MapConcurrently.calls s ++ MapConcurrently.it s = xs.
Proof.
  intros Hrun.
  destruct (SchedulerResults.run_sound f xs limit tr s Hrun)
    as [[Hn Hfresh Hsplit Hdone] _].
  destruct (MapConcurrently.at_ s) eqn:Hat;
    try (apply Hsplit; discriminate).
  destruct (Hfresh eq_refl) as (Hit & Hc & _). now rewrite Hc, Hit.
Qed.

(** X4: along every run the results of the workers called so far are, up
    to order, the values yielded so far together with the outcomes of the
    promises still in the window: nothing is yielded twice and nothing is
    lost; and the worker promises settled so far are those yielded or
    settled in the window. *)
Theorem mapConcurrently_accounts_for_every_call
  (xs : list X) (limit : num) (tr : list Gen.event) (s : MapConcurrently.state) :
  run (MapConcurrently.step f) tr (MapConcurrently.mapConcurrently xs limit)
    = Some s ->
  Permutation
    (map f (MapConcurrently.calls s))
    (map Resolved (MapConcurrently.yielded s) ++
     SchedulerResults.in_window (MapConcurrently.promises s)) /\
  length (MapConcurrently.calls s) =
    MapConcurrently.settles s +
    MapConcurrentlyFacts.pending (MapConcurrently.promises s).
Proof.
  intros Hrun.
  destruct (SchedulerResults.run_sound f xs limit tr s Hrun) as [_ Hs].
  split; [apply (SchedulerResults.sound_results f _ s Hs)
         | apply (SchedulerResults.sound_settles f _ s Hs)].
Qed.

(** X5: when [mapConcurrently] has finished under a positive limit, every
    worker has resolved and the values yielded are, up to order, the results
    of the workers on all the inputs, one value per input. *)
Theorem mapConcurrently_yields_every_result
  (xs : list X) (limit : num) (tr : list Gen.event) (s : MapConcurrently.state) :
  gt0 limit = true ->
  run (MapConcurrently.step f) tr (MapConcurrently.mapConcurrently xs limit)
    = Some s ->
  MapConcurrently.at_ s = Gen.Done ->
  Permutation (map f xs) (map Resolved (MapConcurrently.yielded s)) /\
  length (MapConcurrently.yielded s) = length xs /\
  MapConcurrently.outstanding s = 0.
Proof.
  intros Hpos Hrun Hat.
  destruct (SchedulerResults.run_sound f xs limit tr s Hrun) as [Hd Hs].
  pose proof (MapConcurrentlyFacts.drawn_done_calls xs limit s Hd Hpos Hat) as Hc.
  pose proof (SchedulerResults.sound_results f _ s Hs) as Hres.
  pose proof (SchedulerResults.sound_settles f _ s Hs) as Hset.
  pose proof (SchedulerResults.sound_done f _ s Hs Hat) as He.
  unfold SchedulerResults.in_window, JSMap.values in Hres.
  unfold MapConcurrentlyFacts.pending in Hset.
  rewrite He in Hres, Hset. simpl in Hres, Hset.
  rewrite app_nil_r, Hc in Hres. split; [exact Hres|]. split.
  - apply Permutation_length in Hres. now rewrite !length_map in Hres.
  - unfold MapConcurrently.outstanding. lia.
Qed.

(** X6: slot numbers are reused: along every run, every key of the window
    is below the size of the first batch, which is at most the number of
    inputs. *)
Theorem mapConcurrently_reuses_its_slots
  (xs : list X) (limit : num) (tr : list Gen.event) (s : MapConcurrently.state) :
  run (MapConcurrently.step f) tr (MapConcurrently.mapConcurrently xs limit)
    = Some s ->
  Forall (fun kv => fst kv < length (fst (MapConcurrently.takeFromIter xs limit)))
         (JSMap.entries (MapConcurrently.promises s)) /\
  NoDup (map fst (JSMap.entries (MapConcurrently.promises s))) /\
  length (fst (MapConcurrently.takeFromIter xs limit)) <= length xs.
Proof.
  intros Hrun.
  destruct (SchedulerResults.run_sound f xs limit tr s Hrun) as [_ Hs].
  split; [apply (SchedulerResults.sound_keys f _ s Hs)|].
  split; [apply (SchedulerResults.sound_wf f _ s Hs)|].
  apply MapConcurrentlyFacts.takeFromIter_le_input.
Qed.

(** X7: once [mapConcurrently] has finished, or has thrown because a
    rejected promise won the race, it calls no further worker and yields
    nothing more, whatever happens next; the inputs it had not drawn stay
    undrawn. *)
Theorem mapConcurrently_stops_for_good
  (tr : list Gen.event) (s s' : MapConcurrently.state) :
  MapConcurrently.at_ s = Gen.Done \/ MapConcurrently.at_ s = Gen.Threw ->
  run (MapConcurrently.step f) tr s = Some s' ->
  MapConcurrently.at_ s' = MapConcurrently.at_ s /\
  MapConcurrently.yielded s' = MapConcurrently.yielded s /\
  MapConcurrently.calls s' = MapConcurrently.calls s /\
  MapConcurrently.it s' = MapConcurrently.it s.
Proof. apply SchedulerResults.over_stays. Qed.

End SchedulerExtras.

Module SchedulerExamples.
Open Scope string_scope.

(** A worker that rejects on ["b"]. *)
Definition picky (x : string) : outcome string :=
  if String.eqb x "b" then Rejected else Resolved x.

Definition echo (x : string) : outcome string := Resolved x.

(** Limit 2 over three inputs: the second settles first. *)
Definition second_first : list Gen.event :=
  [Gen.Next; Gen.Settle 1; Gen.Next; Gen.Settle 0; Gen.Next; Gen.Settle 1; Gen.Next].

Close Scope string_scope.
End SchedulerExamples.

Open Scope string_scope.

Lemma mapConcurrently_calls_in_input_order_witness :
  exists s,
    run (MapConcurrently.step SchedulerExamples.echo)
        [Gen.Next; Gen.Settle 1; Gen.Next]
        (MapConcurrently.mapConcurrently ["a"; "b"; "c"; "d"] (of_nat 2)) = Some s /\
    MapConcurrently.calls s = ["a"; "b"; "c"] /\
    (MapConcurrently.calls s ++ MapConcurrently.it s)%list = ["a"; "b"; "c"; "d"].
Proof.
  eexists. split; [vm_compute; reflexivity|]. split; [reflexivity|].
  apply (mapConcurrently_calls_in_input_order SchedulerExamples.echo
           ["a"; "b"; "c"; "d"] (of_nat 2) [Gen.Next; Gen.Settle 1; Gen.Next]).
  vm_compute; reflexivity.
Defined.

Lemma mapConcurrently_accounts_for_every_call_witness :
  exists s,
    run (MapConcurrently.step SchedulerExamples.echo)
        [Gen.Next; Gen.Settle 1; Gen.Next]
        (MapConcurrently.mapConcurrently ["a"; "b"; "c"; "d"] (of_nat 2)) = Some s /\
    MapConcurrently.yielded s = ["b"] /\
    Permutation
      (map SchedulerExamples.echo (MapConcurrently.calls s))
      (map Resolved (MapConcurrently.yielded s) ++
       SchedulerResults.in_window (MapConcurrently.promises s))%list.
Proof.
  eexists. split; [vm_compute; reflexivity|]. split; [reflexivity|].
  apply (mapConcurrently_accounts_for_every_call SchedulerExamples.echo
           ["a"; "b"; "c"; "d"] (of_nat 2) [Gen.Next; Gen.Settle 1; Gen.Next]).
  vm_compute; reflexivity.
Defined.

Lemma mapConcurrently_yields_every_result_witness :
  exists s,
    run (MapConcurrently.step SchedulerExamples.echo)
        SchedulerExamples.second_first
        (MapConcurrently.mapConcurrently ["a"; "b"; "c"] (of_nat 2)) = Some s /\
    MapConcurrently.yielded s = ["b"; "a"; "c"] /\
    Permutation (map SchedulerExamples.echo ["a"; "b"; "c"])
                (map Resolved (MapConcurrently.yielded s)).
Proof.
  eexists. split; [vm_compute; reflexivity|]. split; [reflexivity|].
  apply (mapConcurrently_yields_every_result SchedulerExamples.echo
           ["a"; "b"; "c"] (of_nat 2) SchedulerExamples.second_first);
    [reflexivity | vm_compute; reflexivity | reflexivity].
Defined.

Lemma mapConcurrently_reuses_its_slots_witness :
  exists s,
    run (MapConcurrently.step SchedulerExamples.echo)
        [Gen.Next; Gen.Settle 1; Gen.Next]
        (MapConcurrently.mapConcurrently ["a"; "b"; "c"; "d"] (of_nat 2)) = Some s /\
    map fst (JSMap.entries (MapConcurrently.promises s)) = [0; 1] /\
    Forall (fun kv => fst kv < 2) (JSMap.entries (MapConcurrently.promises s)).
Proof.
  eexists. split; [vm_compute; reflexivity|]. split; [reflexivity|].
  apply (mapConcurrently_reuses_its_slots SchedulerExamples.echo
           ["a"; "b"; "c"; "d"] (of_nat 2) [Gen.Next; Gen.Settle 1; Gen.Next]).
  vm_compute; reflexivity.
Defined.

(** The worker on ["b"] rejects and settles first: ["c"] is never drawn. *)
Lemma mapConcurrently_stops_for_good_witness :
  exists s s',
    run (MapConcurrently.step SchedulerExamples.picky) [Gen.Next; Gen.Settle 1]
        (MapConcurrently.mapConcurrently ["a"; "b"; "c"] (of_nat 2)) = Some s /\
    MapConcurrently.at_ s = Gen.Threw /\
    run (MapConcurrently.step SchedulerExamples.picky)
        [Gen.Next; Gen.Settle 0; Gen.Next] s = Some s' /\
    MapConcurrently.yielded s' = [] /\
    MapConcurrently.calls s' = ["a"; "b"] /\
    MapConcurrently.it s' = ["c"].
Proof.
  eexists. eexists. split; [vm_compute; reflexivity|].
  match goal with |- MapConcurrently.at_ ?a = _ /\ _ => set (s := a) end.
  split; [reflexivity|]. split; [vm_compute; reflexivity|].
  match goal with |- MapConcurrently.yielded ?b = _ /\ _ => set (s' := b) end.
  destruct (mapConcurrently_stops_for_good SchedulerExamples.picky
              [Gen.Next; Gen.Settle 0; Gen.Next] s s')
    as (_ & Hy & Hc & Hi);
    [right; reflexivity | vm_compute; reflexivity |].
  repeat split; assumption.
Defined.

Close Scope string_scope.

(** ** What a scan looks up *)

Module ScanLookups.
Import Scan.

Section Yields.
Context {X Y : Type}.
Variable f : X -> outcome Y.
Implicit Types h : @MapConcurrently.state X Y.

(** What a step of the scheduler that ends at a [yield] has yielded. *)
Definition handed_over h h' : Prop :=
  match MapConcurrently.at_ h' with
  | Gen.Suspended _ value =>
      MapConcurrently.yielded h' = MapConcurrently.yielded h ++ [value]
  | Gen.Fresh => False
  | _ => MapConcurrently.yielded h' = MapConcurrently.yielded h
  end.

Lemma race_step_yield h :
  MapConcurrently.at_ h <> Gen.Fresh ->
  (forall i v, MapConcurrently.at_ h <> Gen.Suspended i v) ->
  handed_over h (MapConcurrently.race_step h).
Proof.
  intros _ _. unfold handed_over, MapConcurrently.race_step.
  destruct (race (MapConcurrently.promises h)) as [[[i v]|]|]; reflexivity.
Qed.

Lemma loop_yield h : handed_over h (MapConcurrently.loop h).
Proof.
  unfold MapConcurrently.loop.
  destruct (JSMap.size (MapConcurrently.promises h) =? 0); [reflexivity|].
  unfold handed_over, MapConcurrently.race_step.
  destruct (race (MapConcurrently.promises h)) as [[[i v]|]|]; reflexivity.
Qed.

Lemma next_yield h h' :
  MapConcurrently.step f Gen.Next h = Some h' ->
  MapConcurrently.at_ h <> Gen.Done -> MapConcurrently.at_ h <> Gen.Threw ->
  handed_over h h'.
Proof.
  unfold MapConcurrently.step.
  destruct (MapConcurrently.at_ h) as [| |i v| |] eqn:Hat; try discriminate;
    intros H ND NT; try congruence; inversion H; subst; clear H.
  - pose proof (loop_yield (MapConcurrently.start f h)) as L.
    unfold handed_over in *.
    assert (MapConcurrently.yielded (MapConcurrently.start f h) =
            MapConcurrently.yielded h) as E.
    { unfold MapConcurrently.start.
      now destruct (MapConcurrently.takeFromIter _ _). }
    now rewrite E in L.
  - pose proof (loop_yield (MapConcurrently.refill f i h)) as L.
    unfold handed_over in *.
    assert (MapConcurrently.yielded (MapConcurrently.refill f i h) =
            MapConcurrently.yielded h) as E.
    { unfold MapConcurrently.refill. now destruct (MapConcurrently.it h). }
    now rewrite E in L.
Qed.

Lemma mark_yielded k h :
  MapConcurrently.yielded (MapConcurrently.mark k h) = MapConcurrently.yielded h.
Proof.
  unfold MapConcurrently.mark.
  now destruct (JSMap.get (MapConcurrently.promises h) k).
Qed.

Lemma settle_yield k h h' :
  MapConcurrently.step f (Gen.Settle k) h = Some h' ->
  (MapConcurrently.at_ h = Gen.Awaiting /\ handed_over h h') \/
  (MapConcurrently.at_ h <> Gen.Awaiting /\
   MapConcurrently.at_ h' = MapConcurrently.at_ h /\
   MapConcurrently.yielded h' = MapConcurrently.yielded h /\
   MapConcurrently.calls h' = MapConcurrently.calls h).
Proof.
  unfold MapConcurrently.step.
  destruct (JSMap.get (MapConcurrently.promises h) k) as [p|]; [|discriminate].
  destruct (settled p); [discriminate|].
  destruct (MapConcurrentlyFacts.mark_fields k h) as (M1 & M2 & M3 & M4).
  pose proof (mark_yielded k h) as M5.
  destruct (MapConcurrently.at_ h) eqn:Hat; intros H; inversion H; subst; clear H;
    try (right; repeat split; auto; discriminate).
  left. split; [reflexivity|].
  unfold handed_over, MapConcurrently.race_step.
  destruct (race (MapConcurrently.promises (MapConcurrently.mark k h)))
    as [[[i v]|]|]; simpl; now rewrite ?M5.
Qed.

End Yields.

(** The host whose lookup is awaited. *)
Definition current (s : state) : list string :=
  match at_ s with
  | AwaitLookup host => [host]
  | _ => []
  end.

(** The session follows its scheduler: it waits for a host exactly when the
    scheduler waits for a probe, and the hosts looked up, with the one whose
    lookup is awaited, are the hosts the scheduler has yielded. *)
Record linked (s : state) : Prop := {
  linked_hosts :
    map fst (lookups s) ++ current s = MapConcurrently.yielded (hosts s);
  linked_busy :
    at_ s <> AwaitHost -> MapConcurrently.at_ (hosts s) <> Gen.Awaiting;
  linked_await :
    at_ s = AwaitHost -> MapConcurrently.at_ (hosts s) = Gen.Awaiting;
  linked_over :
    at_ s <> Done -> MapConcurrently.at_ (hosts s) <> Gen.Done;
  linked_threw :
    MapConcurrently.at_ (hosts s) = Gen.Threw -> at_ s = Threw
}.

Lemma scan_linked limit (S : JSSet.t) : linked (scan limit S).
Proof. constructor; simpl; auto; discriminate. Qed.

Lemma with_hosts_linked h s s' :
  handed_over (hosts s) h ->
  map fst (lookups s) = MapConcurrently.yielded (hosts s) ->
  with_hosts h s = Some s' -> linked s'.
Proof.
  unfold handed_over, with_hosts. intros Hh Hl.
  destruct (MapConcurrently.at_ h) as [| |i v| |] eqn:Hat; intros H;
    inversion H; subst; clear H;
    constructor; unfold current; simpl; rewrite ?Hat, ?app_nil_r;
    try congruence; try discriminate; auto.
Qed.

Lemma next_host_linked s s' :
  map fst (lookups s) = MapConcurrently.yielded (hosts s) ->
  MapConcurrently.at_ (hosts s) <> Gen.Done ->
  MapConcurrently.at_ (hosts s) <> Gen.Threw ->
  next_host s = Some s' -> linked s'.
Proof.
  intros Hl ND NT. unfold next_host.
  destruct (MapConcurrently.step Ping.worker Gen.Next (hosts s)) as [h|] eqn:E;
    [|discriminate].
  apply with_hosts_linked; auto. now apply (next_yield Ping.worker).
Qed.

Lemma entries_loop_linked devices s s' :
  map fst (lookups s) = MapConcurrently.yielded (hosts s) ->
  MapConcurrently.at_ (hosts s) <> Gen.Awaiting ->
  MapConcurrently.at_ (hosts s) <> Gen.Done ->
  MapConcurrently.at_ (hosts s) <> Gen.Threw ->
  entries_loop devices s = Some s' -> linked s'.
Proof.
  intros Hl NA ND NT. induction devices as [|device rest IH]; simpl.
  - now apply next_host_linked.
  - destruct (JSSet.has (ipSet s) (ip device)); [|exact IH].
    intros H; inversion H; subst; clear H.
    constructor; unfold current; simpl; rewrite ?app_nil_r; auto.
    all: try discriminate.
    intros E; contradiction.
Qed.

Lemma step_keeps_link e s s' : linked s -> step e s = Some s' -> linked s'.
Proof.
  intros Hlinked. pose proof Hlinked as [Hl Hb Hw Ho Ht].
  unfold step. unfold current in Hl.
  destruct e as [|k|r].
  - destruct (at_ s) eqn:Hat; try discriminate.
    + apply next_host_linked.
      * now rewrite app_nil_r in Hl.
      * apply Ho; discriminate.
      * intros E. apply Ht in E. discriminate.
    + apply entries_loop_linked.
      * now rewrite app_nil_r in Hl.
      * apply Hb; discriminate.
      * apply Ho; discriminate.
      * intros E. apply Ht in E. discriminate.
    + intros H; inversion H; subst. exact Hlinked.
    + intros H; inversion H; subst. exact Hlinked.
  - destruct (MapConcurrently.step Ping.worker (Gen.Settle k) (hosts s)) as [h|] eqn:E;
      [|discriminate].
    apply (settle_yield Ping.worker) in E as [[Ha Hh] | (Hna & Hat' & Hy & _)].
    + destruct (at_ s) eqn:Hat;
        try (exfalso; apply Hb; [discriminate | exact Ha]).
      apply with_hosts_linked; auto. now rewrite app_nil_r in Hl.
    + destruct (at_ s) eqn:Hat; try (exfalso; apply Hna, Hw; reflexivity);
        intros H; inversion H; subst; clear H;
        constructor; unfold current; simpl; rewrite ?Hat', ?Hy; auto.
  - destruct (at_ s) eqn:Hat; try discriminate.
    assert (map fst (lookups s ++ [(host, r)]) = MapConcurrently.yielded (hosts s))
      as Hl' by (rewrite map_app; exact Hl).
    destruct r as [devices| |].
    + apply entries_loop_linked; simpl; auto.
      * apply Hb; discriminate.
      * apply Ho; discriminate.
      * intros E. apply Ht in E. discriminate.
    + apply entries_loop_linked; simpl; auto.
      * apply Hb; discriminate.
      * apply Ho; discriminate.
      * intros E. apply Ht in E. discriminate.
    + intros H; inversion H; subst; clear H.
      constructor; unfold current; simpl; rewrite ?app_nil_r; auto;
        try discriminate; intros _; [apply Hb | apply Ho]; discriminate.
Qed.

Lemma run_linked limit (S : JSSet.t) tr s :
  run step tr (scan limit S) = Some s -> linked s.
Proof.
  apply (run_invariant step linked); [|apply scan_linked].
  intros e s1 s2. apply step_keeps_link.
Qed.

(** The scheduler inside a session started on [S] is a scheduler started
    on [S]: what holds along every run of the one holds inside the other. *)
Lemma run_hosts limit (S : JSSet.t) tr s :
  run step tr (scan limit S) = Some s ->
  MapConcurrentlyFacts.drawn S limit (hosts s) /\
  SchedulerResults.sound Ping.worker
    (length (fst (MapConcurrently.takeFromIter S limit))) (hosts s).
Proof.
  intros Hrun.
  apply (ScanFacts.hosts_invariant
           (fun h => MapConcurrentlyFacts.drawn S limit h /\
                     SchedulerResults.sound Ping.worker
                       (length (fst (MapConcurrently.takeFromIter S limit))) h))
    with (tr := tr) (s := scan limit S); auto.
  - intros e h h' [Hd Hs] Hstep. split.
    + eapply MapConcurrentlyFacts.step_drawn; eassumption.
    + eapply SchedulerResults.step_sound; eassumption.
  - simpl. split.
    + apply MapConcurrentlyFacts.mapConcurrently_drawn.
    + apply SchedulerResults.mapConcurrently_sound.
Qed.

(** [ping] resolves to its argument: what the probes hand over are the
    addresses probed. *)
Lemma resolved_inj (l l' : list string) :
  map (@Resolved string) l = map (@Resolved string) l' -> l = l'.
Proof.
  revert l'; induction l as [|x l IH]; intros [|y l'] H; simpl in H;
    try discriminate; [reflexivity|].
  inversion H; subst. f_equal; auto.
Qed.

Lemma yielded_of_calls {Y} (calls yielded : list Y) (w : list (outcome Y)) :
  Permutation (map (@Resolved Y) calls) (map (@Resolved Y) yielded ++ w) ->
  (forall v, In v yielded -> In v calls) /\
  (NoDup calls -> NoDup yielded).
Proof.
  intros HP. split.
  - intros v Hv. 
    assert (In (Resolved v) (map (@Resolved Y) calls)) as Hin.
    { eapply Permutation_in; [symmetry; exact HP|].
      apply in_or_app; left. now apply in_map. }
    apply in_map_iff in Hin as (x & Hx & Hin). now inversion Hx; subst.
  - intros Hnd.
    assert (NoDup (map (@Resolved Y) calls)) as H1.
    { clear HP. induction Hnd as [|x l Hx Hnd IH]; simpl; constructor; auto.
      intros Hin. apply in_map_iff in Hin as (y & Hy & Hin).
      inversion Hy; subst. contradiction. }
    eapply Permutation_NoDup in H1; [|exact HP].
    apply NoDup_app_remove_r in H1.
    eapply NoDup_map_inv; exact H1.
Qed.

End ScanLookups.

(** X8: a scan session asks [ipLookup] only about hosts the scheduler has
    handed over, in the order they were handed over, one lookup at a time;
    so every host looked up has been probed before and is an address of the
    set, and no host is looked up twice. *)
Theorem scan_looks_up_each_probed_host_once
  (limit : num) (addresses : list string)
  (tr : list Scan.event) (s : Scan.state) :
  run Scan.step tr (Scan.scan limit (JSSet.of_array addresses)) = Some s ->
  map fst (Scan.lookups s) ++ ScanLookups.current s =
    MapConcurrently.yielded (Scan.hosts s) /\
  (forall host, In host (map fst (Scan.lookups s) ++ ScanLookups.current s) ->
                In host (Scan.probes s) /\ In host addresses) /\
  NoDup (map fst (Scan.lookups s) ++ ScanLookups.current s).
Proof.
  intros Hrun.
  pose proof (ScanLookups.linked_hosts s (ScanLookups.run_linked _ _ _ _ Hrun)) as Hl.
  destruct (ScanLookups.run_hosts _ _ _ _ Hrun) as [Hd Hs].
  pose proof (SchedulerResults.sound_results _ _ _ Hs) as Hres.
  unfold Ping.worker in Hres.
  destruct (ScanLookups.yielded_of_calls _ _ _ Hres) as [Hin Hnd].
  assert (forall a, In a (Scan.probes s) -> In a (JSSet.of_array addresses)) as Hsub.
  { intros a Ha. unfold Scan.probes in Ha.
    destruct (MapConcurrently.at_ (Scan.hosts s)) eqn:Hat;
      try (rewrite <- (MapConcurrentlyFacts.drawn_split _ _ _ Hd)
             by (rewrite Hat; discriminate);
           apply in_or_app; now left).
    destruct (MapConcurrentlyFacts.drawn_fresh _ _ _ Hd Hat) as (_ & Hc & _).
    rewrite Hc in Ha. contradiction. }
  assert (NoDup (Scan.probes s)) as Hndp.
  { unfold Scan.probes.
    destruct (MapConcurrently.at_ (Scan.hosts s)) eqn:Hat;
      try (apply (NoDup_app_remove_r _ (MapConcurrently.it (Scan.hosts s)));
           rewrite (MapConcurrentlyFacts.drawn_split _ _ _ Hd)
             by (rewrite Hat; discriminate);
           apply JSSetFacts.of_array_NoDup).
    destruct (MapConcurrentlyFacts.drawn_fresh _ _ _ Hd Hat) as (_ & Hc & _).
    rewrite Hc. constructor. }
  rewrite Hl. split; [reflexivity|]. split.
  - intros host Hh. apply Hin in Hh. split; [exact Hh|].
    apply JSSetFacts.of_array_In. now apply Hsub.
  - now apply Hnd.
Qed.

(** X9: a scan session that has been drained under a positive limit has
    asked [ipLookup] about every address of the set exactly once, whether or
    not anything answered the probe: [ping] resolves either way. *)
Theorem scan_looks_up_every_address
  (limit : num) (ipSet : JSSet.t) (tr : list Scan.event) (s : Scan.state) :
  gt0 limit = true ->
  run Scan.step tr (Scan.scan limit ipSet) = Some s ->
  Scan.at_ s = Scan.Done ->
  Permutation (map fst (Scan.lookups s)) ipSet /\
  length (Scan.lookups s) = length ipSet.
Proof.
  intros Hpos Hrun Hat.
  pose proof (ScanLookups.run_linked _ _ _ _ Hrun) as Hlinked.
  pose proof (ScanLookups.linked_hosts s Hlinked) as Hl.
  unfold ScanLookups.current in Hl. rewrite Hat, app_nil_r in Hl.
  assert (ScanFacts.inv ipSet s) as Hinv.
  { eapply run_invariant; [|apply (ScanFacts.scan_inv limit)|exact Hrun].
    intros e s1 s2; apply ScanFacts.step_keeps_session. }
  pose proof (ScanFacts.inv_done _ _ Hinv Hat) as Hdone.
  destruct (ScanLookups.run_hosts _ _ _ _ Hrun) as [Hd Hs].
  pose proof (MapConcurrentlyFacts.drawn_done_calls _ _ _ Hd Hpos Hdone) as Hc.
  pose proof (SchedulerResults.sound_results _ _ _ Hs) as Hres.
  pose proof (SchedulerResults.sound_done _ _ _ Hs Hdone) as He.
  unfold SchedulerResults.in_window, JSMap.values in Hres.
  rewrite He, Hc in Hres. simpl in Hres. rewrite app_nil_r in Hres.
  unfold Ping.worker in Hres.
  assert (Permutation (map fst (Scan.lookups s)) ipSet) as HP.
  { rewrite Hl. symmetry in Hres.
    apply Permutation_map_inv in Hres as (l3 & E & HP).
    apply ScanLookups.resolved_inj in E. subst l3. now symmetry. }
  split; [exact HP|].
  apply Permutation_length in HP. now rewrite length_map in HP.
Qed.

(** X10: once a scan session is over, because the scheduler has finished
    or because a lookup or a probe was rejected, it emits nothing more,
    looks nothing up and probes no further address, whatever happens next:
    after a rejected [ipLookup] the addresses not yet probed stay
    unprobed. *)
Theorem scan_stops_for_good
  (tr : list Scan.event) (s s' : Scan.state) :
  Scan.at_ s = Scan.Done \/ Scan.at_ s = Scan.Threw ->
  run Scan.step tr s = Some s' ->
  Scan.at_ s' = Scan.at_ s /\ Scan.emitted s' = Scan.emitted s /\
  Scan.lookups s' = Scan.lookups s /\ Scan.probes s' = Scan.probes s.
Proof.
  revert s. induction tr as [|e tr IH]; intros s Hover Hrun; simpl in Hrun.
  - inversion Hrun; subst. auto.
  - destruct (Scan.step e s) as [s1|] eqn:E; [|discriminate].
    assert (Scan.at_ s1 = Scan.at_ s /\ Scan.emitted s1 = Scan.emitted s /\
            Scan.lookups s1 = Scan.lookups s /\ Scan.probes s1 = Scan.probes s)
      as (H1 & H2 & H3 & H4).
    { unfold Scan.step in E. destruct e as [|k|r].
      - destruct Hover as [Hat|Hat]; rewrite Hat in E; inversion E; subst; auto.
      - destruct (MapConcurrently.step Ping.worker (Gen.Settle k) (Scan.hosts s))
          as [h|] eqn:Eh; [|discriminate].
        assert (MapConcurrently.calls h = MapConcurrently.calls (Scan.hosts s)) as Hc.
        { apply (ScanLookups.settle_yield Ping.worker) in Eh as Hy.
          unfold MapConcurrently.step in Eh.
          destruct (JSMap.get _ k) as [p|]; [|discriminate].
          destruct (settled p); [discriminate|].
          destruct (MapConcurrentlyFacts.mark_fields k (Scan.hosts s))
            as (_ & M2 & _).
          destruct (MapConcurrentlyFacts.race_step_fields
                      (MapConcurrently.mark k (Scan.hosts s))) as (_ & R2 & _).
          destruct (MapConcurrently.at_ (Scan.hosts s)); inversion Eh; subst;
            congruence. }
        unfold Scan.probes.
        destruct Hover as [Hat|Hat]; rewrite Hat in E; inversion E; subst; simpl;
          auto.
      - destruct Hover as [Hat|Hat]; rewrite Hat in E; discriminate. }
    destruct (IH s1) as (I1 & I2 & I3 & I4); [congruence | exact Hrun |].
    repeat split; congruence.
Qed.

Module LookupExamples.
Open Scope string_scope.

(** Three addresses under limit 2; the lookup of the first host that
    answers is rejected. *)
Definition failed_lookup : list Scan.event :=
  [Scan.Next; Scan.Settle 0; Scan.Lookup Failed].

Definition all_silent : list Scan.event :=
  [ Scan.Next; Scan.Settle 1; Scan.Lookup Nothing;
    Scan.Settle 0; Scan.Lookup Nothing ].

Close Scope string_scope.
End LookupExamples.

Open Scope string_scope.

Lemma scan_looks_up_each_probed_host_once_witness :
  exists s,
    run Scan.step ScanExamples.two_hosts
        (Scan.scan (of_nat 32) (JSSet.of_array ["10.0.0.1"; "10.0.0.2"; "10.0.0.1"]))
      = Some s /\
    map fst (Scan.lookups s) = ["10.0.0.2"; "10.0.0.1"] /\
    NoDup (map fst (Scan.lookups s) ++ ScanLookups.current s)%list.
Proof.
  eexists. split; [vm_compute; reflexivity|]. split; [reflexivity|].
  apply (scan_looks_up_each_probed_host_once (of_nat 32)
           ["10.0.0.1"; "10.0.0.2"; "10.0.0.1"] ScanExamples.two_hosts).
  vm_compute; reflexivity.
Defined.

Lemma scan_looks_up_every_address_witness :
  exists s,
    run Scan.step LookupExamples.all_silent
        (Scan.scan (of_nat 32) ["10.0.0.1"; "10.0.0.2"]) = Some s /\
    Scan.emitted s = [] /\
    Permutation (map fst (Scan.lookups s)) ["10.0.0.1"; "10.0.0.2"].
Proof.
  eexists. split; [vm_compute; reflexivity|]. split; [reflexivity|].
  apply (scan_looks_up_every_address (of_nat 32) ["10.0.0.1"; "10.0.0.2"]
           LookupExamples.all_silent);
    [reflexivity | vm_compute; reflexivity | reflexivity].
Defined.

Lemma scan_stops_for_good_witness :
  exists s s',
    run Scan.step LookupExamples.failed_lookup
        (Scan.scan (of_nat 2) ["10.0.0.1"; "10.0.0.2"; "10.0.0.3"]) = Some s /\
    Scan.at_ s = Scan.Threw /\
    run Scan.step [Scan.Next; Scan.Settle 1; Scan.Next] s = Some s' /\
    Scan.probes s' = ["10.0.0.1"; "10.0.0.2"] /\
    Scan.emitted s' = [].
Proof.
  eexists. eexists. split; [vm_compute; reflexivity|].
  match goal with |- Scan.at_ ?a = _ /\ _ => set (s := a) end.
  split; [reflexivity|]. split; [vm_compute; reflexivity|].
  match goal with |- Scan.probes ?b = _ /\ _ => set (s' := b) end.
  destruct (scan_stops_for_good [Scan.Next; Scan.Settle 1; Scan.Next] s s')
    as (_ & He & _ & Hp); [right; reflexivity | vm_compute; reflexivity |].
  split; [exact Hp | exact He].
Defined.

Close Scope string_scope.

(** ** What [findLocalDevice] returns *)

Module FindResults.
Import FindLocalDevice.

(** What one event of a scan session does to the devices emitted. *)
Lemma next_host_emits s s' :
  Scan.next_host s = Some s' ->
  Scan.emitted s' = Scan.emitted s /\
  (forall d rest, Scan.at_ s' <> Scan.Yielded d rest).
Proof.
  unfold Scan.next_host.
  destruct (MapConcurrently.step Ping.worker Gen.Next (Scan.hosts s)) as [h|];
    [|discriminate].
  unfold Scan.with_hosts.
  destruct (MapConcurrently.at_ h); intros H; inversion H; subst; simpl;
    split; auto; discriminate.
Qed.

Lemma entries_loop_emits devices s s' :
  Scan.entries_loop devices s = Some s' ->
  (Scan.emitted s' = Scan.emitted s /\
   forall d rest, Scan.at_ s' <> Scan.Yielded d rest) \/
  (exists d rest, Scan.at_ s' = Scan.Yielded d rest /\
                  Scan.emitted s' = Scan.emitted s ++ [d]).
Proof.
  induction devices as [|device rest IH]; simpl.
  - intros H. left. now apply next_host_emits.
  - destruct (JSSet.has (Scan.ipSet s) (ip device)); [|exact IH].
    intros H; inversion H; subst; simpl. right. now exists device, rest.
Qed.

Lemma step_emits e s s' :
  Scan.step e s = Some s' ->
  (Scan.emitted s' = Scan.emitted s /\
   forall d rest, Scan.at_ s' = Scan.Yielded d rest ->
                  Scan.at_ s = Scan.Yielded d rest) \/
  (exists d rest, Scan.at_ s' = Scan.Yielded d rest /\
                  Scan.emitted s' = Scan.emitted s ++ [d]).
Proof.
  unfold Scan.step. destruct e as [|k|r].
  - destruct (Scan.at_ s) eqn:Hat; try discriminate.
    + intros H. apply next_host_emits in H as [H1 H2]. left. split; auto.
      intros d rest E. now apply H2 in E.
    + intros H. apply entries_loop_emits in H as [[H1 H2]|H3]; [left|now right].
      split; auto. intros d rest' E. now apply H2 in E.
    + intros H; inversion H; subst. left. split; auto. congruence.
    + intros H; inversion H; subst. left. split; auto. congruence.
  - destruct (MapConcurrently.step Ping.worker (Gen.Settle k) (Scan.hosts s))
      as [h|]; [|discriminate].
    destruct (Scan.at_ s) eqn:Hat;
      try solve [intros H; inversion H; subst; simpl; left; split; auto].
    unfold Scan.with_hosts.
    destruct (MapConcurrently.at_ h); intros H; inversion H; subst; simpl;
      left; split; auto; discriminate.
  - destruct (Scan.at_ s) eqn:Hat; try discriminate.
    destruct r as [devices| |].
    + intros H. apply entries_loop_emits in H as [[H1 H2]|H3]; [left|now right].
      split; auto. intros d rest' E. now apply H2 in E.
    + intros H. apply entries_loop_emits in H as [[H1 H2]|H3]; [left|now right].
      split; auto. intros d rest' E. now apply H2 in E.
    + intros H; inversion H; subst; simpl. left. split; auto. discriminate.
Qed.

Section Search.
Variable limit : num.
Variable q : string.
Variable S : JSSet.t.

Definition reached (sc : Scan.state) : Prop :=
  exists tr, run Scan.step tr (Scan.scan limit S) = Some sc.

Definition misses (devices : list Device) : Prop :=
  Forall (fun device => matches q device = false) devices.

Record found (s : state) : Prop := {
  found_query : macOrIP s = q;
  found_set : ipSet s = S;
  found_session : forall sc, session s = Some sc -> reached sc;
  found_scanning :
    at_ s = Scanning ->
    exists sc, session s = Some sc /\ misses (Scan.emitted sc) /\
               forall d rest, Scan.at_ sc = Scan.Yielded d rest ->
                              matches q d = false;
  found_none :
    at_ s = Returned None ->
    exists sc, session s = Some sc /\ Scan.at_ sc = Scan.Done /\
               misses (Scan.emitted sc);
  found_some :
    forall d, at_ s = Returned (Some d) ->
      matches q d = true /\ JSSet.has S (ip d) = true /\
      (session s = None \/
       exists sc pre, session s = Some sc /\
                      Scan.emitted sc = pre ++ [d] /\ misses pre)
}.

Lemma findLocalDevice_found : found (findLocalDevice q S).
Proof. constructor; simpl; auto; discriminate. Qed.

Lemma reached_step e sc sc' :
  reached sc -> Scan.step e sc = Some sc' -> reached sc'.
Proof.
  intros [tr Htr] Hstep. exists (tr ++ [e]).
  rewrite run_app, Htr. simpl. now rewrite Hstep.
Qed.

Lemma reached_emitted sc :
  reached sc ->
  Forall (fun device => JSSet.has S (ip device) = true) (Scan.emitted sc).
Proof.
  intros [tr Hrun].
  assert (ScanFacts.inv S sc) as Hinv.
  { eapply run_invariant; [|apply (ScanFacts.scan_inv limit)|exact Hrun].
    intros e s1 s2; apply ScanFacts.step_keeps_session. }
  apply Forall_forall. intros device Hin.
  assert (In device (filter (ScanFacts.in_set S) (ScanFacts.answers sc))) as H.
  { rewrite <- (ScanFacts.inv_emitted S sc Hinv). apply in_or_app. now left. }
  apply filter_In in H. apply H.
Qed.

Lemma forward_found e s s' :
  found s -> at_ s = Scanning -> forward e s = Some s' -> found s'.
Proof.
  intros [Hq Hs Hr Hsc Hn Hsm] Hat. unfold forward.
  destruct (Hsc Hat) as (sc & Hses & Hmiss & Hy). rewrite Hses.
  destruct (Scan.step e sc) as [sc'|] eqn:E; [|discriminate].
  intros H; inversion H; subst s'; clear H.
  assert (reached sc') as Hr' by (eapply reached_step; eauto).
  pose proof (reached_emitted sc' Hr') as Hin.
  apply step_emits in E. unfold observe.
  destruct (Scan.at_ sc') as [| |host|d rest| |] eqn:Hat'.
  1-3,5-6:
    destruct E as [[He _]|(d & rest & Habs & _)]; [|discriminate];
    constructor; simpl; auto; try discriminate;
    try (intros sc0 E0; inversion E0; subst; exact Hr');
    intros _; exists sc'; rewrite He, ?Hat'; repeat split; auto;
    intros; discriminate.
  rewrite Hq.
  destruct (matches q d) eqn:Hm.
  - constructor; simpl; auto; try discriminate.
    + intros sc0 E0; inversion E0; subst; exact Hr'.
    + intros d0 E0. inversion E0; subst d0.
      destruct E as [[He Hsame]|(d' & rest' & Hd' & He)].
      * specialize (Hy d rest (Hsame d rest eq_refl)). congruence.
      * inversion Hd'; subst d' rest'. split; [exact Hm|]. split.
        -- rewrite He in Hin. apply Forall_app in Hin as [_ Hin].
           now inversion Hin.
        -- right. exists sc', (Scan.emitted sc). auto.
  - constructor; simpl; auto; try discriminate.
    + intros sc0 E0; inversion E0; subst; exact Hr'.
    + intros _. exists sc'. split; [reflexivity|]. split.
      * destruct E as [[He _]|(d' & rest' & Hd' & He)]; rewrite He; auto.
        inversion Hd'; subst. apply Forall_app. split; auto.
      * intros d0 rest0 E0. rewrite Hat' in E0. inversion E0; subst. exact Hm.
Qed.

Lemma step_found e s s' : found s -> step limit e s = Some s' -> found s'.
Proof.
  intros Hf. pose proof Hf as [Hq Hs Hr Hsc Hn Hsm]. unfold step.
  destruct (at_ s) eqn:Hat.
  - destruct e as [r| | |]; try discriminate.
    destruct r as [table| |].
    + destruct (find (matches (macOrIP s)) (filter (in_set (ipSet s)) table))
        as [device|] eqn:E; intros H; inversion H; subst s'; clear H.
      * apply find_some in E as [Hin Hm]. apply filter_In in Hin as [_ Hin].
        constructor; simpl; auto; try discriminate.
        intros d E0. inversion E0; subst d. rewrite <- Hq, <- Hs. auto.
      * constructor; simpl; auto; try discriminate.
        -- intros sc E0. inversion E0; subst. exists []. now rewrite Hs.
        -- intros _. eexists. split; [reflexivity|]. simpl. split.
           ++ constructor.
           ++ discriminate.
    + intros H; inversion H; subst. constructor; simpl; auto; discriminate.
    + intros H; inversion H; subst. constructor; simpl; auto; discriminate.
  - destruct e as [r| |k|r]; try discriminate; now apply forward_found.
  - destruct e; try discriminate. intros H; inversion H; subst. exact Hf.
  - destruct e; try discriminate. intros H; inversion H; subst. exact Hf.
Qed.

Lemma run_found tr s :
  run (step limit) tr (findLocalDevice q S) = Some s -> found s.
Proof.
  apply (run_invariant (step limit) found); [|apply findLocalDevice_found].
  intros e s1 s2. apply step_found.
Qed.

End Search.
End FindResults.

(** X11: whatever [findLocalDevice] returns matches the query, by MAC
    address up to notation or by IP address, and has its [ip] in the set;
    when it comes from the scan it is the first device the session emitted
    that matches, and from then on the session is not advanced: the addresses
    not yet probed stay unprobed. *)
Theorem findLocalDevice_returns_the_first_match
  (limit : num) (macOrIP : string) (ipSet : JSSet.t)
  (tr : list FindLocalDevice.event) (s : FindLocalDevice.state)
  (device : Device) :
  run (FindLocalDevice.step limit) tr
      (FindLocalDevice.findLocalDevice macOrIP ipSet) = Some s ->
  FindLocalDevice.at_ s = FindLocalDevice.Returned (Some device) ->
  FindLocalDevice.matches macOrIP device = true /\
  JSSet.has ipSet (ip device) = true /\
  (FindLocalDevice.session s = None \/
   exists sc pre,
     FindLocalDevice.session s = Some sc /\
     Scan.emitted sc = pre ++ [device] /\
     Forall (fun d => FindLocalDevice.matches macOrIP d = false) pre) /\
  (forall tr' s',
     run (FindLocalDevice.step limit) tr' s = Some s' -> s' = s).
Proof.
  intros Hrun Hat.
  pose proof (FindResults.run_found limit macOrIP ipSet tr s Hrun) as Hf.
  destruct (FindResults.found_some _ _ _ s Hf device Hat) as (H1 & H2 & H3).
  repeat split; auto.
  intros tr' s'. now apply (FindFacts.returned_final limit tr' s s' (Some device)).
Qed.

(** X12: [findLocalDevice] returns [undefined] only when the scan session
    has run to its end without emitting a device that matches: no entry
    answered by [ipLookup] with its [ip] in the set matches the query, and,
    the limit being positive, every address of the set has been probed. *)
Theorem findLocalDevice_gives_up_after_the_whole_scan
  (limit : num) (macOrIP : string) (ipSet : JSSet.t)
  (tr : list FindLocalDevice.event) (s : FindLocalDevice.state) :
  run (FindLocalDevice.step limit) tr
      (FindLocalDevice.findLocalDevice macOrIP ipSet) = Some s ->
  FindLocalDevice.at_ s = FindLocalDevice.Returned None ->
  exists sc,
    FindLocalDevice.session s = Some sc /\ Scan.at_ sc = Scan.Done /\
    (forall d, In d (ScanFacts.answers sc) -> JSSet.has ipSet (ip d) = true ->
               FindLocalDevice.matches macOrIP d = false) /\
    (gt0 limit = true -> FindLocalDevice.probes s = ipSet).
Proof.
  intros Hrun Hat.
  pose proof (FindResults.run_found limit macOrIP ipSet tr s Hrun) as Hf.
  destruct (FindResults.found_none _ _ _ s Hf Hat) as (sc & Hses & Hdone & Hmiss).
  destruct (FindResults.found_session _ _ _ s Hf sc Hses) as [trs Hsc].
  assert (ScanFacts.inv ipSet sc) as Hinv.
  { eapply run_invariant; [|apply (ScanFacts.scan_inv limit)|exact Hsc].
    intros e s1 s2; apply ScanFacts.step_keeps_session. }
  exists sc. split; [exact Hses|]. split; [exact Hdone|]. split.
  - intros d Hin Hset.
    pose proof (ScanFacts.inv_emitted _ _ Hinv) as He.
    unfold ScanFacts.buffer in He. rewrite Hdone in He. simpl in He.
    rewrite app_nil_r in He.
    assert (In d (Scan.emitted sc)) as Hd.
    { rewrite He. apply filter_In. split; [exact Hin | exact Hset]. }
    unfold FindResults.misses in Hmiss. rewrite Forall_forall in Hmiss.
    now apply Hmiss.
  - intros Hpos. unfold FindLocalDevice.probes. rewrite Hses.
    unfold Scan.probes.
    destruct (ScanLookups.run_hosts _ _ _ _ Hsc) as [Hd _].
    apply (MapConcurrentlyFacts.drawn_done_calls ipSet limit); auto.
    now apply (ScanFacts.inv_done ipSet sc Hinv).
Qed.

Module FindExamples.
Open Scope string_scope.

(** The table is empty; the second address answers first and is the
    device asked for. *)
Definition found_by_scan : list FindLocalDevice.event :=
  [ FindLocalDevice.Table (Entries []);
    FindLocalDevice.Next; FindLocalDevice.Settle 1;
    FindLocalDevice.Lookup
      (Entries [ScanExamples.device "10.0.0.2" "aa:bb:cc:00:00:02"]) ].

(** Nothing answers. *)
Definition not_found : list FindLocalDevice.event :=
  [ FindLocalDevice.Table (Entries []);
    FindLocalDevice.Next; FindLocalDevice.Settle 0;
    FindLocalDevice.Lookup Nothing;
    FindLocalDevice.Settle 1;
    FindLocalDevice.Lookup
      (Entries [ScanExamples.device "10.0.0.2" "aa:bb:cc:00:00:02"]);
    FindLocalDevice.Next ].

Close Scope string_scope.
End FindExamples.

Open Scope string_scope.

Lemma findLocalDevice_returns_the_first_match_witness :
  exists s,
    run (FindLocalDevice.step (of_nat 2)) FindExamples.found_by_scan
        (FindLocalDevice.findLocalDevice "AA-BB-CC-00-00-02"
           ["10.0.0.1"; "10.0.0.2"; "10.0.0.3"]) = Some s /\
    FindLocalDevice.at_ s =
      FindLocalDevice.Returned
        (Some (ScanExamples.device "10.0.0.2" "aa:bb:cc:00:00:02")) /\
    FindLocalDevice.probes s = ["10.0.0.1"; "10.0.0.2"] /\
    FindLocalDevice.matches "AA-BB-CC-00-00-02"
      (ScanExamples.device "10.0.0.2" "aa:bb:cc:00:00:02") = true.
Proof.
  eexists. split; [vm_compute; reflexivity|]. split; [reflexivity|].
  split; [reflexivity|].
  eapply (findLocalDevice_returns_the_first_match (of_nat 2) "AA-BB-CC-00-00-02"
           ["10.0.0.1"; "10.0.0.2"; "10.0.0.3"] FindExamples.found_by_scan _
           (ScanExamples.device "10.0.0.2" "aa:bb:cc:00:00:02"));
    [vm_compute; reflexivity | reflexivity].
Defined.

Lemma findLocalDevice_gives_up_after_the_whole_scan_witness :
  exists s sc,
    run (FindLocalDevice.step (of_nat 2)) FindExamples.not_found
        (FindLocalDevice.findLocalDevice "10.0.0.7" ["10.0.0.1"; "10.0.0.2"])
      = Some s /\
    FindLocalDevice.at_ s = FindLocalDevice.Returned None /\
    FindLocalDevice.session s = Some sc /\
    Scan.at_ sc = Scan.Done /\
    FindLocalDevice.probes s = ["10.0.0.1"; "10.0.0.2"].
Proof.
  eexists. eexists. split; [vm_compute; reflexivity|].
  split; [reflexivity|]. split; [reflexivity|]. split; [reflexivity|].
  match goal with |- FindLocalDevice.probes ?a = _ => set (s := a) end.
  destruct (findLocalDevice_gives_up_after_the_whole_scan (of_nat 2) "10.0.0.7"
              ["10.0.0.1"; "10.0.0.2"] FindExamples.not_found s)
    as (sc & _ & _ & _ & Hp); [vm_compute; reflexivity | reflexivity |].
  now apply Hp.
Defined.

Close Scope string_scope.

(** ** When [getLocalDeviceList] reads the table *)

Module ListProbes.
Import GetLocalDeviceList.

Section Probes.
Variable Number : option string -> num.
Variable limit : num.
Variable S : JSSet.t.

Record probed (s : state) : Prop := {
  probed_drawn : MapConcurrentlyFacts.drawn S limit (hosts s);
  probed_sound :
    SchedulerResults.sound Ping.worker
      (length (fst (MapConcurrently.takeFromIter S limit))) (hosts s);
  probed_draining :
    at_ s = Draining ->
    MapConcurrently.at_ (hosts s) <> Gen.Done /\
    MapConcurrently.at_ (hosts s) <> Gen.Threw;
  probed_table :
    at_ s = AwaitTable -> MapConcurrently.at_ (hosts s) = Gen.Done;
  probed_returned :
    forall devices, at_ s = Returned devices ->
                    MapConcurrently.at_ (hosts s) = Gen.Done
}.

Lemma getLocalDeviceList_probed : probed (getLocalDeviceList limit S).
Proof.
  constructor; simpl; try discriminate.
  - apply MapConcurrentlyFacts.mapConcurrently_drawn.
  - apply SchedulerResults.mapConcurrently_sound.
  - intros _. split; discriminate.
Qed.

Lemma observe_probed e s h :
  probed s -> MapConcurrently.step Ping.worker e (hosts s) = Some h ->
  probed (observe h s).
Proof.
  intros [Hd Hs _ _ _] Hstep.
  assert (MapConcurrentlyFacts.drawn S limit h) as Hd'
    by (eapply MapConcurrentlyFacts.step_drawn; eassumption).
  assert (SchedulerResults.sound Ping.worker
            (length (fst (MapConcurrently.takeFromIter S limit))) h) as Hs'
    by (exact (SchedulerResults.step_sound Ping.worker S limit e (hosts s) h
                 Hd Hs Hstep)).
  unfold observe.
  destruct (MapConcurrently.at_ h) eqn:Hat; constructor; simpl; auto;
    try discriminate; intros _; rewrite Hat; split; discriminate.
Qed.

Lemma step_probed e s s' : probed s -> step Number e s = Some s' -> probed s'.
Proof.
  intros Hp. pose proof Hp as [Hd Hs Hdr Ht Hr]. unfold step.
  destruct (at_ s) eqn:Hat; try discriminate.
  - destruct e as [|k|r]; try discriminate.
    + destruct (MapConcurrently.step _ _ _) as [h|] eqn:E; [|discriminate].
      intros H; inversion H; subst. eapply observe_probed; eassumption.
    + destruct (MapConcurrently.step _ _ _) as [h|] eqn:E; [|discriminate].
      intros H; inversion H; subst. eapply observe_probed; eassumption.
  - destruct e as [|k|r]; try discriminate.
    destruct r; intros H; inversion H; subst; constructor; simpl; auto;
      discriminate.
Qed.

Lemma run_probed tr s :
  run (step Number) tr (getLocalDeviceList limit S) = Some s -> probed s.
Proof.
  apply (run_invariant (step Number) probed); [|apply getLocalDeviceList_probed].
  intros e s1 s2. apply step_probed.
Qed.

End Probes.
End ListProbes.

(** X13: [getLocalDeviceList] reads the neighbor table only when the
    scheduler has finished: no probe is outstanding then, and, the limit
    being positive, every address of the set has been probed and every probe
    has settled. *)
Theorem getLocalDeviceList_reads_the_table_after_the_probes
  (Number : option string -> num) (limit : num) (ipSet : JSSet.t)
  (tr : list GetLocalDeviceList.event) (s : GetLocalDeviceList.state) :
  run (GetLocalDeviceList.step Number) tr
      (GetLocalDeviceList.getLocalDeviceList limit ipSet) = Some s ->
  GetLocalDeviceList.at_ s = GetLocalDeviceList.AwaitTable \/
  (exists devices,
     GetLocalDeviceList.at_ s = GetLocalDeviceList.Returned devices) ->
  MapConcurrently.at_ (GetLocalDeviceList.hosts s) = Gen.Done /\
  MapConcurrently.outstanding (GetLocalDeviceList.hosts s) = 0 /\
  (gt0 limit = true ->
   MapConcurrently.calls (GetLocalDeviceList.hosts s) = ipSet /\
   MapConcurrently.settles (GetLocalDeviceList.hosts s) = length ipSet).
Proof.
  intros Hrun Hat.
  pose proof (ListProbes.run_probed Number limit ipSet tr s Hrun)
    as [Hd Hs _ Ht Hr].
  assert (MapConcurrently.at_ (GetLocalDeviceList.hosts s) = Gen.Done) as Hdone.
  { destruct Hat as [Hat | [devices Hat]]; eauto. }
  pose proof (SchedulerResults.sound_settles _ _ _ Hs) as Hset.
  pose proof (SchedulerResults.sound_done _ _ _ Hs Hdone) as He.
  unfold MapConcurrentlyFacts.pending in Hset. rewrite He in Hset.
  simpl in Hset.
  split; [exact Hdone|]. split.
  - unfold MapConcurrently.outstanding. lia.
  - intros Hpos.
    pose proof (MapConcurrentlyFacts.drawn_done_calls _ _ _ Hd Hpos Hdone) as Hc.
    split; [exact Hc|]. rewrite Hc in Hset. lia.
Qed.

Open Scope string_scope.

Lemma getLocalDeviceList_reads_the_table_after_the_probes_witness :
  exists s,
    run (GetLocalDeviceList.step NumberModel.Number)
        ListExamples.drain_then_read
        (GetLocalDeviceList.getLocalDeviceList (of_nat 32)
           (JSSet.of_array ListExamples.addresses)) = Some s /\
    MapConcurrently.calls (GetLocalDeviceList.hosts s) =
      ["10.0.0.10"; "10.0.0.2"; "10.0.0.9"] /\
    MapConcurrently.outstanding (GetLocalDeviceList.hosts s) = 0.
Proof.
  eexists. split; [vm_compute; reflexivity|]. split; [reflexivity|].
  eapply (getLocalDeviceList_reads_the_table_after_the_probes
            NumberModel.Number (of_nat 32)
            (JSSet.of_array ListExamples.addresses)
            ListExamples.drain_then_read).
  - vm_compute; reflexivity.
  - right. eexists. reflexivity.
Defined.

Close Scope string_scope.

(** ** The socket of [ping] *)

Module SocketFacts.
Import Ping.

(** The socket is destroyed exactly when the promise has settled. *)
Definition closed_when_settled (s : state) : Prop :=
  destroyed s = true <-> result s <> Pending.

Lemma close_settles s : closed_when_settled (close s).
Proof.
  unfold closed_when_settled, close; simpl.
  split; [|reflexivity]. intros _. now destruct (result s).
Qed.

Lemma emit_keeps ev s : closed_when_settled s -> closed_when_settled (emit ev s).
Proof.
  intros H. destruct ev; simpl;
    [destruct (on_timeout s) | destruct (on_connect s) | destruct (on_error s)];
    auto; apply close_settles.
Qed.

Lemma emit_all_keeps evs s :
  closed_when_settled s -> closed_when_settled (emit_all evs s).
Proof.
  revert s; induction evs as [|ev evs IH]; intros s H; simpl; [exact H|].
  apply IH. now apply emit_keeps.
Qed.

End SocketFacts.

(** X14: at every moment the socket of a [ping] is destroyed exactly when
    its promise has settled, and the promise is pending exactly as long as
    the socket has emitted none of time-out, connect and error: nothing else
    settles it. *)
Theorem ping_destroys_the_socket_when_it_settles
  (address : string) (evs : list Ping.socket_event) :
  (Ping.destroyed (Ping.emit_all evs (Ping.ping address)) = true <->
   Ping.result (Ping.emit_all evs (Ping.ping address)) <> Ping.Pending) /\
  (Ping.result (Ping.emit_all evs (Ping.ping address)) = Ping.Pending <->
   evs = []).
Proof.
  split.
  - apply SocketFacts.emit_all_keeps. unfold SocketFacts.closed_when_settled.
    simpl. split; [discriminate | intros H; now contradiction H].
  - destruct evs as [|ev evs]; simpl; [tauto|].
    rewrite (PingFacts.emit_all_fulfilled evs _ address)
      by apply PingFacts.first_event.
    split; discriminate.
Qed.

(** ** [toHex] *)

Module HexFacts.

Lemma lower_hex (c : ascii) : Str.in_0_9a_f c = true -> Str.lower c = c.
Proof.
  destruct c as [[] [] [] [] [] [] [] []]; vm_compute; intros H;
    try discriminate; reflexivity.
Qed.

Lemma toLowerCase_app (s t : string) :
  Str.toLowerCase (s ++ t)%string = (Str.toLowerCase s ++ Str.toLowerCase t)%string.
Proof. induction s as [|c s IH]; simpl; [reflexivity | now rewrite IH]. Qed.

Lemma remove_unless_app keep (s t : string) :
  Str.remove_unless keep (s ++ t)%string =
  (Str.remove_unless keep s ++ Str.remove_unless keep t)%string.
Proof.
  induction s as [|c s IH]; simpl; [reflexivity|].
  destruct (keep c); simpl; now rewrite IH.
Qed.

Lemma remove_unless_kept keep (s : string) (c : ascii) :
  In c (list_ascii_of_string (Str.remove_unless keep s)) -> keep c = true.
Proof.
  induction s as [|d s IH]; simpl; [contradiction|].
  destruct (keep d) eqn:E; simpl; [|exact IH].
  intros [<-|H]; auto.
Qed.

Lemma remove_unless_length keep (s : string) :
  String.length (Str.remove_unless keep s) <= String.length s.
Proof.
  induction s as [|d s IH]; simpl; [lia|]. destruct (keep d); simpl; lia.
Qed.

Lemma toLowerCase_length (s : string) :
  String.length (Str.toLowerCase s) = String.length s.
Proof. induction s as [|d s IH]; simpl; [reflexivity | now rewrite IH]. Qed.

(** A string of characters of [[0-9a-f]] is left as it is. *)
Lemma toHex_fixed (s : string) :
  (forall c, In c (list_ascii_of_string s) -> Str.in_0_9a_f c = true) ->
  toHex s = s.
Proof.
  unfold toHex. induction s as [|d s IH]; simpl; [reflexivity|].
  intros H. assert (Str.in_0_9a_f d = true) as Hd by (apply H; now left).
  rewrite (lower_hex d Hd), Hd. f_equal. apply IH. intros c Hc. apply H. now right.
Qed.



End HexFacts.

(** X15: [toHex] is a projection onto the strings over [[0-9a-f]]: its
    result holds no other character and is not longer than its argument,
    applying it again changes nothing, and it can be applied piecewise. *)
Theorem toHex_is_a_projection (mac mac' : string) :
  (forall c, In c (list_ascii_of_string (toHex mac)) -> Str.in_0_9a_f c = true) /\
  toHex (toHex mac) = toHex mac /\
  toHex (mac ++ mac')%string = (toHex mac ++ toHex mac')%string /\
  String.length (toHex mac) <= String.length mac.
Proof.
  assert (forall c, In c (list_ascii_of_string (toHex mac)) ->
                    Str.in_0_9a_f c = true) as H
    by (intros c; apply HexFacts.remove_unless_kept).
  split; [exact H|]. split; [now apply HexFacts.toHex_fixed|]. split.
  - unfold toHex. now rewrite HexFacts.toLowerCase_app, HexFacts.remove_unless_app.
  - unfold toHex. rewrite <- (HexFacts.toLowerCase_length mac).
    apply HexFacts.remove_unless_length.
Qed.


Open Scope string_scope.


Close Scope string_scope.

(** ** [arrayCompare] *)

Module CompareFacts.



Lemma sign_sign (x : num) : Num.sign (Num.sign x) = Num.sign x.
Proof.
  destruct x as [|[]|q]; try reflexivity. unfold Num.sign, of_Z; simpl.
  destruct (Qnum q); reflexivity.
Qed.




Lemma sub_self (x : Z) : Num.sign (Num.sub (of_Z x) (of_Z x)) = of_Z 0.
Proof. rewrite ArrayCompareFacts.sign_sub, Z.sub_diag. reflexivity. Qed.

End CompareFacts.


(** X18: [arrayCompare] looks at as many elements as its first argument
    has.  Whole numbers that the second argument has beyond an equal
    beginning are ignored, the result being [0]; where the second argument
    is the shorter one after an equal beginning, and on an empty first
    argument, the result is [NaN]. *)
Theorem arrayCompare_follows_its_first_argument
  (as_ : list Z) (bs : list num) (x : num) (xs : list num) :
  (as_ <> [] -> arrayCompare (map of_Z as_) (map of_Z as_ ++ bs) = of_Z 0) /\
  arrayCompare (map of_Z as_ ++ x :: xs) (map of_Z as_) = NaN /\
  arrayCompare [] bs = NaN.
Proof.
  split; [|split].
  - induction as_ as [|a as_ IH]; [congruence|]. intros _.
    cbn [map app arrayCompare at0 tl]. rewrite CompareFacts.sub_self.
    destruct as_ as [|a' as_]; [reflexivity|].
    change (Num.is0 (of_Z 0)) with true.
    change (1 <? length (of_Z a :: map of_Z (a' :: as_))) with true.
    cbn [andb]. apply IH. discriminate.
  - induction as_ as [|a as_ IH].
    + simpl. destruct x as [|[]|q]; simpl; destruct xs; reflexivity.
    + cbn [map app arrayCompare at0 tl]. rewrite CompareFacts.sub_self.
      change (Num.is0 (of_Z 0)) with true.
      assert ((1 <? length (of_Z a :: (map of_Z as_ ++ x :: xs))) = true) as E.
      { simpl. rewrite length_app. simpl. destruct (length (map of_Z as_)); reflexivity. }
      rewrite E. cbn [andb]. exact IH.
  - reflexivity.
Qed.

Lemma arrayCompare_follows_its_first_argument_witness :
  arrayCompare [of_Z 10; of_Z 0] [of_Z 10; of_Z 0; of_Z 0; of_Z 1] = of_Z 0 /\
  arrayCompare [of_Z 10; of_Z 0; of_Z 0; of_Z 1] [of_Z 10; of_Z 0] = NaN.
Proof.
  destruct (arrayCompare_follows_its_first_argument
              [10; 0]%Z [of_Z 0; of_Z 1] (of_Z 0) [of_Z 1]) as (H1 & H2 & _).
  split; [apply H1; discriminate | exact H2].
Defined.

(** ** The set of addresses *)

Module RangeFacts.
Section Ranges.
Variable getIPRange : option string -> option (list string).

(** [x] is an address of the range written [c], which [get-ip-range]
    accepts. *)
Definition covers (c : option string) (x : string) : Prop :=
  exists ips, getIPRange c = Some ips /\ In x ips.

Lemma ipRange_In (c : option string) (x : string) :
  In x (ipRange getIPRange c) <-> covers c x.
Proof.
  unfold ipRange, covers. destruct (getIPRange c) as [ips|].
  - split; [intros H; now exists ips | intros (ips' & E & H); now inversion E; subst].
  - split; [contradiction | intros (ips' & E & _); discriminate].
Qed.

Lemma concat_ipRange_In (cs : list (option string)) (x : string) :
  In x (concat (map (ipRange getIPRange) cs)) <->
  exists c, In c cs /\ covers c x.
Proof.
  rewrite in_concat. split.
  - intros (l & Hl & Hx). apply in_map_iff in Hl as (c & <- & Hc).
    exists c. split; [exact Hc | now apply ipRange_In].
  - intros (c & Hc & Hx). exists (ipRange getIPRange c).
    split; [now apply in_map | now apply ipRange_In].
Qed.

Lemma makeIPSet_In (c : option string) (cs : list (option string)) (x : string) :
  In x (makeIPSet getIPRange c cs) <-> exists c', In c' (c :: cs) /\ covers c' x.
Proof.
  unfold makeIPSet. rewrite JSSetFacts.of_array_In, in_app_iff.
  rewrite ipRange_In, concat_ipRange_In. split.
  - intros [H | (c' & Hc & H)]; [exists c | exists c']; simpl; auto.
  - intros (c' & [<- | Hc] & H); [now left | right; now exists c'].
Qed.

Lemma getAllNetworks_In (networkInterfaces : list (list NetworkInterfaceInfo))
      (c : option string) :
  In c (getAllNetworks networkInterfaces) <->
  exists addresses address,
    In addresses networkInterfaces /\ In address addresses /\
    family address = "IPv4"%string /\ internal address = false /\
    cidr address = c.
Proof.
  unfold getAllNetworks. rewrite in_flat_map. split.
  - intros (addresses & Ha & Hc). apply in_map_iff in Hc as (address & <- & Hf).
    apply filter_In in Hf as [Hin Hf]. unfold external_IPv4 in Hf.
    apply andb_true_iff in Hf as [Hf Hi]. apply String.eqb_eq in Hf.
    apply negb_true_iff in Hi. now exists addresses, address.
  - intros (addresses & address & Ha & Hin & Hf & Hi & <-).
    exists addresses. split; [exact Ha|]. apply in_map. apply filter_In.
    split; [exact Hin|]. unfold external_IPv4. rewrite Hf, Hi. reflexivity.
Qed.

End Ranges.
End RangeFacts.

(** X19: [makeIPSet] is the union of the ranges it is given: an address is
    in the set exactly when one of the ranges, accepted by [get-ip-range],
    holds it; a range that makes [get-ip-range] throw adds nothing; no
    address is in the set twice, and [has] decides membership. *)
Theorem makeIPSet_is_the_union_of_the_ranges
  (getIPRange : option string -> option (list string))
  (cidr : option string) (cidrs : list (option string)) (x : string) :
  (In x (makeIPSet getIPRange cidr cidrs) <->
   exists c, In c (cidr :: cidrs) /\ RangeFacts.covers getIPRange c x) /\
  (JSSet.has (makeIPSet getIPRange cidr cidrs) x = true <->
   In x (makeIPSet getIPRange cidr cidrs)) /\
  NoDup (makeIPSet getIPRange cidr cidrs) /\
  ((forall c, In c (cidr :: cidrs) -> getIPRange c = None) ->
   makeIPSet getIPRange cidr cidrs = []).
Proof.
  split; [apply RangeFacts.makeIPSet_In|]. split; [apply JSSetFacts.has_In|].
  split; [apply JSSetFacts.of_array_NoDup|].
  intros H. unfold makeIPSet.
  assert (ipRange getIPRange cidr ++ concat (map (ipRange getIPRange) cidrs) = [])
    as ->; [|reflexivity].
  assert (forall cs, (forall c, In c cs -> getIPRange c = None) ->
                     concat (map (ipRange getIPRange) cs) = []) as Hcs.
  { induction cs as [|c cs IH]; [reflexivity|]. intros Hc. simpl.
    unfold ipRange at 1. rewrite (Hc c) by now left. simpl.
    apply IH. intros c' Hc'. apply Hc. now right. }
  unfold ipRange at 1. rewrite (H cidr) by now left. simpl.
  apply Hcs. intros c Hc. apply H. now right.
Qed.

(** X20: with a first range given, [makeIPSetWithDefault] does not look at
    the network interfaces.  With none given ([null] or [undefined]) it
    does not look at the further ranges either: where [get-ip-range] throws
    on a missing range, an address is in the set exactly when it lies in the
    [cidr] of an IPv4 address of some interface that is not internal. *)
Theorem makeIPSetWithDefault_uses_the_interfaces_by_default
  (getIPRange : option string -> option (list string))
  (networkInterfaces : list (list NetworkInterfaceInfo))
  (cidrs : list (option string)) :
  getIPRange None = None ->
  (forall c interfaces,
     makeIPSetWithDefault getIPRange interfaces (Some c) cidrs =
     makeIPSet getIPRange (Some c) cidrs) /\
  (forall cidrs',
     makeIPSetWithDefault getIPRange networkInterfaces None cidrs' =
     makeIPSetWithDefault getIPRange networkInterfaces None cidrs) /\
  (forall x,
     In x (makeIPSetWithDefault getIPRange networkInterfaces None cidrs) <->
     exists addresses address,
       In addresses networkInterfaces /\ In address addresses /\
       family address = "IPv4"%string /\ internal address = false /\
       RangeFacts.covers getIPRange (cidr address) x).
Proof.
  intros Hnone. split; [reflexivity|]. split; [reflexivity|].
  intros x. unfold makeIPSetWithDefault.
  assert (In x (match getAllNetworks networkInterfaces with
                | [] => makeIPSet getIPRange None []
                | network :: networks => makeIPSet getIPRange network networks
                end) <->
          exists c, In c (getAllNetworks networkInterfaces) /\
                    RangeFacts.covers getIPRange c x) as ->.
  { destruct (getAllNetworks networkInterfaces) as [|network networks].
    - rewrite RangeFacts.makeIPSet_In. split.
      + intros (c & [<- | []] & (ips & E & _)). congruence.
      + intros (c & [] & _).
    - apply RangeFacts.makeIPSet_In. }
  split.
  - intros (c & Hc & Hx). apply RangeFacts.getAllNetworks_In in Hc
      as (addresses & address & H1 & H2 & H3 & H4 & <-).
    now exists addresses, address.
  - intros (addresses & address & H1 & H2 & H3 & H4 & Hx).
    exists (cidr address). split; [|exact Hx].
    apply RangeFacts.getAllNetworks_In. now exists addresses, address.
Qed.

(** X21: what a session of [findLocalDevices] over given ranges probes and
    what it emits lies in these ranges: every address probed and the [ip] of
    every device emitted is an address of one of the ranges. *)
Theorem findLocalDevices_stays_within_the_ranges
  (getIPRange : option string -> option (list string))
  (networkInterfaces : list (list NetworkInterfaceInfo)) (limit : num)
  (address : string) (addresses : list (option string))
  (tr : list Scan.event) (s : Scan.state) :
  run Scan.step tr
      (findLocalDevices getIPRange networkInterfaces limit
         (Some address) addresses) = Some s ->
  Forall (fun device =>
            exists c, In c (Some address :: addresses) /\
                      RangeFacts.covers getIPRange c (ip device))
         (Scan.emitted s) /\
  Forall (fun a =>
            exists c, In c (Some address :: addresses) /\
                      RangeFacts.covers getIPRange c a)
         (Scan.probes s).
Proof.
  unfold findLocalDevices. cbn [makeIPSetWithDefault].
  set (S := makeIPSet getIPRange (Some address) addresses). intros Hrun.
  split.
  - assert (FindResults.reached limit S s) as Hr by now exists tr.
    pose proof (FindResults.reached_emitted limit S s Hr) as He.
    rewrite Forall_forall in *. intros device Hin.
    apply RangeFacts.makeIPSet_In. apply JSSetFacts.has_In. now apply He.
  - destruct (ScanLookups.run_hosts _ _ _ _ Hrun) as [Hd _].
    apply Forall_forall. intros a Ha. apply RangeFacts.makeIPSet_In. fold S.
    unfold Scan.probes in Ha.
    destruct (MapConcurrently.at_ (Scan.hosts s)) eqn:Hat;
      try (rewrite <- (MapConcurrentlyFacts.drawn_split _ _ _ Hd)
             by (rewrite Hat; discriminate);
           apply in_or_app; now left).
    destruct (MapConcurrentlyFacts.drawn_fresh _ _ _ Hd Hat) as (_ & Hc & _).
    rewrite Hc in Ha. contradiction.
Qed.

Module RangeExamples.
Open Scope string_scope.

(** [get-ip-range] on two CIDR ranges; it throws on everything else. *)
Definition getIPRange (c : option string) : option (list string) :=
  match c with
  | Some "10.0.0.0/30" => Some ["10.0.0.0"; "10.0.0.1"; "10.0.0.2"; "10.0.0.3"]
  | Some "10.0.0.2/31" => Some ["10.0.0.2"; "10.0.0.3"]
  | _ => None
  end.

(** A loopback interface, and one with an IPv4 and an IPv6 address. *)
Definition networkInterfaces : list (list NetworkInterfaceInfo) :=
  [ [ {| family := "IPv4"; internal := true; cidr := Some "127.0.0.1/8" |} ];
    [ {| family := "IPv4"; internal := false; cidr := Some "10.0.0.2/31" |};
      {| family := "IPv6"; internal := false; cidr := Some "fe80::1/64" |} ] ].

Close Scope string_scope.
End RangeExamples.

Open Scope string_scope.

Lemma makeIPSet_is_the_union_of_the_ranges_witness :
  makeIPSet RangeExamples.getIPRange (Some "10.0.0.2/31")
            [Some "bogus"; Some "10.0.0.0/30"] =
    ["10.0.0.2"; "10.0.0.3"; "10.0.0.0"; "10.0.0.1"] /\
  makeIPSet RangeExamples.getIPRange (Some "bogus") [None] = [].
Proof.
  split; [reflexivity|].
  apply (makeIPSet_is_the_union_of_the_ranges RangeExamples.getIPRange
           (Some "bogus") [None] "10.0.0.1").
  intros c [<- | [<- | []]]; reflexivity.
Defined.

Lemma makeIPSetWithDefault_uses_the_interfaces_by_default_witness :
  makeIPSetWithDefault RangeExamples.getIPRange RangeExamples.networkInterfaces
                       None [Some "10.0.0.0/30"] =
    ["10.0.0.2"; "10.0.0.3"] /\
  In "10.0.0.3"
     (makeIPSetWithDefault RangeExamples.getIPRange
        RangeExamples.networkInterfaces None [Some "10.0.0.0/30"]).
Proof.
  split; [reflexivity|].
  apply (makeIPSetWithDefault_uses_the_interfaces_by_default
           RangeExamples.getIPRange RangeExamples.networkInterfaces
           [Some "10.0.0.0/30"] eq_refl).
  eexists. eexists. split; [right; left; reflexivity|].
  split; [left; reflexivity|]. split; [reflexivity|]. split; [reflexivity|].
  eexists. split; [reflexivity|]. simpl. tauto.
Defined.

Lemma findLocalDevices_stays_within_the_ranges_witness :
  exists s,
    run Scan.step ScanExamples.two_hosts
        (findLocalDevices RangeExamples.getIPRange RangeExamples.networkInterfaces
           (of_nat 32) (Some "10.0.0.2/31") []) = Some s /\
    Scan.probes s = ["10.0.0.2"; "10.0.0.3"] /\
    Forall (fun device =>
              exists c, In c [Some "10.0.0.2/31"] /\
                        RangeFacts.covers RangeExamples.getIPRange c (ip device))
           (Scan.emitted s).
Proof.
  eexists. split; [vm_compute; reflexivity|]. split; [reflexivity|].
  apply (findLocalDevices_stays_within_the_ranges RangeExamples.getIPRange
           RangeExamples.networkInterfaces (of_nat 32) "10.0.0.2/31" []
           ScanExamples.two_hosts).
  vm_compute; reflexivity.
Defined.

Close Scope string_scope.

(** ** [parseIPv4] *)

Module SplitFacts.

(** The number of occurrences of the separator. *)
Fixpoint count (sep : ascii) (s : string) : nat :=
  match s with
  | EmptyString => 0
  | String c s' => (if Ascii.eqb c sep then 1 else 0) + count sep s'
  end.

Lemma split_length (sep : ascii) (s : string) :
  length (Str.split sep s) = S (count sep s).
Proof.
  induction s as [|c s IH]; simpl; [reflexivity|].
  destruct (Ascii.eqb c sep); simpl; [now rewrite IH|].
  destruct (Str.split sep s); simpl in *; [discriminate | exact IH].
Qed.

End SplitFacts.

(** X22: [parseIPv4] returns one number for each field between dots, one
    more than there are dots: never an empty array, and four numbers exactly
    for a string with three dots. *)
Theorem parseIPv4_one_number_per_field
  (Number : option string -> num) (ip : string) :
  length (parseIPv4 Number ip) = S (SplitFacts.count "."%char ip) /\
  parseIPv4 Number ip <> [].
Proof.
  unfold parseIPv4. rewrite length_map, SplitFacts.split_length.
  split; [reflexivity|]. intros E. apply (f_equal (@length num)) in E.
  rewrite length_map, SplitFacts.split_length in E. discriminate.
Qed.

(** ** What [raceAll] yields *)

Module RaceAllFacts.
Import Gen JSMap JSMapFacts RaceAll.

Section Account.
Context {Y : Type}.
Implicit Types (s : @RaceAll.state Y) (m : JSMap.t (promise (nat * Y))).

Lemma untag_indexed i (p : promise Y) :
  SchedulerResults.untag (indexed i p) = eventual p.
Proof.
  unfold SchedulerResults.untag, indexed, then_; simpl. now destruct (eventual p).
Qed.

Lemma values_indexed (ps : list (promise Y)) i :
  map SchedulerResults.untag
      (map snd (entries (of_array_from i (indexed_from i ps)))) =
  map eventual ps.
Proof.
  revert i; induction ps as [|p ps IH]; intros i; simpl; [reflexivity|].
  now rewrite untag_indexed, IH.
Qed.

Lemma entries_indexed (ps : list (promise Y)) i k q :
  In (k, q) (entries (of_array_from i (indexed_from i ps))) ->
  exists p, In p ps /\ q = indexed k p.
Proof.
  revert i; induction ps as [|p ps IH]; intros i; simpl; [easy|].
  intros [E|Hin].
  - inversion E; subst. exists p; now split; [left|].
  - apply IH in Hin as (p' & Hin & ->). exists p'; now split; [right|].
Qed.

Lemma tagged_indexed (ps : list (promise Y)) :
  MapConcurrentlyFacts.tagged (of_array (indexed_from 0 ps)).
Proof.
  intros k q i y Hin He. apply entries_indexed in Hin as (p & _ & ->).
  unfold indexed, then_ in He; simpl in He.
  destruct (eventual p); now inversion He.
Qed.

Lemma length_indexed_from (ps : list (promise Y)) i :
  length (indexed_from i ps) = length ps.
Proof.
  revert i; induction ps as [|p ps IH]; intros i; simpl; [reflexivity|].
  now rewrite IH.
Qed.

Lemma settle_nth_eventual k (ps ps' : list (promise Y)) :
  settle_nth k ps = Some ps' -> map eventual ps' = map eventual ps.
Proof.
  revert k ps'; induction ps as [|p ps IH]; intros k ps'; simpl.
  - now destruct k.
  - destruct k as [|k]; simpl.
    + destruct (settled p); [discriminate|]. intros H; now inversion H.
    + destruct (settle_nth k ps) as [ps''|] eqn:E; [|discriminate].
      intros H; inversion H; subst; simpl. f_equal. now apply IH with (k := k).
Qed.

(** What was handed in is, up to order, what has been yielded and what the
    map still holds. *)
Definition accounted (os : list (outcome Y)) m (ys : list Y) : Prop :=
  wf m /\ MapConcurrentlyFacts.tagged m /\
  Permutation os (map Resolved ys ++ SchedulerResults.in_window m).

Record kept (os : list (outcome Y)) s : Prop := {
  kept_input : map eventual (aIt s) = os;
  kept_fresh : at_ s = Fresh -> yielded s = [];
  kept_results : at_ s <> Fresh -> accounted os (promises s) (yielded s)
}.

Lemma raceAll_accounts (ps : list (promise Y)) :
  kept (map eventual ps) (raceAll ps).
Proof. constructor; simpl; auto; intros H; now contradiction H. Qed.

Lemma race_step_accounts os s :
  map eventual (aIt s) = os -> accounted os (promises s) (yielded s) ->
  kept os (race_step s).
Proof.
  intros Hin (Hwf & Htag & Hres). unfold race_step.
  destruct (race (promises s)) as [[[i value]|]|] eqn:E.
  - apply MapConcurrentlyFacts.race_some in E as (k & p & Hp & Hs & He).
    assert (i = k) by (eapply Htag; eauto). subst i.
    constructor; simpl; auto; try discriminate.
    intros _. split; [now apply wf_delete|].
    split; [now apply MapConcurrentlyFacts.tagged_delete|].
    rewrite Hres.
    rewrite (SchedulerResults.in_window_delete _ k p Hwf Hp).
    unfold SchedulerResults.untag. rewrite He. simpl.
    rewrite map_app, <- app_assoc. simpl.
    apply Permutation_app_head. reflexivity.
  - constructor; simpl; auto; try discriminate. intros _. now split.
  - constructor; simpl; auto; try discriminate. intros _. now split.
Qed.

Lemma for_of_accounts os s :
  map eventual (aIt s) = os -> accounted os (promises s) (yielded s) ->
  kept os (for_of s).
Proof.
  intros Hin Hacc. unfold for_of.
  destruct (iter_next (promises s) (cursor s)) as [[kv c]|].
  - now apply race_step_accounts.
  - constructor; simpl; auto; discriminate.
Qed.

Lemma mark_accounted os k s :
  accounted os (promises s) (yielded s) ->
  accounted os (promises (mark k s)) (yielded (mark k s)) /\
  aIt (mark k s) = aIt s /\ at_ (mark k s) = at_ s.
Proof.
  intros (Hwf & Htag & Hres). unfold mark.
  destruct (get (promises s) k) as [p|] eqn:Hget; simpl; [|now repeat split].
  repeat split.
  - now apply wf_replace.
  - now apply MapConcurrentlyFacts.tagged_settle.
  - now rewrite SchedulerResults.in_window_settle.
Qed.

Lemma step_accounts os e s s' : kept os s -> step e s = Some s' -> kept os s'.
Proof.
  intros [Hin Hf Hres]. unfold step. destruct e as [|k].
  - destruct (at_ s) as [| |i v| |] eqn:Hat; try discriminate;
      intros H; injection H as <-.
    + apply for_of_accounts; [exact Hin|]. simpl. rewrite (Hf eq_refl).
      split; [apply wf_of_array|]. split; [apply tagged_indexed|].
      simpl. unfold SchedulerResults.in_window, values, of_array.
      now rewrite values_indexed, Hin.
    + apply for_of_accounts; [exact Hin|]. apply Hres. discriminate.
    + constructor; auto; rewrite Hat; auto.
    + constructor; auto; rewrite Hat; auto.
  - destruct (at_ s) as [| |i v| |] eqn:Hat.
    + destruct (settle_nth k (aIt s)) as [ps|] eqn:E; [|discriminate].
      intros H; injection H as <-.
      constructor; simpl; auto.
      now rewrite (settle_nth_eventual _ _ _ E).
    + destruct (get (promises s) k) as [p|]; [|discriminate].
      destruct (settled p); [discriminate|]. intros H; injection H as <-.
      destruct (mark_accounted _ k s (Hres ltac:(discriminate))) as (A1 & A2 & A3).
      apply race_step_accounts; [now rewrite A2 | exact A1].
    + destruct (get (promises s) k) as [p|]; [|discriminate].
      destruct (settled p); [discriminate|]. intros H; injection H as <-.
      destruct (mark_accounted _ k s (Hres ltac:(discriminate))) as (A1 & A2 & A3).
      constructor; [now rewrite A2 | rewrite A3, Hat; discriminate | auto].
    + destruct (get (promises s) k) as [p|]; [|discriminate].
      destruct (settled p); [discriminate|]. intros H; injection H as <-.
      destruct (mark_accounted _ k s (Hres ltac:(discriminate))) as (A1 & A2 & A3).
      constructor; [now rewrite A2 | rewrite A3, Hat; discriminate | auto].
    + destruct (get (promises s) k) as [p|]; [|discriminate].
      destruct (settled p); [discriminate|]. intros H; injection H as <-.
      destruct (mark_accounted _ k s (Hres ltac:(discriminate))) as (A1 & A2 & A3).
      constructor; [now rewrite A2 | rewrite A3, Hat; discriminate | auto].
Qed.

Lemma run_accounts (ps : list (promise Y)) tr s :
  run step tr (raceAll ps) = Some s -> kept (map eventual ps) s.
Proof.
  apply (run_invariant step (kept (map eventual ps))); [|apply raceAll_accounts].
  intros e s1 s2. apply step_accounts.
Qed.

End Account.
End RaceAllFacts.

(** X23: whatever the order in which the promises settle, [raceAll] yields
    only values of the promises it was handed, each at most once: what was
    handed in is, up to order, what has been yielded together with something
    left over; so it never yields more values than there are promises. *)
Theorem raceAll_yields_only_what_it_was_handed
  {Y : Type} (ps : list (promise Y)) (tr : list Gen.event) (s : RaceAll.state) :
  run RaceAll.step tr (RaceAll.raceAll ps) = Some s ->
  (exists left_over,
     Permutation (map eventual ps)
                 (map Resolved (RaceAll.yielded s) ++ left_over)) /\
  length (RaceAll.yielded s) <= length ps.
Proof.
  intros Hrun. pose proof (RaceAllFacts.run_accounts ps tr s Hrun)
    as [Hin Hf Hres].
  assert (exists left_over,
            Permutation (map eventual ps)
                        (map Resolved (RaceAll.yielded s) ++ left_over)) as H.
  { destruct (RaceAll.at_ s) eqn:Hat;
      try (eexists; apply Hres; discriminate).
    all: try (rewrite Hat in Hres; eexists; apply Hres; discriminate).
    exists (map eventual ps). now rewrite (Hf eq_refl). }
  split; [exact H|]. destruct H as [left_over H].
  apply Permutation_length in H.
  rewrite length_app, !length_map in H. lia.
Qed.

Open Scope string_scope.

Lemma raceAll_yields_only_what_it_was_handed_witness :
  exists s,
    run RaceAll.step [Gen.Next; Gen.Settle 1; Gen.Next; Gen.Settle 0; Gen.Next]
        (RaceAll.raceAll [pending_promise (Resolved "a");
                          pending_promise (Resolved "b")]) = Some s /\
    RaceAll.yielded s = ["b"] /\
    length (RaceAll.yielded s) <= 2.
Proof.
  eexists. split; [vm_compute; reflexivity|]. split; [reflexivity|].
  apply (raceAll_yields_only_what_it_was_handed
           [pending_promise (Resolved "a"); pending_promise (Resolved "b")]
           [Gen.Next; Gen.Settle 1; Gen.Next; Gen.Settle 0; Gen.Next]).
  vm_compute; reflexivity.
Defined.

Close Scope string_scope.

(** ** [raceAll] on promises that settle in the order given *)

Module RaceAllOrder.
Import Gen JSMap RaceAll.

(** The settlements of a trace are those of promise [j], [j + 1], ... in
    this order. *)
Fixpoint in_order (j : nat) (tr : list Gen.event) : Prop :=
  match tr with
  | [] => True
  | Next :: tr' => in_order j tr'
  | Settle m :: tr' => m = j /\ in_order (S j) tr'
  end.

Section Order.
Context {Y : Type}.
Implicit Types (s : @RaceAll.state Y) (vs : list Y).

(** Promise [i] when the first [j] promises have settled. *)
Definition input_at (j i : nat) (v : Y) : promise Y :=
  {| eventual := Resolved v; settled := i <? j |}.

Fixpoint inputs_from (i j : nat) vs : list (promise Y) :=
  match vs with
  | [] => []
  | v :: vs' => input_at j i v :: inputs_from (S i) j vs'
  end.

(** The map when the first [k] entries have been deleted and the first [j]
    promises have settled. *)
Fixpoint layout_from (i k j : nat) vs : JSMap.t (promise (nat * Y)) :=
  match vs with
  | [] => []
  | v :: vs' =>
      (if i <? k then None else Some (i, indexed i (input_at j i v)))
        :: layout_from (S i) k j vs'
  end.

Lemma inputs_pending vs i :
  map (fun v => pending_promise (Resolved v)) vs = inputs_from i 0 vs.
Proof.
  revert i; induction vs as [|v vs IH]; intros i; simpl; [reflexivity|].
  now rewrite <- IH.
Qed.

Lemma layout_start vs i j :
  of_array_from i (indexed_from i (inputs_from i j vs)) = layout_from i 0 j vs.
Proof.
  revert i; induction vs as [|v vs IH]; intros i; simpl; [reflexivity|].
  now rewrite IH.
Qed.

Lemma inputs_later vs i j :
  S j <= i -> inputs_from i j vs = inputs_from i (S j) vs.
Proof.
  revert i; induction vs as [|v vs IH]; intros i Hi; simpl; [reflexivity|].
  rewrite IH by lia. unfold input_at.
  replace (i <? j) with false by (symmetry; apply Nat.ltb_ge; lia).
  replace (i <? S j) with false by (symmetry; apply Nat.ltb_ge; lia).
  reflexivity.
Qed.

Lemma settle_next vs i j ps :
  i <= j -> settle_nth (j - i) (inputs_from i j vs) = Some ps ->
  ps = inputs_from i (S j) vs.
Proof.
  revert i ps; induction vs as [|v vs IH]; intros i ps Hi; simpl.
  - destruct (j - i); discriminate.
  - destruct (j - i) as [|m] eqn:E; simpl.
    + assert (i = j) by lia. subst i. rewrite Nat.ltb_irrefl.
      intros H; injection H as <-. rewrite <- inputs_later by lia.
      unfold settle, input_at; simpl.
      replace (j <? S j) with true by (symmetry; apply Nat.ltb_lt; lia).
      reflexivity.
    + destruct (settle_nth m (inputs_from (S i) j vs)) as [ps'|] eqn:E';
        [|discriminate].
      intros H; injection H as <-.
      replace m with (j - S i) in E' by lia.
      apply IH in E'; [|lia]. subst ps'. unfold input_at.
      replace (i <? j) with true by (symmetry; apply Nat.ltb_lt; lia).
      replace (i <? S j) with true by (symmetry; apply Nat.ltb_lt; lia).
      reflexivity.
Qed.

Lemma layout_later vs i k j :
  S j <= i -> layout_from i k j vs = layout_from i k (S j) vs.
Proof.
  revert i; induction vs as [|v vs IH]; intros i Hi; simpl; [reflexivity|].
  rewrite IH by lia. unfold input_at.
  replace (i <? j) with false by (symmetry; apply Nat.ltb_ge; lia).
  replace (i <? S j) with false by (symmetry; apply Nat.ltb_ge; lia).
  reflexivity.
Qed.

Lemma replace_later vs i k j m p :
  m < i -> replace (layout_from i k j vs) m p = layout_from i k j vs.
Proof.
  revert i; induction vs as [|v vs IH]; intros i Hi; simpl; [reflexivity|].
  rewrite IH by lia. destruct (i <? k); simpl; [reflexivity|].
  replace (i =? m) with false by (symmetry; apply Nat.eqb_neq; lia).
  reflexivity.
Qed.

Lemma delete_later vs i k j m :
  m < i -> delete (layout_from i k j vs) m = layout_from i k j vs.
Proof.
  revert i; induction vs as [|v vs IH]; intros i Hi; simpl; [reflexivity|].
  rewrite IH by lia. destruct (i <? k); simpl; [reflexivity|].
  replace (i =? m) with false by (symmetry; apply Nat.eqb_neq; lia).
  reflexivity.
Qed.

Lemma layout_deleted vs i k j :
  S k <= i -> layout_from i k j vs = layout_from i (S k) j vs.
Proof.
  revert i; induction vs as [|v vs IH]; intros i Hi; simpl; [reflexivity|].
  rewrite IH by lia.
  replace (i <? k) with false by (symmetry; apply Nat.ltb_ge; lia).
  replace (i <? S k) with false by (symmetry; apply Nat.ltb_ge; lia).
  reflexivity.
Qed.

(** The promise that settles next is pending; settling it moves [j]. *)
Lemma get_next vs i k j p :
  i <= j -> k <= j -> get (layout_from i k j vs) j = Some p ->
  settled p = false /\
  replace (layout_from i k j vs) j (settle p) = layout_from i k (S j) vs.
Proof.
  revert i; induction vs as [|v vs IH]; intros i Hi Hk; simpl; [discriminate|].
  destruct (Nat.eq_dec i j) as [->|Hne].
  - replace (j <? k) with false by (symmetry; apply Nat.ltb_ge; lia).
    simpl. rewrite Nat.eqb_refl. intros H; injection H as <-. simpl.
    rewrite Nat.ltb_irrefl. split; [reflexivity|].
    rewrite replace_later by lia. rewrite <- layout_later by lia.
    unfold settle, indexed, input_at; simpl.
    replace (j <? S j) with true by (symmetry; apply Nat.ltb_lt; lia).
    reflexivity.
  - assert (i < j) as Hlt by lia.
    assert (input_at j i v = input_at (S j) i v) as Ein.
    { unfold input_at.
      replace (i <? j) with true by (symmetry; apply Nat.ltb_lt; lia).
      replace (i <? S j) with true by (symmetry; apply Nat.ltb_lt; lia).
      reflexivity. }
    destruct (i <? k); simpl.
    + intros H. apply IH in H as [H1 H2]; [|lia|lia]. now rewrite H2.
    + replace (i =? j) with false by (symmetry; apply Nat.eqb_neq; lia).
      intros H. apply IH in H as [H1 H2]; [|lia|lia]. now rewrite H2, Ein.
Qed.

(** No promise from [j] on has settled. *)
Lemma race_later vs i k j :
  j <= i -> race (layout_from i k j vs) = None.
Proof.
  unfold race, values.
  revert i; induction vs as [|v vs IH]; intros i Hi; simpl; [reflexivity|].
  destruct (i <? k); simpl; [apply IH; lia|].
  replace (i <? j) with false by (symmetry; apply Nat.ltb_ge; lia).
  apply IH; lia.
Qed.

(** The race is won by the first entry left, if it has settled. *)
Lemma race_first vs i k j :
  i <= k -> k <= j ->
  race (layout_from i k j vs) =
  match nth_error vs (k - i) with
  | Some v => if k <? j then Some (Resolved (k, v)) else None
  | None => None
  end.
Proof.
  revert i; induction vs as [|v vs IH]; intros i Hi Hk.
  - simpl. now destruct (k - i).
  - destruct (Nat.eq_dec i k) as [->|Hne].
    + rewrite Nat.sub_diag. cbn [nth_error layout_from].
      rewrite Nat.ltb_irrefl.
      destruct (k <? j) eqn:E.
      * unfold race, values; simpl. now rewrite E.
      * apply Nat.ltb_ge in E. assert (j = k) by lia. subst j.
        pose proof (race_later vs (S k) k k ltac:(lia)) as R.
        unfold race, values in *; simpl. now rewrite Nat.ltb_irrefl.
    + cbn [layout_from].
      replace (i <? k) with true by (symmetry; apply Nat.ltb_lt; lia).
      replace (k - i) with (S (k - S i)) by lia. cbn [nth_error].
      rewrite <- IH by lia. reflexivity.
Qed.

Lemma delete_first vs i k j :
  i <= k -> delete (layout_from i k j vs) k = layout_from i (S k) j vs.
Proof.
  revert i; induction vs as [|v vs IH]; intros i Hi; simpl; [reflexivity|].
  destruct (Nat.eq_dec i k) as [->|Hne].
  - rewrite Nat.ltb_irrefl. simpl. rewrite Nat.eqb_refl.
    replace (k <? S k) with true by (symmetry; apply Nat.ltb_lt; lia).
    rewrite delete_later by lia. now rewrite <- layout_deleted by lia.
  - replace (i <? k) with true by (symmetry; apply Nat.ltb_lt; lia).
    replace (i <? S k) with true by (symmetry; apply Nat.ltb_lt; lia).
    simpl. now rewrite IH by lia.
Qed.

Lemma skipn_layout vs n i k j :
  skipn n (layout_from i k j vs) = layout_from (i + n) k j (skipn n vs).
Proof.
  revert i vs; induction n as [|n IH]; intros i vs.
  - now rewrite Nat.add_0_r.
  - destruct vs as [|v vs]; simpl; [reflexivity|].
    rewrite IH. now replace (S i + n) with (i + S n) by lia.
Qed.

Lemma skipn_nth vs k :
  skipn k vs = match nth_error vs k with
               | Some v => v :: skipn (S k) vs
               | None => []
               end.
Proof.
  revert k; induction vs as [|v vs IH]; intros [|k]; simpl; try reflexivity.
  apply IH.
Qed.

Lemma firstn_nth vs k v :
  nth_error vs k = Some v -> firstn (S k) vs = firstn k vs ++ [v].
Proof.
  revert k; induction vs as [|w vs IH]; intros [|k]; simpl; try discriminate.
  - intros H; now injection H as <-.
  - intros H. f_equal. now apply IH.
Qed.

Lemma firstn_none vs k : nth_error vs k = None -> firstn k vs = vs.
Proof. intros H. apply firstn_all2. now apply nth_error_None. Qed.

(** The iterator of the [for...of], standing at the first entry left. *)
Lemma iter_next_first vs k j :
  iter_next (layout_from 0 k j vs) k =
  match nth_error vs k with
  | Some v => Some ((k, indexed k (input_at j k v)), S k)
  | None => None
  end.
Proof.
  unfold iter_next. rewrite skipn_layout, skipn_nth. simpl.
  destruct (nth_error vs k) as [v|]; simpl; [|reflexivity].
  now rewrite Nat.ltb_irrefl.
Qed.

(** Where a run in input order stands: [j] promises have settled, [k]
    values have been yielded. *)
Definition ordered vs (j : nat) s : Prop :=
  match at_ s with
  | Fresh => aIt s = inputs_from 0 j vs /\ yielded s = []
  | Suspended _ _ =>
      exists k, cursor s = k /\ k <= j /\
                promises s = layout_from 0 k j vs /\
                yielded s = firstn k vs /\ k <= length vs
  | Awaiting =>
      exists k, cursor s = S k /\ k = j /\
                promises s = layout_from 0 k j vs /\
                yielded s = firstn k vs /\ k < length vs
  | Done => yielded s = vs
  | Threw => False
  end.

Lemma raceAll_ordered vs :
  ordered vs 0 (raceAll (map (fun v => pending_promise (Resolved v)) vs)).
Proof. split; [apply inputs_pending | reflexivity]. Qed.

(** The race and what follows it, with [k] entries deleted, the cursor
    behind entry [k]. *)
Lemma race_step_ordered vs k j s :
  k <= j -> promises s = layout_from 0 k j vs -> cursor s = S k ->
  yielded s = firstn k vs -> k < length vs ->
  ordered vs j (race_step s).
Proof.
  intros Hk Hp Hc Hy Hlen. unfold race_step. rewrite Hp.
  rewrite race_first by lia. rewrite Nat.sub_0_r.
  destruct (nth_error vs k) as [v|] eqn:Hv;
    [|apply nth_error_None in Hv; lia].
  destruct (k <? j) eqn:E.
  - apply Nat.ltb_lt in E. unfold ordered; simpl. exists (S k).
    rewrite delete_first by lia. rewrite Hy, (firstn_nth vs k v Hv).
    repeat split; auto; lia.
  - apply Nat.ltb_ge in E. unfold ordered; simpl. exists k.
    repeat split; auto; lia.
Qed.

Lemma for_of_ordered vs k j s :
  k <= j -> promises s = layout_from 0 k j vs -> cursor s = k ->
  yielded s = firstn k vs ->
  ordered vs j (for_of s).
Proof.
  intros Hk Hp Hc Hy. unfold for_of. rewrite Hp, Hc, iter_next_first.
  destruct (nth_error vs k) as [v|] eqn:Hv.
  - apply (race_step_ordered vs k j); simpl; auto.
    apply nth_error_Some. congruence.
  - unfold ordered; simpl. rewrite Hy. now apply firstn_none.
Qed.

Lemma mark_next vs k j s p :
  k <= j -> promises s = layout_from 0 k j vs ->
  get (promises s) j = Some p ->
  settled p = false /\
  promises (mark j s) = layout_from 0 k (S j) vs /\
  cursor (mark j s) = cursor s /\ yielded (mark j s) = yielded s /\
  at_ (mark j s) = at_ s.
Proof.
  intros Hk Hp Hget. unfold mark. rewrite Hget. simpl.
  rewrite Hp in *. apply get_next in Hget as [H1 H2]; [|lia|lia].
  now rewrite H2.
Qed.

Lemma step_ordered vs j e s s' :
  ordered vs j s -> step e s = Some s' ->
  match e with
  | Next => ordered vs j s'
  | Settle m => m = j -> ordered vs (S j) s'
  end.
Proof.
  unfold ordered at 1, step. destruct e as [|m].
  - destruct (at_ s) as [| |i v| |] eqn:Hat; try discriminate.
    + intros [Ha Hy] H. injection H as <-.
      apply (for_of_ordered vs 0 j); simpl; auto; [lia|].
      unfold of_array. rewrite Ha. apply layout_start.
    + intros (k & Hc & Hk & Hp & Hy & Hlen) H. injection H as <-.
      now apply (for_of_ordered vs k j).
    + intros Hy H. injection H as <-. unfold ordered. now rewrite Hat.
    + contradiction.
  - destruct (at_ s) as [| |i v| |] eqn:Hat.
    + intros [Ha Hy] H ->.
      destruct (settle_nth j (aIt s)) as [ps|] eqn:E; [|discriminate].
      injection H as <-. unfold ordered; simpl.
      split; [|exact Hy]. rewrite Ha in E.
      apply (settle_next vs 0 j); [lia|]. now rewrite Nat.sub_0_r.
    + intros (k & Hc & Hk & Hp & Hy & Hlen) H ->. subst k.
      destruct (get (promises s) j) as [p|] eqn:Hget; [|discriminate].
      destruct (mark_next vs j j s p (le_n j) Hp Hget)
        as (Hs & M1 & M2 & M3 & M4).
      rewrite Hs in H. injection H as <-.
      apply (race_step_ordered vs j (S j)); auto; congruence.
    + intros (k & Hc & Hk & Hp & Hy & Hlen) H ->.
      destruct (get (promises s) j) as [p|] eqn:Hget; [|discriminate].
      destruct (mark_next vs k j s p Hk Hp Hget) as (Hs & M1 & M2 & M3 & M4).
      rewrite Hs in H. injection H as <-.
      unfold ordered. rewrite M4, Hat. exists k.
      repeat split; auto; try congruence; lia.
    + intros Hy H _.
      destruct (get (promises s) m) as [p|] eqn:Hget; [|discriminate].
      destruct (settled p); [discriminate|]. injection H as <-.
      unfold ordered, mark. rewrite Hget. simpl. now rewrite Hat.
    + contradiction.
Qed.

Lemma run_ordered vs tr j s s' :
  in_order j tr -> ordered vs j s -> run step tr s = Some s' ->
  exists j', ordered vs j' s'.
Proof.
  revert j s; induction tr as [|e tr IH]; intros j s Hin Ho Hrun; simpl in Hrun.
  - injection Hrun as <-. now exists j.
  - destruct (step e s) as [s1|] eqn:E; [|discriminate].
    pose proof (step_ordered vs j e s s1 Ho E) as Hs.
    destruct e as [|m]; simpl in Hin.
    + now apply (IH j s1).
    + destruct Hin as [-> Hin]. apply (IH (S j) s1); auto.
Qed.

End Order.
End RaceAllOrder.

(** X24: when the promises handed to [raceAll] all resolve and settle in
    the order they were given, however the requests of the consumer fall in
    between, [raceAll] yields their values in that order and has yielded all
    of them when it finishes: in that case it keeps what its comment
    promises. *)
Theorem raceAll_yields_all_in_input_order
  {Y : Type} (vs : list Y) (tr : list Gen.event) (s : RaceAll.state) :
  RaceAllOrder.in_order 0 tr ->
  run RaceAll.step tr
      (RaceAll.raceAll (map (fun v => pending_promise (Resolved v)) vs))
    = Some s ->
  (exists k, RaceAll.yielded s = firstn k vs) /\
  (RaceAll.at_ s = Gen.Done -> RaceAll.yielded s = vs) /\
  RaceAll.at_ s <> Gen.Threw.
Proof.
  intros Hin Hrun.
  destruct (RaceAllOrder.run_ordered vs tr 0 _ s Hin
              (RaceAllOrder.raceAll_ordered vs) Hrun) as [j Ho].
  unfold RaceAllOrder.ordered in Ho.
  destruct (RaceAll.at_ s) as [| |i v| |] eqn:Hat.
  - destruct Ho as [_ Hy]. split; [exists 0; now rewrite Hy|].
    split; discriminate.
  - destruct Ho as (k & _ & _ & _ & Hy & _). split; [now exists k|].
    split; discriminate.
  - destruct Ho as (k & _ & _ & _ & Hy & _). split; [now exists k|].
    split; discriminate.
  - split; [exists (length vs); now rewrite firstn_all|].
    split; [auto | discriminate].
  - contradiction.
Qed.

Open Scope string_scope.

Lemma raceAll_yields_all_in_input_order_witness :
  exists s,
    run RaceAll.step
        [Gen.Settle 0; Gen.Next; Gen.Next; Gen.Settle 1; Gen.Settle 2;
         Gen.Next; Gen.Next]
        (RaceAll.raceAll
           (map (fun v => pending_promise (Resolved v)) ["a"; "b"; "c"]))
      = Some s /\
    RaceAll.at_ s = Gen.Done /\
    RaceAll.yielded s = ["a"; "b"; "c"].
Proof.
  eexists. split; [vm_compute; reflexivity|]. split; [reflexivity|].
  eapply (raceAll_yields_all_in_input_order ["a"; "b"; "c"]
            [Gen.Settle 0; Gen.Next; Gen.Next; Gen.Settle 1; Gen.Settle 2;
             Gen.Next; Gen.Next]).
  - simpl. tauto.
  - vm_compute; reflexivity.
  - reflexivity.
Defined.

Close Scope string_scope.

(** X25: on two arrays of whole numbers of one length that is not zero, as
    [parseIPv4] gives for two dotted addresses, [arrayCompare] is a
    three-way comparison: it answers [-1], [0] or [1], [0] exactly for equal
    arrays, and the opposite with the arguments exchanged. *)
Theorem arrayCompare_is_three_way (a b : list Z) :
  length a = length b -> a <> [] ->
  exists c : Z,
    (c = -1 \/ c = 0 \/ c = 1)%Z /\
    arrayCompare (map of_Z a) (map of_Z b) = of_Z c /\
    arrayCompare (map of_Z b) (map of_Z a) = of_Z (- c) /\
    (c = 0%Z <-> a = b).
Proof.
  revert b; induction a as [|x a IH]; intros [|y b] Hlen Hne;
    try discriminate; [congruence|].
  simpl in Hlen. injection Hlen as Hlen.
  cbn [map arrayCompare at0 tl]. rewrite !ArrayCompareFacts.sign_sub.
  assert (forall u v : Z, Num.is0 (of_Z (Z.sgn (u - v))) = (u =? v)%Z) as Hz.
  { intros u v. unfold Num.is0, of_Z, inject_Z; simpl.
    destruct (Z.eqb_spec u v); [subst; now rewrite Z.sub_diag|].
    apply Z.eqb_neq. intros H. apply Z.sgn_null_iff in H. lia. }
  assert ((1 <? length (of_Z x :: map of_Z a)) = negb (length a =? 0)) as Hl
    by (destruct a; reflexivity).
  assert ((1 <? length (of_Z y :: map of_Z b)) = negb (length a =? 0)) as Hl'
    by (rewrite Hlen; destruct b; reflexivity).
  rewrite !Hz, Hl, Hl'. rewrite (Z.eqb_sym y x).
  destruct (Z.eqb_spec x y) as [->|Hxy]; cbn [andb].
  - destruct a as [|x' a]; cbn [length Nat.eqb negb].
    + destruct b; [|discriminate Hlen]. exists 0%Z.
      rewrite Z.sub_diag. simpl. repeat split; auto.
    + destruct (IH b Hlen ltac:(discriminate)) as (c & Hc & E1 & E2 & E3).
      exists c. repeat split; auto.
      * intros Hc0. f_equal. now apply E3.
      * intros E. injection E as E. now apply E3.
  - exists (Z.sgn (x - y)). split; [|split; [reflexivity|split]].
    + destruct (Z.sgn_spec (x - y)) as [[_ ->]|[[_ ->]|[_ ->]]]; auto.
    + f_equal. rewrite <- Z.sgn_opp. f_equal. lia.
    + split.
      * intros E. apply Z.sgn_null_iff in E. lia.
      * intros E. injection E as E _. contradiction.
Qed.

Lemma arrayCompare_is_three_way_witness :
  arrayCompare (map of_Z [10; 0; 0; 9]%Z) (map of_Z [10; 0; 0; 10]%Z) = of_Z (-1) /\
  arrayCompare (map of_Z [10; 0; 0; 10]%Z) (map of_Z [10; 0; 0; 9]%Z) = of_Z 1.
Proof.
  destruct (arrayCompare_is_three_way [10; 0; 0; 9]%Z [10; 0; 0; 10]%Z
              eq_refl ltac:(discriminate)) as (c & _ & E1 & E2 & _).
  assert (c = -1)%Z as ->.
  { apply ArrayCompareFacts.of_Z_inj. rewrite <- E1. reflexivity. }
  split; [exact E1 | exact E2].
Defined.
